(** * SMS Gammu Gateway: support functions

    A shallow embedding of [sms-gammu-gateway/support.py] and the
    verification of its specification.

    The module is glue between an HTTP gateway and the gammu modem
    library.  The library and the operating system are external: they
    appear here as records of oracles ([Gammu], [OS]) acting on an
    abstract environment state.  The Python code itself is written in a
    small monad with state (the environment and a chronological trace of
    every external call and every printed line) and Python exceptions.

    The file has five parts: the embedding of the module; the runs of
    its functions as relations between outcomes and traces; the proofs
    that the functions run as the relations say, and from them the
    properties of the specification; further properties of the
    functions, read off the code; a simulated modem on which the
    functions and the properties are tried.

    Note on the source: in [init_state_machine] a bare [except:] clause
    precedes an [except Exception] clause of the same [try].  CPython
    refuses such a [try] when it compiles the module ("default except
    must be last").  The embedding gives the clauses their textual
    order, first match wins, which makes the second clause dead
    ([listing_handler_dead]). *)

From Stdlib Require Import ZArith List String Bool Lia Ascii.
From Stdlib Require Import DecimalString.
From Stdlib Require Import Sorted Permutation.
Import ListNotations.
Open Scope string_scope.
Open Scope Z_scope.

(** ** Python values and exceptions *)

(** The exception classes that the module names or that its own
    expressions raise, and one class for everything else below
    [Exception]. *)
Inductive ExcClass :=
| ERR_NOSIM            (* gammu.ERR_NOSIM, a gammu.GSMError *)
| GSMError             (* every other gammu.GSMError *)
| FileNotFoundError
| PermissionError
| KeyError
| IndexError
| UnboundLocalError
| OtherError.          (* any other subclass of Exception *)

(** An instance of [Exception]: its class and its [str()]. *)
Record Exception := mkExc { exc_class : ExcClass; exc_str : string }.

(** What a [raise] can carry: an [Exception], or [SystemExit], which
    derives from [BaseException] only and ends the process with the
    given status when nothing catches it. *)
Inductive BaseException :=
| Exc (e : Exception)
| SystemExit (status : Z).

Definition ExcClass_eqb (a b : ExcClass) : bool :=
  match a, b with
  | ERR_NOSIM, ERR_NOSIM | GSMError, GSMError
  | FileNotFoundError, FileNotFoundError | PermissionError, PermissionError
  | KeyError, KeyError | IndexError, IndexError
  | UnboundLocalError, UnboundLocalError | OtherError, OtherError => true
  | _, _ => false
  end.

(** The result of one external call: a value or an [Exception]. *)
Inductive result (A : Type) :=
| Ok (a : A)
| Err (e : Exception).
Arguments Ok {A} a.
Arguments Err {A} e.

(** The outcome of running Python code.  [OutOfFuel] is the model's
    own: a loop given too little fuel.  No Python handler catches it,
    and [retrieveAllSms_total] shows the module never produces it. *)
Inductive outcome (A : Type) :=
| Returned (a : A)
| Raised (e : BaseException)
| OutOfFuel.
Arguments Returned {A} a.
Arguments Raised {A} e.
Arguments OutOfFuel {A}.

Definition nl : string := String (ascii_of_nat 10) EmptyString.

(** [str(n)] for an int. *)
Definition str_Z (z : Z) : string := NilEmpty.string_of_int (Z.to_int z).

(** [sub in s] for strings. *)
Fixpoint contains (sub s : string) : bool :=
  prefix sub s ||
  match s with
  | EmptyString => false
  | String _ s' => contains sub s'
  end.

(** [sorted(l)] for a list of strings. *)
Fixpoint insert_sorted (x : string) (l : list string) : list string :=
  match l with
  | [] => [x]
  | y :: l' => if String.leb x y then x :: l else y :: insert_sorted x l'
  end.

Definition sorted (l : list string) : list string :=
  fold_right insert_sorted [] l.

(** The blanks that [strip] removes: the space and the bytes 9 to 13.
    [str.strip] also removes the separators 28 to 31 and the blanks
    beyond ASCII; the module applies it to the configuration only,
    which begins with a bracket and ends in a digit and a newline. *)
Definition is_space (c : ascii) : bool :=
  let n := nat_of_ascii c in
  (Nat.eqb n 32 || (Nat.leb 9 n && Nat.leb n 13))%bool.

Fixpoint lstrip (s : string) : string :=
  match s with
  | String c s' => if is_space c then lstrip s' else s
  | EmptyString => EmptyString
  end.

Fixpoint rstrip (s : string) : string :=
  match s with
  | EmptyString => EmptyString
  | String c s' =>
      match rstrip s' with
      | EmptyString => if is_space c then EmptyString else String c EmptyString
      | r => String c r
      end
  end.

(** [s.strip()] *)
Definition strip (s : string) : string := rstrip (lstrip s).

Section Gateway.

(** ** Data model *)

(** The [datetime] objects that gammu hands out, and Python's [str] on
    them. *)
Variable datetime : Type.
Variable str_datetime : datetime -> string.

(** The part of a fragment that only gammu reads: the user data header
    that carries the concatenation sequence. *)
Variable udh : Type.

(** One raw SMS as stored on the device, a dict of gammu's. *)
Record Fragment := mkFragment {
  Location : Z;
  Folder : Z;
  DateTime : datetime;
  Number : string;
  State : string;
  Text : string;
  UDH : udh
}.

(** The dict of [GetSMSStatus]. *)
Record SMSStatus := mkSMSStatus {
  SIMUsed : Z;
  SIMUnRead : Z;
  SIMSize : Z;
  PhoneUsed : Z;
  PhoneUnRead : Z;
  PhoneSize : Z;
  TemplatesUsed : Z
}.

(** One entry of a decoded message; [Buffer] may be [None]. *)
Record Entry := mkEntry {
  ID : string;
  Buffer : option string
}.

(** The dict of [DecodeSMS]. *)
Record MultiPartSMSInfo := mkInfo {
  Entries : list Entry
}.

(** A logical message, the dict that [retrieveAllSms] builds. *)
Record Sms := mkSms {
  sms_Date : string;
  sms_Number : string;
  sms_State : string;
  sms_Locations : list Z;
  sms_Text : string
}.

(** [os.stat_result], the fields read. *)
Record stat_result := mkStat {
  st_mode : Z;
  st_uid : Z;
  st_gid : Z;
  st_rdev : Z
}.

(** A [gammu.StateMachine] object, by identity. *)
Definition StateMachine := nat.

(** ** The external world *)

(** State of the modem, the SIM and the operating system. *)
Variable env : Type.

(** The gammu library.  Methods of a state machine read and change the
    environment; [LinkSMS] and [DecodeSMS] are functions of their
    argument. *)
Record Gammu := mkGammu {
  gammu_ReadConfig : StateMachine -> string -> env -> result unit * env;
  gammu_Init : StateMachine -> env -> result unit * env;
  gammu_GetSecurityStatus : StateMachine -> env -> result (option string) * env;
  gammu_EnterSecurityCode :
    StateMachine -> string -> string -> env -> result unit * env;
  gammu_GetSMSStatus : StateMachine -> env -> result SMSStatus * env;
  gammu_GetNextSMS :
    StateMachine -> Z -> bool -> option Z -> env -> result (list Fragment) * env;
  gammu_DeleteSMS : StateMachine -> Z -> Z -> env -> result unit * env;
  gammu_LinkSMS : list (list Fragment) -> result (list (list Fragment));
  gammu_DecodeSMS : list Fragment -> result (option MultiPartSMSInfo)
}.

(** The operating system calls of the diagnostics and of the
    configuration file. *)
Record OS := mkOS {
  os_stat : string -> env -> result stat_result;
  os_path_islink : string -> env -> bool;
  os_path_realpath : string -> env -> string;
  stat_filemode : Z -> string;
  stat_S_ISCHR : Z -> bool;
  os_major : Z -> Z;
  os_minor : Z -> Z;
  pwd_getpwuid : Z -> env -> result string;
  grp_getgrgid : Z -> env -> result string;
  open_rb : string -> env -> result unit;
  open_w_write : string -> string -> env -> result unit * env;
  glob_glob : string -> env -> result (list string);
  os_listdir : string -> env -> result (list string)
}.

Variable gammu : Gammu.
Variable os : OS.

(** Everything the module does to the outside, in order. *)
Inductive event :=
| EvPrint (line : string)
| EvWriteFile (path content : string) (r : result unit)
| EvStateMachine (sm : StateMachine)
| EvReadConfig (sm : StateMachine) (Filename : string) (r : result unit)
| EvInit (sm : StateMachine) (r : result unit)
| EvGetSecurityStatus (sm : StateMachine) (r : result (option string))
| EvEnterSecurityCode (sm : StateMachine) (type code : string) (r : result unit)
| EvGetSMSStatus (sm : StateMachine) (r : result SMSStatus)
| EvGetNextSMS (sm : StateMachine) (folder : Z) (start : bool)
    (location : option Z) (r : result (list Fragment))
| EvLinkSMS (messages : list (list Fragment)) (r : result (list (list Fragment)))
| EvDecodeSMS (messages : list Fragment) (r : result (option MultiPartSMSInfo))
| EvDeleteSMS (sm : StateMachine) (folder location : Z) (r : result unit).

Record World := mkWorld {
  w_env : env;
  w_trace : list event;
  w_objects : nat
}.

(** ** The monad of Python code *)

Definition M (A : Type) : Type := World -> outcome A * World.

Definition ret {A} (a : A) : M A := fun w => (Returned a, w).

Definition bind {A B} (m : M A) (k : A -> M B) : M B :=
  fun w =>
    match m w with
    | (Returned a, w') => k a w'
    | (Raised e, w') => (Raised e, w')
    | (OutOfFuel, w') => (OutOfFuel, w')
    end.

Definition raise {A} (e : BaseException) : M A := fun w => (Raised e, w).

Definition out_of_fuel {A} : M A := fun w => (OutOfFuel, w).

Notation "x <- m ;; k" := (bind m (fun x => k))
  (at level 100, m at next level, right associativity).
Notation "m ;; k" := (bind m (fun _ => k))
  (at level 100, right associativity).

(** One clause of a [try]: [None] when the clause does not match. *)
Definition clause (A : Type) : Type := BaseException -> option (M A).

(** [except cls:] *)
Definition except_class {A} (cls : ExcClass) (h : Exception -> M A) : clause A :=
  fun b =>
    match b with
    | Exc e => if ExcClass_eqb (exc_class e) cls then Some (h e) else None
    | SystemExit _ => None
    end.

(** [except Exception as e:] *)
Definition except_Exception {A} (h : Exception -> M A) : clause A :=
  fun b =>
    match b with
    | Exc e => Some (h e)
    | SystemExit _ => None
    end.

(** [except:] *)
Definition except_bare {A} (h : M A) : clause A := fun _ => Some h.

(** The clauses of a [try] in textual order: the first match handles. *)
Fixpoint first_match {A} (cs : list (clause A)) (b : BaseException) : option (M A) :=
  match cs with
  | [] => None
  | c :: cs' =>
      match c b with
      | Some h => Some h
      | None => first_match cs' b
      end
  end.

(** [try: body except ...]: an exception of the body goes to the first
    matching clause, or on to the caller; what a handler raises is not
    offered to the clauses again. *)
Definition try_ {A} (body : M A) (cs : list (clause A)) : M A :=
  fun w =>
    match body w with
    | (Raised b, w') =>
        match first_match cs b with
        | Some h => h w'
        | None => (Raised b, w')
        end
    | r => r
    end.

(** [for x in l: body x] *)
Fixpoint for_ {A} (l : list A) (body : A -> M unit) : M unit :=
  match l with
  | [] => ret tt
  | x :: l' => body x ;; for_ l' body
  end.

(** [list(map(f, l))], and a list comprehension with effects. *)
Fixpoint mapM {A B} (f : A -> M B) (l : list A) : M (list B) :=
  match l with
  | [] => ret []
  | x :: l' => y <- f x ;; ys <- mapM f l' ;; ret (y :: ys)
  end.

Definition log (ev : event) (w : World) : World :=
  {| w_env := w_env w; w_trace := w_trace w ++ [ev]; w_objects := w_objects w |}.

(** A call that reads and changes the environment, recorded with its
    result. *)
Definition call {A} (f : env -> result A * env) (ev : result A -> event) : M A :=
  fun w =>
    let (r, e') := f (w_env w) in
    let w' := {| w_env := e'; w_trace := w_trace w ++ [ev r];
                 w_objects := w_objects w |} in
    match r with
    | Ok a => (Returned a, w')
    | Err e => (Raised (Exc e), w')
    end.

(** A call that only reads the environment; not recorded. *)
Definition query {A} (f : env -> result A) : M A :=
  fun w =>
    match f (w_env w) with
    | Ok a => (Returned a, w)
    | Err e => (Raised (Exc e), w)
    end.

Definition print (line : string) : M unit :=
  fun w => (Returned tt, log (EvPrint line) w).

(** ** gammu, as the module calls it *)

(** [gammu.StateMachine()] *)
Definition new_StateMachine : M StateMachine :=
  fun w =>
    let sm := w_objects w in
    (Returned sm,
     {| w_env := w_env w; w_trace := w_trace w ++ [EvStateMachine sm];
        w_objects := S sm |}).

Definition ReadConfig (sm : StateMachine) (Filename : string) : M unit :=
  call (gammu_ReadConfig gammu sm Filename) (EvReadConfig sm Filename).

Definition Init (sm : StateMachine) : M unit :=
  call (gammu_Init gammu sm) (EvInit sm).

Definition GetSecurityStatus (sm : StateMachine) : M (option string) :=
  call (gammu_GetSecurityStatus gammu sm) (EvGetSecurityStatus sm).

Definition EnterSecurityCode (sm : StateMachine) (type code : string) : M unit :=
  call (gammu_EnterSecurityCode gammu sm type code) (EvEnterSecurityCode sm type code).

Definition GetSMSStatus (sm : StateMachine) : M SMSStatus :=
  call (gammu_GetSMSStatus gammu sm) (EvGetSMSStatus sm).

Definition GetNextSMS (sm : StateMachine) (folder : Z) (start : bool)
    (location : option Z) : M (list Fragment) :=
  call (gammu_GetNextSMS gammu sm folder start location)
       (EvGetNextSMS sm folder start location).

Definition DeleteSMS (sm : StateMachine) (folder location : Z) : M unit :=
  call (gammu_DeleteSMS gammu sm folder location) (EvDeleteSMS sm folder location).

Definition LinkSMS (messages : list (list Fragment)) : M (list (list Fragment)) :=
  call (fun e => (gammu_LinkSMS gammu messages, e)) (EvLinkSMS messages).

Definition DecodeSMS (messages : list Fragment) : M (option MultiPartSMSInfo) :=
  call (fun e => (gammu_DecodeSMS gammu messages, e)) (EvDecodeSMS messages).

(** [l[0]]: [IndexError] on an empty list. *)
Definition item0 {A} (l : list A) : M A :=
  match l with
  | x :: _ => ret x
  | [] => raise (Exc (mkExc IndexError "list index out of range"))
  end.

(** A value read off the environment by a call that cannot fail. *)
Definition ask {A} (f : env -> A) : M A := fun w => (Returned (f (w_env w)), w).

(** ** Device diagnostics *)

(** [str(x)] for a string or [None]. *)
Definition str_option (x : option string) : string :=
  match x with
  | Some s => s
  | None => "None"
  end.

Definition _describe_device_permissions (device_path : string) : M string :=
  stat_or_message <-
    try_ (info <- query (os_stat os device_path) ;; ret (inl info))
      [except_class FileNotFoundError
         (fun _ => ret (inr ("⚠️ Device " ++ device_path ++ " not found")));
       except_Exception
         (fun e => ret (inr ("⚠️ Could not stat " ++ device_path ++ ": "
                               ++ exc_str e)))] ;;
  match stat_or_message with
  | inr message => ret message
  | inl info =>
      let mode := st_mode info in
      let perms := stat_filemode os mode in
      owner <- try_ (query (pwd_getpwuid os (st_uid info)))
                 [except_class KeyError (fun _ => ret (str_Z (st_uid info)))] ;;
      group <- try_ (query (grp_getgrgid os (st_gid info)))
                 [except_class KeyError (fun _ => ret (str_Z (st_gid info)))] ;;
      let major :=
        if stat_S_ISCHR os mode then Some (os_major os (st_rdev info)) else None in
      let minor :=
        if stat_S_ISCHR os mode then Some (os_minor os (st_rdev info)) else None in
      let parts := ["Permissions: " ++ perms; "Owner: " ++ owner ++ ":" ++ group] in
      let parts :=
        match major, minor with
        | Some major, Some minor =>
            app parts ["Major:Minor = " ++ str_Z major ++ ":" ++ str_Z minor]
        | _, _ => parts
        end in
      ret (String.concat " | " parts)
  end.

Definition log_device_diagnostics (device_path : string) : M unit :=
  print "🔎 Collecting modem diagnostics..." ;;
  print ("Configured device: " ++ device_path) ;;
  islink <- ask (os_path_islink os device_path) ;;
  (if islink : bool then
     target <- ask (os_path_realpath os device_path) ;;
     print ("Symlink target: " ++ target)
   else ret tt) ;;
  description <- _describe_device_permissions device_path ;;
  print description ;;
  try_ (query (open_rb os device_path) ;;
        print "✅ Able to open device file (read-only test)")
    [except_class FileNotFoundError
       (fun _ => print "❌ Device file does not exist");
     except_class PermissionError
       (fun _ => print "❌ Permission denied when opening device file");
     except_Exception
       (fun e => print ("⚠️ Unexpected error opening device: " ++ exc_str e))] ;;
  try_ (found <- query (glob_glob os "/dev/tty*") ;;
        let siblings := sorted found in
        let nearby :=
          filter (fun dev => existsb (fun tag => contains tag dev) ["USB"; "ACM"; "AMA"])
                 siblings in
        print "Discovered TTY devices:" ;;
        for_ nearby (fun dev => print ("  " ++ dev)))
    [except_Exception
       (fun e => print ("⚠️ Unable to list /dev/tty* devices: " ++ exc_str e))].

(** ** Connection initializer *)

Definition default_device_path : string := "/dev/ttyUSB0".

(** [sys.exit(status)] *)
Definition sys_exit {A} (status : Z) : M A := raise (SystemExit status).

(** [pin is None or pin == ''] *)
Definition pin_missing (pin : option string) : bool :=
  match pin with
  | None => true
  | Some p => String.eqb p ""
  end.

(** [x == s] for [x] a string or [None]. *)
Definition eq_str (x : option string) (s : string) : bool :=
  match x with
  | Some t => String.eqb t s
  | None => false
  end.

(** The handlers of the device listing in [init_state_machine], in the
    order of the source. *)
Definition listing_handlers : list (clause unit) :=
  [except_bare (ret tt);
   except_Exception
     (fun inner_e => print ("⚠️ Unable to list /dev devices: " ++ exc_str inner_e))].

(** The inner [try] of [init_state_machine]: the security status and
    the PIN. *)
Definition check_security (sm : StateMachine) (pin : option string) : M unit :=
  try_
    (security_status <- GetSecurityStatus sm ;;
     print ("SIM security status: " ++ str_option security_status) ;;
     if eq_str security_status "PIN" then
       let refuse : M unit :=
         (print "PIN is required but not provided." ;; sys_exit 1) in
       match pin with
       | None => refuse
       | Some p =>
           if String.eqb p "" then refuse
           else
             EnterSecurityCode sm "PIN" p ;;
             print "PIN entered successfully"
       end
     else ret tt)
    [except_Exception
       (fun e => print ("Warning: Could not check SIM security status: "
                          ++ exc_str e))].

(** The outer [try] of [init_state_machine]. *)
Definition connect (sm : StateMachine) (pin : option string) (device_path : string)
    : M unit :=
  try_
    (Init sm ;;
     print ("Successfully initialized gammu with device: " ++ device_path) ;;
     check_security sm pin)
    [except_class ERR_NOSIM
       (fun _ => print "Warning: SIM card not accessible, but device is connected");
     except_Exception
       (fun e =>
          print ("Error initializing device: " ++ exc_str e) ;;
          print "Available devices:" ;;
          try_
            (names <- query (os_listdir os "/dev/") ;;
             let devices := filter (fun d => prefix "tty" d) names in
             for_ (sorted devices) (fun device => print ("  /dev/" ++ device)))
            listing_handlers ;;
          raise (Exc e))].

Definition config_file : string := "/tmp/gammu.config".

Definition config_content (device_path : string) : string :=
  "[gammu]" ++ nl ++
  "device = " ++ device_path ++ nl ++
  "connection = at" ++ nl ++
  "commtimeout = 40" ++ nl.

Definition init_state_machine (pin : option string) (device_path : string)
    : M StateMachine :=
  sm <- new_StateMachine ;;
  call (open_w_write os config_file (config_content device_path))
       (EvWriteFile config_file (config_content device_path)) ;;
  print "📄 Generated gammu config:" ;;
  print (strip (config_content device_path)) ;;
  print ("Config file saved to: " ++ config_file) ;;
  log_device_diagnostics device_path ;;
  ReadConfig sm config_file ;;
  connect sm pin device_path ;;
  ret sm.

(** ** Message retrieval *)

(** The variables of the fetch loop.  [currentMultiPartSms] is unbound
    until the first fetch. *)
Record fetch_state := mkFetch {
  allMultiPartSms : list (list Fragment);
  start : bool;
  currentMultiPartSms : option (list Fragment)
}.

(** The body of the [while]: one fetch, appended. *)
Definition fetch_step (machine : StateMachine) (st : fetch_state) : M fetch_state :=
  current <-
    (if start st then
       GetNextSMS machine 0 true None
     else
       previous <- match currentMultiPartSms st with
                   | Some c => ret c
                   | None => raise (Exc (mkExc UnboundLocalError "currentMultiPartSms"))
                   end ;;
       first <- item0 previous ;;
       GetNextSMS machine 0 false (Some (Location first))) ;;
  ret {| allMultiPartSms := allMultiPartSms st ++ [current];
         start := false;
         currentMultiPartSms := Some current |}.

(** [while len(allMultiPartSms) < allMultiPartSmsCount: ...] *)
Fixpoint fetch_loop (fuel : nat) (machine : StateMachine)
    (allMultiPartSmsCount : Z) (st : fetch_state) : M (list (list Fragment)) :=
  if Z.of_nat (List.length (allMultiPartSms st)) <? allMultiPartSmsCount then
    match fuel with
    | O => out_of_fuel
    | S fuel' =>
        st' <- fetch_step machine st ;;
        fetch_loop fuel' machine allMultiPartSmsCount st'
    end
  else ret (allMultiPartSms st).

(** The text of a decoded message: the buffers that are not [None],
    concatenated. *)
Definition entries_text (entries : list Entry) : string :=
  fold_left
    (fun text entry =>
       match Buffer entry with
       | Some buffer => text ++ buffer
       | None => text
       end)
    entries "".

(** The body of [for sms in allSms]: the dict of one logical message.
    The variable of the list comprehension is local to it (Python 3),
    so [smsPart] stays [sms[0]] for the text. *)
Definition make_result (sms : list Fragment) : M Sms :=
  smsPart <- item0 sms ;;
  let Date := str_datetime (DateTime smsPart) in
  let Locations := map Location sms in
  decodedSms <- DecodeSMS sms ;;
  let text :=
    match decodedSms with
    | None => Text smsPart
    | Some decoded => entries_text (Entries decoded)
    end in
  ret {| sms_Date := Date;
         sms_Number := Number smsPart;
         sms_State := State smsPart;
         sms_Locations := Locations;
         sms_Text := text |}.

(** [for sms in allSms: ... results.append(result)] *)
Fixpoint collect_results (allSms : list (list Fragment)) (results : list Sms)
    : M (list Sms) :=
  match allSms with
  | [] => ret results
  | sms :: rest =>
      result <- make_result sms ;;
      collect_results rest (results ++ [result])
  end.

(** The expected total of the status query. *)
Definition expected_total (status : SMSStatus) : Z :=
  SIMUsed status + PhoneUsed status + TemplatesUsed status.

(** The fetch loop from its initial variables.  Every turn appends one
    element, so [Z.to_nat allMultiPartSmsCount] turns of fuel are
    enough ([fetch_loop_fuel]). *)
Definition fetch_all (machine : StateMachine) (allMultiPartSmsCount : Z)
    : M (list (list Fragment)) :=
  fetch_loop (Z.to_nat allMultiPartSmsCount) machine allMultiPartSmsCount
    {| allMultiPartSms := []; start := true; currentMultiPartSms := None |}.

Definition retrieveAllSms (machine : StateMachine) : M (list Sms) :=
  try_
    (status <- GetSMSStatus machine ;;
     let allMultiPartSmsCount := expected_total status in
     allMultiPartSms <- fetch_all machine allMultiPartSmsCount ;;
     allSms <- LinkSMS allMultiPartSms ;;
     collect_results allSms [])
    [except_Exception
       (fun e => print ("Error retrieving SMS: " ++ exc_str e) ;; raise (Exc e))].

(** ** Message deletion *)

Definition deleteSms (machine : StateMachine) (sms : Sms) : M unit :=
  try_
    (mapM (fun location => DeleteSMS machine 0 location) (sms_Locations sms) ;;
     ret tt)
    [except_Exception (fun e => print ("Error deleting SMS: " ++ exc_str e))].

(** ** Runs and their traces *)

Definition outcome_of {A} (m : M A) (w : World) : outcome A := fst (m w).

(** The events a run adds to the trace. *)
Definition events_of {A} (m : M A) (w : World) : list event :=
  skipn (List.length (w_trace w)) (w_trace (snd (m w))).

(** A result of an external call, as the outcome of the call. *)
Definition lift {A} (r : result A) : outcome A :=
  match r with
  | Ok a => Returned a
  | Err e => Raised (Exc e)
  end.

(** [traced m Q]: from every world, [m] only appends to the trace, and
    its outcome and the events appended satisfy [Q]. *)
Definition traced {A} (m : M A) (Q : outcome A -> list event -> Prop) : Prop :=
  forall w, exists evs,
    w_trace (snd (m w)) = (w_trace w ++ evs)%list /\ Q (fst (m w)) evs.

(** The environment a run ends in. *)
Definition environment_after {A} (m : M A) (w : World) : env := w_env (snd (m w)).

(** [runs_from e0 m Q]: as [traced], for the worlds whose environment
    is [e0]; [Q] also sees the environment the run ends in. *)
Definition runs_from {A} (e0 : env) (m : M A)
    (Q : outcome A -> list event -> env -> Prop) : Prop :=
  forall w, w_env w = e0 ->
    exists evs,
      w_trace (snd (m w)) = (w_trace w ++ evs)%list /\
      Q (fst (m w)) evs (w_env (snd (m w))).

(** ** Message deletion, as a relation on traces *)

(** [delete_run machine locations failure evs]: the deletion calls
    issued for [locations], in order, up to the first that fails. *)
Inductive delete_run (machine : StateMachine)
    : list Z -> option Exception -> list event -> Prop :=
| delete_done : delete_run machine [] None []
| delete_ok location rest failure evs :
    delete_run machine rest failure evs ->
    delete_run machine (location :: rest) failure
      (EvDeleteSMS machine 0 location (Ok tt) :: evs)
| delete_failed location rest e :
    delete_run machine (location :: rest) (Some e)
      [EvDeleteSMS machine 0 location (Err e)].

(** What [deleteSms] prints after the deletion calls. *)
Definition delete_report (failure : option Exception) : list event :=
  match failure with
  | None => []
  | Some e => [EvPrint ("Error deleting SMS: " ++ exc_str e)]
  end.

(** ** Message retrieval, as a relation on traces *)

(** One turn of the fetch loop from the variables [start] and
    [currentMultiPartSms]: the driver call issued, if any, and what the
    turn yields. *)
Inductive fetch_step_run (machine : StateMachine)
    : bool -> option (list Fragment) -> result (list Fragment) -> list event -> Prop :=
| step_first current r :
    fetch_step_run machine true current r [EvGetNextSMS machine 0 true None r]
| step_next first others r :
    fetch_step_run machine false (Some (first :: others)) r
      [EvGetNextSMS machine 0 false (Some (Location first)) r]
| step_index_error :
    fetch_step_run machine false (Some [])
      (Err (mkExc IndexError "list index out of range")) []
| step_unbound :
    fetch_step_run machine false None
      (Err (mkExc UnboundLocalError "currentMultiPartSms")) [].

(** [fetch_run machine start current n responses failure evs]: the
    loop with [n] turns to go appends [responses]; it ends after [n]
    turns or at a turn that raises. *)
Inductive fetch_run (machine : StateMachine)
    : bool -> option (list Fragment) -> nat -> list (list Fragment) ->
      option Exception -> list event -> Prop :=
| fetch_stop start current : fetch_run machine start current 0 [] None []
| fetch_more start current n r responses failure evs1 evs :
    fetch_step_run machine start current (Ok r) evs1 ->
    fetch_run machine false (Some r) n responses failure evs ->
    fetch_run machine start current (S n) (r :: responses) failure (evs1 ++ evs)
| fetch_failed start current n e evs1 :
    fetch_step_run machine start current (Err e) evs1 ->
    fetch_run machine start current (S n) [] (Some e) evs1.

(** The dict built for the group [sms] with first fragment [smsPart]
    and decoding [decodedSms]. *)
Definition result_of (smsPart : Fragment) (sms : list Fragment)
    (decodedSms : option MultiPartSMSInfo) : Sms :=
  {| sms_Date := str_datetime (DateTime smsPart);
     sms_Number := Number smsPart;
     sms_State := State smsPart;
     sms_Locations := map Location sms;
     sms_Text := match decodedSms with
                 | None => Text smsPart
                 | Some decoded => entries_text (Entries decoded)
                 end |}.

(** [collect_run groups results failure evs]: the [for] loop over the
    linked groups builds [results]; it ends with the groups or at a
    group that raises. *)
Inductive collect_run
    : list (list Fragment) -> list Sms -> option Exception -> list event -> Prop :=
| collect_done : collect_run [] [] None []
| collect_more smsPart others decodedSms groups results failure evs :
    gammu_DecodeSMS gammu (smsPart :: others) = Ok decodedSms ->
    collect_run groups results failure evs ->
    collect_run ((smsPart :: others) :: groups)
      (result_of smsPart (smsPart :: others) decodedSms :: results) failure
      (EvDecodeSMS (smsPart :: others) (Ok decodedSms) :: evs)
| collect_decode_failed smsPart others groups e :
    gammu_DecodeSMS gammu (smsPart :: others) = Err e ->
    collect_run ((smsPart :: others) :: groups) [] (Some e)
      [EvDecodeSMS (smsPart :: others) (Err e)]
| collect_empty_group groups :
    collect_run ([] :: groups) []
      (Some (mkExc IndexError "list index out of range")) [].

Definition retrieval_report (e : Exception) : event :=
  EvPrint ("Error retrieving SMS: " ++ exc_str e).

(** The runs of [retrieveAllSms]: one constructor for every place
    where the run can end. *)
Inductive retrieval_run (machine : StateMachine)
    : outcome (list Sms) -> list event -> Prop :=
| retrieval_status_failed e :
    retrieval_run machine (Raised (Exc e))
      [EvGetSMSStatus machine (Err e); retrieval_report e]
| retrieval_fetch_failed status responses e fetches :
    fetch_run machine true None (Z.to_nat (expected_total status))
      responses (Some e) fetches ->
    retrieval_run machine (Raised (Exc e))
      (EvGetSMSStatus machine (Ok status) :: fetches ++ [retrieval_report e])
| retrieval_link_failed status responses e fetches :
    fetch_run machine true None (Z.to_nat (expected_total status))
      responses None fetches ->
    gammu_LinkSMS gammu responses = Err e ->
    retrieval_run machine (Raised (Exc e))
      (EvGetSMSStatus machine (Ok status) :: fetches ++
       [EvLinkSMS responses (Err e); retrieval_report e])
| retrieval_collect_failed status responses fetches groups results e decodes :
    fetch_run machine true None (Z.to_nat (expected_total status))
      responses None fetches ->
    gammu_LinkSMS gammu responses = Ok groups ->
    collect_run groups results (Some e) decodes ->
    retrieval_run machine (Raised (Exc e))
      (EvGetSMSStatus machine (Ok status) :: fetches ++
       EvLinkSMS responses (Ok groups) :: decodes ++ [retrieval_report e])
| retrieval_returned status responses fetches groups results decodes :
    fetch_run machine true None (Z.to_nat (expected_total status))
      responses None fetches ->
    gammu_LinkSMS gammu responses = Ok groups ->
    collect_run groups results None decodes ->
    retrieval_run machine (Returned results)
      (EvGetSMSStatus machine (Ok status) :: fetches ++
       EvLinkSMS responses (Ok groups) :: decodes).

(** The turns the loop still has to make from [st]. *)
Definition turns_left (allMultiPartSmsCount : Z) (st : fetch_state) : nat :=
  Z.to_nat (allMultiPartSmsCount - Z.of_nat (List.length (allMultiPartSms st))).

(** ** Initialization, as a relation on traces *)

Definition is_print (ev : event) : Prop :=
  match ev with
  | EvPrint _ => True
  | _ => False
  end.

(** The events before the driver is initialized. *)
Definition preparation (ev : event) : Prop :=
  match ev with
  | EvPrint _ | EvWriteFile _ _ _ | EvReadConfig _ _ _ => True
  | _ => False
  end.

(** [emits P m]: [m] appends only events in [P], and is no loop. *)
Definition emits (P : event -> Prop) {A} (m : M A) : Prop :=
  traced m (fun r evs => Forall P evs /\ r <> OutOfFuel).

Definition clause_emits (P : event -> Prop) {A} (c : clause A) : Prop :=
  forall b h, c b = Some h -> emits P h.

Definition security_warning (e : Exception) : event :=
  EvPrint ("Warning: Could not check SIM security status: " ++ exc_str e).

Definition security_line (security_status : option string) : event :=
  EvPrint ("SIM security status: " ++ str_option security_status).

(** The runs of the inner [try]: the security status and the PIN. *)
Inductive security_run (sm : StateMachine) (pin : option string)
    : outcome unit -> list event -> Prop :=
| security_status_failed e :
    security_run sm pin (Returned tt)
      [EvGetSecurityStatus sm (Err e); security_warning e]
| security_no_pin_needed security_status :
    eq_str security_status "PIN" = false ->
    security_run sm pin (Returned tt)
      [EvGetSecurityStatus sm (Ok security_status); security_line security_status]
| security_pin_missing security_status :
    eq_str security_status "PIN" = true ->
    pin_missing pin = true ->
    security_run sm pin (Raised (SystemExit 1))
      [EvGetSecurityStatus sm (Ok security_status); security_line security_status;
       EvPrint "PIN is required but not provided."]
| security_pin_entered security_status p :
    eq_str security_status "PIN" = true ->
    pin = Some p -> pin_missing pin = false ->
    security_run sm pin (Returned tt)
      [EvGetSecurityStatus sm (Ok security_status); security_line security_status;
       EvEnterSecurityCode sm "PIN" p (Ok tt); EvPrint "PIN entered successfully"]
| security_pin_refused security_status p e :
    eq_str security_status "PIN" = true ->
    pin = Some p -> pin_missing pin = false ->
    security_run sm pin (Returned tt)
      [EvGetSecurityStatus sm (Ok security_status); security_line security_status;
       EvEnterSecurityCode sm "PIN" p (Err e); security_warning e].

(** The lines of the device listing: nothing when [os.listdir] fails. *)
Definition listing (names : result (list string)) : list event :=
  match names with
  | Ok names =>
      map (fun device => EvPrint ("  /dev/" ++ device))
          (sorted (filter (fun d => prefix "tty" d) names))
  | Err _ => []
  end.

(** The runs of the outer [try]. *)
Inductive connect_run (sm : StateMachine) (pin : option string) (device_path : string)
    : outcome unit -> list event -> Prop :=
| connect_no_sim e :
    exc_class e = ERR_NOSIM ->
    connect_run sm pin device_path (Returned tt)
      [EvInit sm (Err e);
       EvPrint "Warning: SIM card not accessible, but device is connected"]
| connect_failed e names :
    exc_class e <> ERR_NOSIM ->
    connect_run sm pin device_path (Raised (Exc e))
      (EvInit sm (Err e) ::
       EvPrint ("Error initializing device: " ++ exc_str e) ::
       EvPrint "Available devices:" :: listing names)
| connect_initialized r evs :
    security_run sm pin r evs ->
    connect_run sm pin device_path r
      (EvInit sm (Ok tt) ::
       EvPrint ("Successfully initialized gammu with device: " ++ device_path) ::
       evs).

(** What [init_state_machine] hands back after the outer [try]. *)
Definition handle_of (sm : StateMachine) (r : outcome unit) : outcome StateMachine :=
  match r with
  | Returned _ => Returned sm
  | Raised b => Raised b
  | OutOfFuel => OutOfFuel
  end.

(** The runs of [init_state_machine]: either the driver is never
    initialized, because writing the configuration, the diagnostics or
    [ReadConfig] raised, or the outer [try] runs. *)
Inductive init_run (pin : option string) (device_path : string)
    : outcome StateMachine -> list event -> Prop :=
| init_not_reached sm b evs :
    Forall preparation evs ->
    init_run pin device_path (Raised b) (EvStateMachine sm :: evs)
| init_reached sm prints r evs :
    Forall is_print prints ->
    connect_run sm pin device_path r evs ->
    init_run pin device_path (handle_of sm r)
      (EvStateMachine sm ::
       EvWriteFile config_file (config_content device_path) (Ok tt) ::
       prints ++ EvReadConfig sm config_file (Ok tt) :: evs).

(** ** What the properties observe on a trace *)

Definition is_fetch (ev : event) : bool :=
  match ev with
  | EvGetNextSMS _ _ _ _ _ => true
  | _ => false
  end.

(** The responses of the fetches that succeeded, in order. *)
Definition fetched (evs : list event) : list (list Fragment) :=
  flat_map (fun ev => match ev with
                      | EvGetNextSMS _ _ _ _ (Ok r) => [r]
                      | _ => []
                      end) evs.

(** The number of fragments in the logical messages of a result. *)
Definition fragment_total (results : list Sms) : Z :=
  Z.of_nat (List.length (List.concat (map sms_Locations results))).

(** The error of a failed retrieval step. *)
Definition retrieval_error (ev : event) : option Exception :=
  match ev with
  | EvGetSMSStatus _ (Err e) => Some e
  | EvGetNextSMS _ _ _ _ (Err e) => Some e
  | EvLinkSMS _ (Err e) => Some e
  | EvDecodeSMS _ (Err e) => Some e
  | _ => None
  end.

(** The fetches after one that returned [previous]: each asks for the
    location of the first fragment of the response before it. *)
Fixpoint follows (machine : StateMachine) (previous : result (list Fragment))
    (fetches : list event) : Prop :=
  match fetches with
  | [] => True
  | ev :: rest =>
      exists first others r,
        previous = Ok (first :: others) /\
        ev = EvGetNextSMS machine 0 false (Some (Location first)) r /\
        follows machine r rest
  end.

(** The fetches of one retrieval: the first from the start, the others
    each from the location returned before. *)
Definition fetch_protocol (machine : StateMachine) (fetches : list event) : Prop :=
  match fetches with
  | [] => True
  | ev :: rest =>
      exists r, ev = EvGetNextSMS machine 0 true None r /\ follows machine r rest
  end.

(** The buffers of the entries that have one. *)
Definition non_null_buffers (entries : list Entry) : list string :=
  flat_map (fun entry => match Buffer entry with
                         | Some buffer => [buffer]
                         | None => []
                         end) entries.

Definition is_delete (ev : event) : bool :=
  match ev with
  | EvDeleteSMS _ _ _ _ => true
  | _ => false
  end.

(** The locations of the deletion calls, in order. *)
Definition deleted_locations (evs : list event) : list Z :=
  flat_map (fun ev => match ev with
                      | EvDeleteSMS _ _ location _ => [location]
                      | _ => []
                      end) evs.

(** ** Rules for runs *)

Lemma skipn_length_app {A} (l l' : list A) :
  skipn (List.length l) (l ++ l')%list = l'.
Proof. induction l; simpl; auto. Qed.

Lemma traced_run {A} (m : M A) Q :
  traced m Q -> forall w, Q (outcome_of m w) (events_of m w).
Proof.
  intros H w. destruct (H w) as (evs & Ht & HQ).
  unfold events_of, outcome_of. rewrite Ht, skipn_length_app. exact HQ.
Qed.

Lemma traced_conseq {A} (m : M A) (Q1 Q2 : outcome A -> list event -> Prop) :
  traced m Q1 -> (forall r evs, Q1 r evs -> Q2 r evs) -> traced m Q2.
Proof.
  intros H HQ w. destruct (H w) as (evs & Ht & H1). exists evs. auto.
Qed.

Lemma traced_ret {A} (a : A) (Q : outcome A -> list event -> Prop) :
  Q (Returned a) [] -> traced (ret a) Q.
Proof. intros H w. exists []. simpl. rewrite app_nil_r. auto. Qed.

Lemma traced_raise {A} b (Q : outcome A -> list event -> Prop) :
  Q (Raised b) [] -> traced (raise b) Q.
Proof. intros H w. exists []. simpl. rewrite app_nil_r. auto. Qed.

Lemma traced_print line (Q : outcome unit -> list event -> Prop) :
  Q (Returned tt) [EvPrint line] -> traced (print line) Q.
Proof. intros H w. exists [EvPrint line]. simpl. auto. Qed.

Lemma traced_call {A} (f : env -> result A * env) ev
    (Q : outcome A -> list event -> Prop) :
  (forall r, Q (lift r) [ev r]) -> traced (call f ev) Q.
Proof.
  intros H w. unfold call. destruct (f (w_env w)) as [r e'].
  exists [ev r]. destruct r; simpl; split; auto; apply (H (Ok a)) || apply (H (Err e)).
Qed.

Lemma traced_pure_call {A} (r : result A) ev
    (Q : outcome A -> list event -> Prop) :
  Q (lift r) [ev r] -> traced (call (fun e => (r, e)) ev) Q.
Proof.
  intros H w. unfold call. exists [ev r]. destruct r; simpl; split; auto.
Qed.

Lemma traced_query {A} (f : env -> result A)
    (Q : outcome A -> list event -> Prop) :
  (forall r, Q (lift r) []) -> traced (query f) Q.
Proof.
  intros H w. unfold query. exists [].
  destruct (f (w_env w)) eqn:E; simpl; rewrite app_nil_r; split; auto.
  - apply (H (Ok a)).
  - apply (H (Err e)).
Qed.

Lemma traced_ask {A} (f : env -> A) (Q : outcome A -> list event -> Prop) :
  (forall a, Q (Returned a) []) -> traced (ask f) Q.
Proof. intros H w. exists []. simpl. rewrite app_nil_r. auto. Qed.

Lemma traced_bind {A B} (m : M A) (k : A -> M B)
    (Q1 : outcome A -> list event -> Prop) (Q : outcome B -> list event -> Prop) :
  traced m Q1 ->
  (forall a evs1, Q1 (Returned a) evs1 ->
     traced (k a) (fun r evs2 => Q r (evs1 ++ evs2)%list)) ->
  (forall b evs1, Q1 (Raised b) evs1 -> Q (Raised b) evs1) ->
  (forall evs1, Q1 OutOfFuel evs1 -> Q OutOfFuel evs1) ->
  traced (bind m k) Q.
Proof.
  intros Hm Hk Hr Hf w. unfold bind.
  destruct (Hm w) as (evs1 & Ht & H1).
  destruct (m w) as [[a | b |] w1]; simpl in *.
  - destruct (Hk a evs1 H1 w1) as (evs2 & Ht2 & H2).
    exists (evs1 ++ evs2)%list. rewrite Ht2, Ht, app_assoc. auto.
  - exists evs1. auto.
  - exists evs1. auto.
Qed.

Lemma traced_try {A} (body : M A) (cs : list (clause A))
    (Q1 Q : outcome A -> list event -> Prop) :
  traced body Q1 ->
  (forall a evs1, Q1 (Returned a) evs1 -> Q (Returned a) evs1) ->
  (forall b evs1, Q1 (Raised b) evs1 ->
     match first_match cs b with
     | Some h => traced h (fun r evs2 => Q r (evs1 ++ evs2)%list)
     | None => Q (Raised b) evs1
     end) ->
  (forall evs1, Q1 OutOfFuel evs1 -> Q OutOfFuel evs1) ->
  traced (try_ body cs) Q.
Proof.
  intros Hb Hret Hexc Hf w. unfold try_.
  destruct (Hb w) as (evs1 & Ht & H1).
  destruct (body w) as [[a | b |] w1]; simpl in *.
  - exists evs1. auto.
  - specialize (Hexc b evs1 H1). destruct (first_match cs b) as [h |].
    + destruct (Hexc w1) as (evs2 & Ht2 & H2).
      exists (evs1 ++ evs2)%list. rewrite Ht2, Ht, app_assoc. auto.
    + exists evs1. auto.
  - exists evs1. auto.
Qed.

Lemma runs_from_run {A} (m : M A) Q w :
  runs_from (w_env w) m Q ->
  Q (outcome_of m w) (events_of m w) (environment_after m w).
Proof.
  intros H. destruct (H w eq_refl) as (evs & Ht & HQ).
  unfold events_of, outcome_of, environment_after.
  rewrite Ht, skipn_length_app. exact HQ.
Qed.

Lemma runs_from_conseq {A} e0 (m : M A)
    (Q1 Q2 : outcome A -> list event -> env -> Prop) :
  runs_from e0 m Q1 -> (forall r evs e1, Q1 r evs e1 -> Q2 r evs e1) ->
  runs_from e0 m Q2.
Proof.
  intros H HQ w Hw. destruct (H w Hw) as (evs & Ht & H1). exists evs. auto.
Qed.

Lemma runs_from_traced {A} e0 (m : M A) (Q : outcome A -> list event -> Prop) :
  traced m Q -> runs_from e0 m (fun r evs _ => Q r evs).
Proof. intros H w _. destruct (H w) as (evs & Ht & HQ). eauto. Qed.

(** What [traced] and [runs_from] say of a run holds of the same
    events. *)
Lemma runs_from_and {A} e0 (m : M A) Q1 (Q2 : outcome A -> list event -> Prop) :
  runs_from e0 m Q1 -> traced m Q2 ->
  runs_from e0 m (fun r evs e1 => Q1 r evs e1 /\ Q2 r evs).
Proof.
  intros H1 H2 w Hw. destruct (H1 w Hw) as (evs & Ht & HQ1).
  destruct (H2 w) as (evs' & Ht' & HQ2).
  rewrite Ht in Ht'. apply app_inv_head in Ht'. subst evs'. eauto.
Qed.

Lemma runs_from_ret {A} e0 (a : A) (Q : outcome A -> list event -> env -> Prop) :
  Q (Returned a) [] e0 -> runs_from e0 (ret a) Q.
Proof. intros H w <-. exists []. simpl. rewrite app_nil_r. auto. Qed.

Lemma runs_from_raise {A} e0 b (Q : outcome A -> list event -> env -> Prop) :
  Q (Raised b) [] e0 -> runs_from e0 (raise b) Q.
Proof. intros H w <-. exists []. simpl. rewrite app_nil_r. auto. Qed.

Lemma runs_from_print e0 line (Q : outcome unit -> list event -> env -> Prop) :
  Q (Returned tt) [EvPrint line] e0 -> runs_from e0 (print line) Q.
Proof. intros H w <-. exists [EvPrint line]. simpl. auto. Qed.

Lemma runs_from_call {A} e0 (f : env -> result A * env) ev
    (Q : outcome A -> list event -> env -> Prop) :
  Q (lift (fst (f e0))) [ev (fst (f e0))] (snd (f e0)) ->
  runs_from e0 (call f ev) Q.
Proof.
  intros H w <-. unfold call. destruct (f (w_env w)) as [r e']. simpl in H.
  exists [ev r]. destruct r; simpl; auto.
Qed.

Lemma runs_from_query {A} e0 (f : env -> result A)
    (Q : outcome A -> list event -> env -> Prop) :
  Q (lift (f e0)) [] e0 -> runs_from e0 (query f) Q.
Proof.
  intros H w <-. unfold query. exists [].
  destruct (f (w_env w)); simpl in *; rewrite app_nil_r; auto.
Qed.

Lemma runs_from_bind {A B} e0 (m : M A) (k : A -> M B)
    (Q1 : outcome A -> list event -> env -> Prop)
    (Q : outcome B -> list event -> env -> Prop) :
  runs_from e0 m Q1 ->
  (forall a evs1 e1, Q1 (Returned a) evs1 e1 ->
     runs_from e1 (k a) (fun r evs2 e2 => Q r (evs1 ++ evs2)%list e2)) ->
  (forall b evs1 e1, Q1 (Raised b) evs1 e1 -> Q (Raised b) evs1 e1) ->
  (forall evs1 e1, Q1 OutOfFuel evs1 e1 -> Q OutOfFuel evs1 e1) ->
  runs_from e0 (bind m k) Q.
Proof.
  intros Hm Hk Hr Hf w Hw. unfold bind.
  destruct (Hm w Hw) as (evs1 & Ht & H1).
  destruct (m w) as [[a | b |] w1]; simpl in *.
  - destruct (Hk a evs1 _ H1 w1 eq_refl) as (evs2 & Ht2 & H2).
    exists (evs1 ++ evs2)%list. rewrite Ht2, Ht, app_assoc. auto.
  - exists evs1. auto.
  - exists evs1. auto.
Qed.

Lemma runs_from_try {A} e0 (body : M A) (cs : list (clause A))
    (Q1 Q : outcome A -> list event -> env -> Prop) :
  runs_from e0 body Q1 ->
  (forall a evs1 e1, Q1 (Returned a) evs1 e1 -> Q (Returned a) evs1 e1) ->
  (forall b evs1 e1, Q1 (Raised b) evs1 e1 ->
     match first_match cs b with
     | Some h => runs_from e1 h (fun r evs2 e2 => Q r (evs1 ++ evs2)%list e2)
     | None => Q (Raised b) evs1 e1
     end) ->
  (forall evs1 e1, Q1 OutOfFuel evs1 e1 -> Q OutOfFuel evs1 e1) ->
  runs_from e0 (try_ body cs) Q.
Proof.
  intros Hb Hret Hexc Hf w Hw. unfold try_.
  destruct (Hb w Hw) as (evs1 & Ht & H1).
  destruct (body w) as [[a | b |] w1]; simpl in *.
  - exists evs1. auto.
  - specialize (Hexc b evs1 _ H1). destruct (first_match cs b) as [h |].
    + destruct (Hexc w1 eq_refl) as (evs2 & Ht2 & H2).
      exists (evs1 ++ evs2)%list. rewrite Ht2, Ht, app_assoc. auto.
    + exists evs1. auto.
  - exists evs1. auto.
Qed.

Lemma runs_from_for_print {A} e0 (l : list A) (line : A -> string) :
  runs_from e0 (for_ l (fun x => print (line x)))
    (fun r evs e1 =>
       r = Returned tt /\ evs = map (fun x => EvPrint (line x)) l /\ e1 = e0).
Proof.
  induction l as [| x l IH]; simpl.
  - apply runs_from_ret. auto.
  - eapply runs_from_bind with
      (Q1 := fun r evs e1 => r = Returned tt /\ evs = [EvPrint (line x)] /\ e1 = e0).
    + apply runs_from_print. auto.
    + intros [] evs1 e1 (_ & -> & ->). eapply runs_from_conseq; [exact IH |].
      simpl. intros r evs e1 (-> & -> & ->). auto.
    + intros b evs1 e1 (H & _). discriminate.
    + intros evs1 e1 (H & _). discriminate.
Qed.

(** ** The functions and their run relations *)

Lemma mapM_DeleteSMS_run machine locations :
  traced (mapM (fun location => DeleteSMS machine 0 location) locations)
    (fun r evs => exists failure,
       delete_run machine locations failure evs /\
       match failure with
       | None => exists done, r = Returned done
       | Some e => r = Raised (Exc e)
       end).
Proof.
  induction locations as [| location rest IH]; simpl.
  - apply traced_ret. exists None. split; [constructor | eauto].
  - eapply traced_bind.
    + apply traced_call with
        (Q := fun r evs => exists res,
                evs = [EvDeleteSMS machine 0 location res] /\ r = lift res).
      eauto.
    + intros [] evs1 (res & -> & Hres). destruct res as [[] | e]; [| discriminate].
      eapply traced_bind; [exact IH | | |].
      * intros done evs2 (failure & Hrun & Hr). apply traced_ret.
        exists failure. split.
        -- simpl. rewrite app_nil_r. constructor. exact Hrun.
        -- destruct failure; [discriminate Hr || (destruct Hr; discriminate) | eauto].
      * intros b evs2 (failure & Hrun & Hr). exists failure. split.
        -- simpl. constructor. exact Hrun.
        -- destruct failure; [exact Hr | destruct Hr; discriminate].
      * intros evs2 (failure & Hrun & Hr).
        destruct failure; [discriminate | destruct Hr; discriminate].
    + intros b evs1 (res & -> & Hres). destruct res as [[] | e]; [discriminate |].
      injection Hres as ->. exists (Some e). split; [constructor | reflexivity].
    + intros evs1 (res & -> & Hres). destruct res; discriminate.
Qed.

Lemma deleteSms_run machine sms :
  traced (deleteSms machine sms)
    (fun r evs => r = Returned tt /\
       exists failure attempts,
         delete_run machine (sms_Locations sms) failure attempts /\
         evs = (attempts ++ delete_report failure)%list).
Proof.
  unfold deleteSms. eapply traced_try.
  - eapply traced_bind; [apply mapM_DeleteSMS_run | | |].
    + intros done evs1 H. apply traced_ret. rewrite app_nil_r.
      instantiate (1 := fun r evs => exists failure,
        delete_run machine (sms_Locations sms) failure evs /\
        match failure with
        | None => r = Returned tt
        | Some e => r = Raised (Exc e)
        end).
      destruct H as (failure & Hrun & Hr). exists failure. split; auto.
      destruct failure; [discriminate | reflexivity].
    + intros b evs1 (failure & Hrun & Hr). exists failure. split; auto.
      destruct failure; [injection Hr as ->; reflexivity | destruct Hr; discriminate].
    + intros evs1 (failure & Hrun & Hr).
      destruct failure; [discriminate | destruct Hr; discriminate].
  - intros [] evs1 (failure & Hrun & Hr). split; auto.
    destruct failure; [discriminate |]. exists None, evs1.
    simpl. rewrite app_nil_r. auto.
  - intros b evs1 (failure & Hrun & Hr).
    destruct failure as [e |]; [| discriminate]. injection Hr as ->. simpl.
    apply traced_print. split; auto. exists (Some e), evs1. auto.
  - intros evs1 (failure & Hrun & Hr). destruct failure; discriminate.
Qed.

Lemma item0_run {A} (l : list A) :
  traced (item0 l)
    (fun r evs => evs = [] /\
       match l with
       | x :: _ => r = Returned x
       | [] => r = Raised (Exc (mkExc IndexError "list index out of range"))
       end).
Proof.
  destruct l; simpl; [apply traced_raise | apply traced_ret]; auto.
Qed.

Lemma ret_run {A} (a : A) :
  traced (ret a) (fun r evs => r = Returned a /\ evs = []).
Proof. apply traced_ret. auto. Qed.

Lemma raise_run {A} b :
  traced (@raise A b) (fun r evs => r = Raised b /\ evs = []).
Proof. apply traced_raise. auto. Qed.

Lemma print_run line :
  traced (print line) (fun r evs => r = Returned tt /\ evs = [EvPrint line]).
Proof. apply traced_print. auto. Qed.

Lemma fetch_step_traced machine st :
  traced (fetch_step machine st)
    (fun r evs => exists res,
       fetch_step_run machine (start st) (currentMultiPartSms st) res evs /\
       match res with
       | Ok current =>
           r = Returned {| allMultiPartSms := (allMultiPartSms st ++ [current])%list;
                           start := false;
                           currentMultiPartSms := Some current |}
       | Err e => r = Raised (Exc e)
       end).
Proof.
  unfold fetch_step.
  eapply traced_bind with
    (Q1 := fun r evs => exists res,
             fetch_step_run machine (start st) (currentMultiPartSms st) res evs /\
             r = lift res).
  - destruct (start st).
    + apply traced_call. intros r. exists r. split; [constructor | reflexivity].
    + destruct (currentMultiPartSms st) as [[| first others] |]; simpl.
      * eapply traced_bind; [apply ret_run | | |].
        -- intros a evs1 [Ha ->]. injection Ha as ->.
           eapply traced_bind; [apply (item0_run (@nil Fragment)) | | |].
           ++ intros a evs1 [_ Hr]. discriminate.
           ++ intros b evs1 [-> Hr]. injection Hr as ->.
              eexists (Err _). split; [constructor | reflexivity].
           ++ intros evs1 [_ Hr]. discriminate.
        -- intros b evs1 [Hb _]. discriminate.
        -- intros evs1 [Hb _]. discriminate.
      * eapply traced_bind; [apply ret_run | | |].
        -- intros a evs1 [Ha ->]. injection Ha as ->.
           eapply traced_bind; [apply (item0_run (first :: others)) | | |].
           ++ intros a evs1 [-> Hr]. injection Hr as <-.
              apply traced_call. intros r. exists r.
              split; [constructor | reflexivity].
           ++ intros b evs1 [_ Hr]. discriminate.
           ++ intros evs1 [_ Hr]. discriminate.
        -- intros b evs1 [Hb _]. discriminate.
        -- intros evs1 [Hb _]. discriminate.
      * eapply traced_bind; [apply raise_run | | |].
        -- intros a evs1 [Ha _]. discriminate.
        -- intros b evs1 [Hb ->]. injection Hb as ->.
           eexists (Err _). split; [constructor | reflexivity].
        -- intros evs1 [Hb _]. discriminate.
  - intros current evs1 (res & Hstep & Hr). apply traced_ret.
    rewrite app_nil_r. exists res. split; auto.
    destruct res; [injection Hr as <-; reflexivity | discriminate].
  - intros b evs1 (res & Hstep & Hr). exists res. split; auto.
    destruct res; [discriminate | injection Hr as ->; reflexivity].
  - intros evs1 (res & Hstep & Hr). destruct res; discriminate.
Qed.

(** With fuel for the turns left, the loop is a [fetch_run]: it never
    runs out of fuel. *)
Lemma fetch_loop_fuel machine count fuel :
  forall st, (turns_left count st <= fuel)%nat ->
  traced (fetch_loop fuel machine count st)
    (fun r evs => exists responses failure,
       fetch_run machine (start st) (currentMultiPartSms st)
         (turns_left count st) responses failure evs /\
       match failure with
       | None => r = Returned (allMultiPartSms st ++ responses)%list
       | Some e => r = Raised (Exc e)
       end).
Proof.
  induction fuel as [| fuel IH]; intros st Hfuel; simpl;
    destruct (Z.ltb_spec (Z.of_nat (List.length (allMultiPartSms st))) count)
      as [Hlt | Hge].
  - unfold turns_left in Hfuel. lia.
  - apply traced_ret. exists [], None.
    replace (turns_left count st) with 0%nat by (unfold turns_left; lia).
    rewrite app_nil_r. split; [constructor | reflexivity].
  - eapply traced_bind; [apply fetch_step_traced | | |].
    + intros st' evs1 (res & Hstep & Hres).
      destruct res as [current | e]; [| discriminate].
      injection Hres as ->.
      assert (Hturns : turns_left count st =
                S (turns_left count
                     {| allMultiPartSms := (allMultiPartSms st ++ [current])%list;
                        start := false;
                        currentMultiPartSms := Some current |})).
      { unfold turns_left. simpl. rewrite length_app. simpl. lia. }
      eapply traced_conseq; [apply IH; lia |].
      simpl. intros r evs (responses & failure & Hrun & Hr).
      exists (current :: responses), failure. rewrite Hturns. split.
      * econstructor; eassumption.
      * rewrite <- app_assoc in Hr. exact Hr.
    + intros b evs1 (res & Hstep & Hres).
      destruct res as [current | e]; [discriminate |].
      injection Hres as ->. exists [], (Some e).
      assert (Hturns : exists n, turns_left count st = S n).
      { exists (pred (turns_left count st)). unfold turns_left. lia. }
      destruct Hturns as [n ->]. split; [constructor; exact Hstep | reflexivity].
    + intros evs1 (res & Hstep & Hres). destruct res; discriminate.
  - apply traced_ret. exists [], None.
    replace (turns_left count st) with 0%nat by (unfold turns_left; lia).
    rewrite app_nil_r. split; [constructor | reflexivity].
Qed.

Lemma fetch_all_run machine count :
  traced (fetch_all machine count)
    (fun r evs => exists responses failure,
       fetch_run machine true None (Z.to_nat count) responses failure evs /\
       match failure with
       | None => r = Returned responses
       | Some e => r = Raised (Exc e)
       end).
Proof.
  unfold fetch_all. eapply traced_conseq.
  - apply fetch_loop_fuel. unfold turns_left. simpl. lia.
  - simpl. intros r evs (responses & failure & Hrun & Hr).
    exists responses, failure. split; [| exact Hr].
    unfold turns_left in Hrun. simpl in Hrun.
    replace (count - 0) with count in Hrun by lia. exact Hrun.
Qed.

Lemma make_result_run sms :
  traced (make_result sms)
    (fun r evs =>
       match sms with
       | [] => evs = [] /\
               r = Raised (Exc (mkExc IndexError "list index out of range"))
       | smsPart :: _ =>
           evs = [EvDecodeSMS sms (gammu_DecodeSMS gammu sms)] /\
           match gammu_DecodeSMS gammu sms with
           | Ok decodedSms => r = Returned (result_of smsPart sms decodedSms)
           | Err e => r = Raised (Exc e)
           end
       end).
Proof.
  unfold make_result. eapply traced_bind; [apply item0_run | | |].
  - intros smsPart evs1 [-> Hr]. destruct sms as [| first others]; [discriminate |].
    injection Hr as ->. unfold DecodeSMS.
    eapply traced_bind.
    + apply traced_pure_call with
        (Q := fun r evs =>
                evs = [EvDecodeSMS (first :: others)
                         (gammu_DecodeSMS gammu (first :: others))] /\
                r = lift (gammu_DecodeSMS gammu (first :: others))).
      auto.
    + intros decodedSms evs1 [-> Hr]. apply traced_ret. split; [reflexivity |].
      destruct (gammu_DecodeSMS gammu (first :: others)); [| discriminate].
      injection Hr as ->. reflexivity.
    + intros b evs1 [-> Hr]. split; [reflexivity |].
      destruct (gammu_DecodeSMS gammu (first :: others)); [discriminate |].
      injection Hr as ->. reflexivity.
    + intros evs1 [_ Hr].
      destruct (gammu_DecodeSMS gammu (first :: others)); discriminate.
  - intros b evs1 [-> Hr]. destruct sms; [| discriminate].
    injection Hr as ->. auto.
  - intros evs1 [_ Hr]. destruct sms; discriminate.
Qed.

Lemma collect_results_run groups :
  forall results0,
  traced (collect_results groups results0)
    (fun r evs => exists results failure,
       collect_run groups results failure evs /\
       match failure with
       | None => r = Returned (results0 ++ results)%list
       | Some e => r = Raised (Exc e)
       end).
Proof.
  induction groups as [| sms groups IH]; intros results0; simpl.
  - apply traced_ret. exists [], None. rewrite app_nil_r.
    split; [constructor | reflexivity].
  - eapply traced_bind; [apply make_result_run | | |].
    + intros result evs1 H. destruct sms as [| smsPart others].
      { destruct H as [_ H]. discriminate. }
      destruct H as [-> Hr].
      destruct (gammu_DecodeSMS gammu (smsPart :: others)) as [decodedSms | e] eqn:Hd;
        [| discriminate].
      injection Hr as ->.
      eapply traced_conseq; [apply IH |].
      simpl. intros r evs (results & failure & Hrun & Hr).
      exists (result_of smsPart (smsPart :: others) decodedSms :: results), failure.
      split; [constructor; assumption |].
      destruct failure; [exact Hr | rewrite <- app_assoc in Hr; exact Hr].
    + intros b evs1 H. destruct sms as [| smsPart others].
      * destruct H as [-> Hr]. injection Hr as ->.
        exists [], (Some (mkExc IndexError "list index out of range")).
        split; [constructor | reflexivity].
      * destruct H as [-> Hr].
        destruct (gammu_DecodeSMS gammu (smsPart :: others)) as [decodedSms | e] eqn:Hd;
          [discriminate |].
        injection Hr as ->. exists [], (Some e).
        split; [constructor; assumption | reflexivity].
    + intros evs1 H. destruct sms as [| smsPart others].
      * destruct H as [_ H]. discriminate.
      * destruct H as [_ H].
        destruct (gammu_DecodeSMS gammu (smsPart :: others)); discriminate.
Qed.

Lemma retrieveAllSms_run machine :
  traced (retrieveAllSms machine) (retrieval_run machine).
Proof.
  unfold retrieveAllSms.
  eapply traced_try with
    (Q1 := fun r evs =>
       match r with
       | Returned results => retrieval_run machine (Returned results) evs
       | Raised b => exists e, b = Exc e /\
           retrieval_run machine (Raised b) (evs ++ [retrieval_report e])%list
       | OutOfFuel => False
       end).
  - eapply traced_bind.
    + unfold GetSMSStatus. apply traced_call with
        (Q := fun r evs => exists res,
                evs = [EvGetSMSStatus machine res] /\ r = lift res).
      eauto.
    + intros status evs1 (res & -> & Hres).
      destruct res as [status' | e]; [| discriminate]. injection Hres as ->.
      eapply traced_bind; [apply fetch_all_run | | |].
      * intros responses0 evs2 (responses & failure & Hfetch & Hr).
        destruct failure; [discriminate |]. injection Hr as ->.
        unfold LinkSMS. eapply traced_bind.
        -- apply traced_pure_call with
             (Q := fun r evs =>
                     evs = [EvLinkSMS responses (gammu_LinkSMS gammu responses)] /\
                     r = lift (gammu_LinkSMS gammu responses)).
           auto.
        -- intros groups evs3 [-> Hr].
           destruct (gammu_LinkSMS gammu responses) as [groups' | e] eqn:Hlink;
             [| discriminate].
           injection Hr as ->.
           eapply traced_conseq; [apply collect_results_run |].
           simpl. intros r evs (results & failure & Hrun & Hr).
           destruct failure as [e |]; subst r.
           ++ exists e. split; [reflexivity |].
              rewrite <- app_assoc. simpl.
              eapply retrieval_collect_failed; eassumption.
           ++ eapply retrieval_returned; eassumption.
        -- intros b evs3 [-> Hr].
           destruct (gammu_LinkSMS gammu responses) as [groups' | e] eqn:Hlink;
             [discriminate |].
           injection Hr as ->. exists e. split; [reflexivity |].
           simpl. rewrite <- app_assoc. simpl.
           eapply retrieval_link_failed; eassumption.
        -- intros evs3 [_ Hr]. destruct (gammu_LinkSMS gammu responses); discriminate.
      * intros b evs2 (responses' & failure & Hfetch & Hr).
        destruct failure as [e |]; [| discriminate]. injection Hr as ->.
        exists e. split; [reflexivity |]. simpl.
        eapply retrieval_fetch_failed; eassumption.
      * intros evs2 (responses' & failure & Hfetch & Hr).
        destruct failure; discriminate.
    + intros b evs1 (res & -> & Hres). destruct res as [status | e]; [discriminate |].
      injection Hres as ->. exists e. split; [reflexivity |]. simpl. constructor.
    + intros evs1 (res & -> & Hres). destruct res; discriminate.
  - auto.
  - intros b evs1 (e & -> & Hrun). simpl.
    eapply traced_bind; [apply print_run | | |].
    + intros [] evs2 [_ ->]. apply traced_raise. rewrite app_nil_r. exact Hrun.
    + intros b evs2 [H _]. discriminate.
    + intros evs2 [H _]. discriminate.
  - intros evs1 [].
Qed.

Lemma emits_ret P {A} (a : A) : emits P (ret a).
Proof. apply traced_ret. split; [constructor | discriminate]. Qed.

Lemma emits_raise P {A} b : emits P (@raise A b).
Proof. apply traced_raise. split; [constructor | discriminate]. Qed.

Lemma emits_print (P : event -> Prop) line : P (EvPrint line) -> emits P (print line).
Proof. intros H. apply traced_print. split; [auto | discriminate]. Qed.

Lemma emits_call (P : event -> Prop) {A} (f : env -> result A * env) ev :
  (forall r, P (ev r)) -> emits P (call f ev).
Proof.
  intros H. apply traced_call. intros r. split; [auto |].
  destruct r; discriminate.
Qed.

Lemma emits_query P {A} (f : env -> result A) : emits P (query f).
Proof.
  apply traced_query. intros r. split; [constructor | destruct r; discriminate].
Qed.

Lemma emits_ask P {A} (f : env -> A) : emits P (ask f).
Proof. apply traced_ask. intros a. split; [constructor | discriminate]. Qed.

Lemma emits_bind P {A B} (m : M A) (k : A -> M B) :
  emits P m -> (forall a, emits P (k a)) -> emits P (bind m k).
Proof.
  intros Hm Hk. eapply traced_bind; [exact Hm | | |].
  - intros a evs1 [H1 _]. eapply traced_conseq; [apply Hk |].
    simpl. intros r evs2 [H2 Hr]. split; [apply Forall_app; auto | exact Hr].
  - intros b evs1 [H1 _]. split; [exact H1 | discriminate].
  - intros evs1 [_ H]. congruence.
Qed.

Lemma emits_try P {A} (body : M A) (cs : list (clause A)) :
  emits P body -> Forall (clause_emits P) cs -> emits P (try_ body cs).
Proof.
  intros Hb Hcs. eapply traced_try; [exact Hb | | |].
  - intros a evs1 [H1 _]. split; [exact H1 | discriminate].
  - intros b evs1 [H1 _].
    destruct (first_match cs b) as [h |] eqn:Hh.
    + assert (Hemits : emits P h).
      { clear Hb H1. induction Hcs as [| c cs' Hc _ IH]; simpl in Hh; [discriminate |].
        destruct (c b) as [h' |] eqn:Hcb; [injection Hh as <-; eapply Hc; eauto | auto]. }
      eapply traced_conseq; [exact Hemits |].
      simpl. intros r evs2 [H2 Hr]. split; [apply Forall_app; auto | exact Hr].
    + split; [exact H1 | discriminate].
  - intros evs1 [_ H]. congruence.
Qed.

Lemma emits_except_class P {A} cls (h : Exception -> M A) :
  (forall e, emits P (h e)) -> clause_emits P (except_class cls h).
Proof.
  intros H [e | status] h' Hh; simpl in Hh; [| discriminate].
  destruct (ExcClass_eqb (exc_class e) cls); [| discriminate].
  injection Hh as <-. apply H.
Qed.

Lemma emits_except_Exception P {A} (h : Exception -> M A) :
  (forall e, emits P (h e)) -> clause_emits P (except_Exception h).
Proof.
  intros H [e | status] h' Hh; simpl in Hh; [| discriminate].
  injection Hh as <-. apply H.
Qed.

Lemma emits_for_print P {A} (l : list A) (line : A -> string) :
  (forall line, P (EvPrint line)) ->
  emits P (for_ l (fun x => print (line x))).
Proof.
  intros HP. induction l; simpl.
  - apply emits_ret.
  - apply emits_bind; [apply emits_print; auto | auto].
Qed.

Lemma describe_device_permissions_emits device_path :
  emits is_print (_describe_device_permissions device_path).
Proof.
  unfold _describe_device_permissions.
  apply emits_bind.
  - apply emits_try.
    + apply emits_bind; [apply emits_query | intros; apply emits_ret].
    + repeat constructor.
      * apply emits_except_class. intros; apply emits_ret.
      * apply emits_except_Exception. intros; apply emits_ret.
  - intros [info | message]; [| apply emits_ret].
    apply emits_bind.
    { apply emits_try; [apply emits_query |].
      repeat constructor. apply emits_except_class. intros; apply emits_ret. }
    intros owner. apply emits_bind.
    { apply emits_try; [apply emits_query |].
      repeat constructor. apply emits_except_class. intros; apply emits_ret. }
    intros group. apply emits_ret.
Qed.

Lemma log_device_diagnostics_emits device_path :
  emits is_print (log_device_diagnostics device_path).
Proof.
  unfold log_device_diagnostics.
  apply emits_bind; [apply emits_print; exact I | intros _].
  apply emits_bind; [apply emits_print; exact I | intros _].
  apply emits_bind; [apply emits_ask | intros islink].
  apply emits_bind.
  { destruct islink; [| apply emits_ret].
    apply emits_bind; [apply emits_ask | intros; apply emits_print; exact I]. }
  intros _.
  apply emits_bind; [apply describe_device_permissions_emits | intros description].
  apply emits_bind; [apply emits_print; exact I | intros _].
  apply emits_bind.
  { apply emits_try.
    - apply emits_bind; [apply emits_query | intros; apply emits_print; exact I].
    - repeat constructor.
      + apply emits_except_class. intros; apply emits_print; exact I.
      + apply emits_except_class. intros; apply emits_print; exact I.
      + apply emits_except_Exception. intros; apply emits_print; exact I. }
  intros _. apply emits_try.
  - apply emits_bind; [apply emits_query | intros found].
    apply emits_bind; [apply emits_print; exact I | intros _].
    apply emits_for_print. intros; exact I.
  - repeat constructor.
    apply emits_except_Exception. intros; apply emits_print; exact I.
Qed.

Lemma ExcClass_eqb_eq a b : ExcClass_eqb a b = true <-> a = b.
Proof. destruct a, b; simpl; split; congruence. Qed.

Lemma call_run {A} (f : env -> result A * env) ev :
  traced (call f ev) (fun r evs => exists res, evs = [ev res] /\ r = lift res).
Proof. apply traced_call. eauto. Qed.

Lemma for_print_run {A} (l : list A) (line : A -> string) :
  traced (for_ l (fun x => print (line x)))
    (fun r evs => r = Returned tt /\ evs = map (fun x => EvPrint (line x)) l).
Proof.
  induction l; simpl.
  - apply ret_run.
  - eapply traced_bind; [apply print_run | | |].
    + intros [] evs1 [_ ->]. eapply traced_conseq; [exact IHl |].
      simpl. intros r evs [-> ->]. auto.
    + intros b evs1 [H _]. discriminate.
    + intros evs1 [H _]. discriminate.
Qed.

Lemma check_security_run sm pin :
  traced (check_security sm pin) (security_run sm pin).
Proof.
  unfold check_security.
  eapply traced_try with
    (Q1 := fun r evs =>
       match r with
       | Raised (Exc e) => security_run sm pin (Returned tt) (evs ++ [security_warning e])
       | OutOfFuel => False
       | _ => security_run sm pin r evs
       end).
  - eapply traced_bind; [apply call_run | | |].
    + intros security_status evs1 (res & -> & Hres).
      destruct res as [status |]; [| discriminate]. injection Hres as ->.
      eapply traced_bind; [apply print_run | | |].
      * intros [] evs2 [_ ->].
        destruct (eq_str status "PIN") eqn:Hpin.
        -- destruct pin as [p |].
           ++ destruct (String.eqb p "") eqn:Hp.
              ** eapply traced_bind; [apply print_run | | |].
                 --- intros [] evs3 [_ ->]. apply traced_raise. simpl.
                     constructor; [assumption | simpl; assumption].
                 --- intros b evs3 [H _]. discriminate.
                 --- intros evs3 [H _]. discriminate.
              ** eapply traced_bind; [apply call_run | | |].
                 --- intros [] evs3 (res & -> & Hres).
                     destruct res as [[] |]; [| discriminate].
                     apply traced_print. simpl.
                     eapply security_pin_entered; eauto.
                 --- intros b evs3 (res & -> & Hres).
                     destruct res as [| e]; [discriminate |]. injection Hres as ->.
                     simpl. eapply security_pin_refused; eauto.
                 --- intros evs3 (res & -> & Hres). destruct res; discriminate.
           ++ eapply traced_bind; [apply print_run | | |].
              ** intros [] evs3 [_ ->]. apply traced_raise. simpl.
                 constructor; [assumption | reflexivity].
              ** intros b evs3 [H _]. discriminate.
              ** intros evs3 [H _]. discriminate.
        -- apply traced_ret. simpl. constructor. assumption.
      * intros b evs2 [H _]. discriminate.
      * intros evs2 [H _]. discriminate.
    + intros b evs1 (res & -> & Hres).
      destruct res as [| e]; [discriminate |]. injection Hres as ->.
      simpl. constructor.
    + intros evs1 (res & -> & Hres). destruct res; discriminate.
  - auto.
  - intros [e | status] evs1 H; simpl.
    + apply traced_print. exact H.
    + exact H.
  - intros evs1 [].
Qed.

(** The second clause of the listing's [try] never handles anything:
    the bare [except:] before it matches every exception. *)
Lemma listing_handler_dead b :
  first_match listing_handlers b = Some (ret tt).
Proof. reflexivity. Qed.

Lemma listing_run :
  traced
    (try_
       (names <- query (os_listdir os "/dev/") ;;
        let devices := filter (fun d => prefix "tty" d) names in
        for_ (sorted devices) (fun device => print ("  /dev/" ++ device)))
       listing_handlers)
    (fun r evs => r = Returned tt /\ exists names, evs = listing names).
Proof.
  eapply traced_try with
    (Q1 := fun r evs => r <> OutOfFuel /\
             exists names, evs = listing names /\
               (forall a, r = Returned a -> exists l, names = Ok l) /\
               (forall b, r = Raised b -> evs = [])).
  - eapply traced_bind.
    + apply traced_query with
        (Q := fun r evs => evs = [] /\ exists res, r = lift res). eauto.
    + intros names evs1 [-> _]. eapply traced_conseq; [apply for_print_run |].
      simpl. intros r evs [-> ->]. split; [discriminate |].
      exists (Ok names). split; [reflexivity |]. split; [eauto | discriminate].
    + intros b evs1 [-> (res & Hres)]. split; [discriminate |].
      destruct res as [| e]; [discriminate |].
      exists (Err e). split; [reflexivity |]. split; [discriminate | reflexivity].
    + intros evs1 [_ (res & Hres)]. destruct res; discriminate.
  - intros [] evs1 [_ (names & -> & _)]. eauto.
  - intros b evs1 [_ (names & -> & _ & Hb)]. rewrite listing_handler_dead.
    apply traced_ret. rewrite app_nil_r. eauto.
  - intros evs1 [H _]. congruence.
Qed.

Lemma connect_traced sm pin device_path :
  traced (connect sm pin device_path) (connect_run sm pin device_path).
Proof.
  unfold connect.
  eapply traced_try with
    (Q1 := fun r evs =>
       (exists e, r = Raised (Exc e) /\ evs = [EvInit sm (Err e)]) \/
       ((forall e, r <> Raised (Exc e)) /\ connect_run sm pin device_path r evs)).
  - eapply traced_bind; [apply (call_run (gammu_Init gammu sm)) | | |].
    + intros [] evs1 (res & -> & Hres). destruct res as [[] |]; [| discriminate].
      eapply traced_bind; [apply print_run | | |].
      * intros [] evs2 [_ ->]. eapply traced_conseq; [apply check_security_run |].
        simpl. intros r evs Hrun. right. split.
        -- intros e ->. inversion Hrun.
        -- constructor. exact Hrun.
      * intros b evs2 [H _]. discriminate.
      * intros evs2 [H _]. discriminate.
    + intros b evs1 (res & -> & Hres). destruct res as [| e]; [discriminate |].
      injection Hres as ->. left. eauto.
    + intros evs1 (res & -> & Hres). destruct res; discriminate.
  - intros [] evs1 [(e & H & _) | [_ H]]; [discriminate | exact H].
  - intros b evs1 [(e & Hb & ->) | [Hne H]].
    + injection Hb as ->. simpl.
      destruct (ExcClass_eqb (exc_class e) ERR_NOSIM) eqn:Hcls.
      * apply traced_print. simpl. constructor. apply ExcClass_eqb_eq. exact Hcls.
      * eapply traced_bind; [apply print_run | | |].
        -- intros [] evs2 [_ ->].
           eapply traced_bind; [apply print_run | | |].
           ++ intros [] evs3 [_ ->].
              eapply traced_bind; [apply listing_run | | |].
              ** intros [] evs4 [_ (names & ->)]. apply traced_raise.
                 simpl. rewrite app_nil_r. constructor.
                 intros Hc. apply ExcClass_eqb_eq in Hc. congruence.
              ** intros b evs4 [H _]. discriminate.
              ** intros evs4 [H _]. discriminate.
           ++ intros b evs3 [H _]. discriminate.
           ++ intros evs3 [H _]. discriminate.
        -- intros b evs2 [H _]. discriminate.
        -- intros evs2 [H _]. discriminate.
    + destruct b as [e | status]; [exfalso; eapply Hne; reflexivity |].
      simpl. exact H.
  - intros evs1 [(e & H & _) | [_ H]]; [discriminate | exact H].
Qed.

(** The listing shows what [os.listdir] returns in the environment
    from which it runs, and leaves the environment as it is. *)
Lemma listing_from e0 :
  runs_from e0
    (try_
       (names <- query (os_listdir os "/dev/") ;;
        let devices := filter (fun d => prefix "tty" d) names in
        for_ (sorted devices) (fun device => print ("  /dev/" ++ device)))
       listing_handlers)
    (fun r evs e1 =>
       r = Returned tt /\ evs = listing (os_listdir os "/dev/" e0) /\ e1 = e0).
Proof.
  eapply runs_from_try with
    (Q1 := fun r evs e1 =>
       evs = listing (os_listdir os "/dev/" e0) /\ e1 = e0 /\ r <> OutOfFuel).
  - eapply runs_from_bind with
      (Q1 := fun r evs e1 =>
         r = lift (os_listdir os "/dev/" e0) /\ evs = [] /\ e1 = e0).
    + apply runs_from_query. auto.
    + intros names evs1 e1 (Hr & -> & ->).
      eapply runs_from_conseq; [apply runs_from_for_print |].
      simpl. intros r evs e1 (-> & -> & ->).
      destruct (os_listdir os "/dev/" e0); [| discriminate].
      injection Hr as ->. repeat split. discriminate.
    + intros b evs1 e1 (Hr & -> & ->).
      destruct (os_listdir os "/dev/" e0); [discriminate |].
      repeat split. discriminate.
    + intros evs1 e1 (Hr & _). destruct (os_listdir os "/dev/" e0); discriminate.
  - intros [] evs1 e1 (-> & -> & _). auto.
  - intros b evs1 e1 (-> & -> & _). rewrite listing_handler_dead.
    apply runs_from_ret. rewrite app_nil_r. auto.
  - intros evs1 e1 (_ & _ & H). congruence.
Qed.

(** When the outer [try] raises an [Exception], it is the error of
    [Init], and the lines after the heading are the listing of
    [/dev/] in the environment that the failed [Init] left. *)
Lemma connect_from sm pin device_path e0 :
  runs_from e0 (connect sm pin device_path)
    (fun r evs e1 =>
       forall x, r = Raised (Exc x) ->
         evs = EvInit sm (Err x) ::
               EvPrint ("Error initializing device: " ++ exc_str x) ::
               EvPrint "Available devices:" :: listing (os_listdir os "/dev/" e1)).
Proof.
  unfold connect.
  eapply runs_from_try with
    (Q1 := fun r evs e1 =>
       (exists x, r = Raised (Exc x) /\ evs = [EvInit sm (Err x)]) \/
       (forall x, r <> Raised (Exc x))).
  - eapply runs_from_bind with
      (Q1 := fun r evs e1 => exists res, r = lift res /\ evs = [EvInit sm res]).
    + apply runs_from_call. eauto.
    + intros [] evs1 e1 _.
      apply runs_from_traced with
        (Q := fun r evs2 => (exists x, r = Raised (Exc x) /\
                               (evs1 ++ evs2)%list = [EvInit sm (Err x)]) \/
                            (forall x, r <> Raised (Exc x))).
      eapply traced_bind; [apply print_run | | |].
      * intros [] evs2 [_ ->]. eapply traced_conseq; [apply check_security_run |].
        simpl. intros r evs Hrun. right. intros x ->. inversion Hrun.
      * intros b evs2 [H _]. discriminate.
      * intros evs2 [H _]. discriminate.
    + intros b evs1 e1 (res & Hres & ->). destruct res as [| x]; [discriminate |].
      injection Hres as ->. left. eauto.
    + intros evs1 e1 (res & Hres & _). destruct res; discriminate.
  - intros a evs1 e1 _ x Hx. discriminate.
  - intros b evs1 e1 [(x & Hb & ->) | Hne].
    + injection Hb as ->. simpl. destruct (ExcClass_eqb (exc_class x) ERR_NOSIM).
      * apply runs_from_print. intros x' Hx'. discriminate.
      * eapply runs_from_bind with
          (Q1 := fun r evs e2 => r = Returned tt /\ e2 = e1 /\
                   evs = [EvPrint ("Error initializing device: " ++ exc_str x)]).
        -- apply runs_from_print. auto.
        -- intros [] evs2 e2 (_ & -> & ->).
           eapply runs_from_bind with
             (Q1 := fun r evs e2 => r = Returned tt /\ e2 = e1 /\
                      evs = [EvPrint "Available devices:"]).
           ++ apply runs_from_print. auto.
           ++ intros [] evs3 e3 (_ & -> & ->).
              eapply runs_from_bind; [apply listing_from | | |].
              ** intros [] evs4 e4 (_ & -> & ->). apply runs_from_raise.
                 intros x' Hx'. injection Hx' as <-. simpl.
                 rewrite app_nil_r. reflexivity.
              ** intros b evs4 e4 (H & _). discriminate.
              ** intros evs4 e4 (H & _). discriminate.
           ++ intros b evs3 e3 (H & _). discriminate.
           ++ intros evs3 e3 (H & _). discriminate.
        -- intros b evs2 e2 (H & _). discriminate.
        -- intros evs2 e2 (H & _). discriminate.
    + destruct b as [x | status]; [exfalso; eapply Hne; reflexivity |].
      simpl. intros x Hx. discriminate.
  - intros evs1 e1 _ x Hx. discriminate.
Qed.

Lemma new_StateMachine_run :
  traced new_StateMachine
    (fun r evs => exists sm, r = Returned sm /\ evs = [EvStateMachine sm]).
Proof. intros w. exists [EvStateMachine (w_objects w)]. simpl. eauto. Qed.

Lemma init_state_machine_run pin device_path :
  traced (init_state_machine pin device_path) (init_run pin device_path).
Proof.
  unfold init_state_machine.
  eapply traced_bind; [apply new_StateMachine_run | | |].
  - intros sm evs0 (sm' & Hsm & ->). injection Hsm as <-.
    eapply traced_bind; [apply call_run | | |].
    + intros [] evs1 (res & -> & Hres). destruct res as [[] |]; [| discriminate].
      eapply traced_bind; [apply print_run | | |].
      * intros [] evs2 [_ ->].
        eapply traced_bind; [apply print_run | | |].
        -- intros [] evs3 [_ ->].
           eapply traced_bind; [apply print_run | | |].
           ++ intros [] evs4 [_ ->].
              eapply traced_bind; [apply log_device_diagnostics_emits | | |].
              ** intros [] evs5 [Hprints _].
                 eapply traced_bind; [apply call_run | | |].
                 --- intros [] evs6 (res & -> & Hread).
                     destruct res as [[] |]; [| discriminate].
                     eapply traced_bind; [apply connect_traced | | |].
                     +++ intros [] evs7 Hrun. apply traced_ret. simpl.
                         rewrite app_nil_r.
                         apply (init_reached pin device_path sm
                                  (EvPrint _ :: EvPrint _ :: EvPrint _ :: evs5)
                                  (Returned tt) evs7); [| exact Hrun].
                         repeat (constructor; [exact I |]). exact Hprints.
                     +++ intros b evs7 Hrun. simpl.
                         apply (init_reached pin device_path sm
                                  (EvPrint _ :: EvPrint _ :: EvPrint _ :: evs5)
                                  (Raised b) evs7); [| exact Hrun].
                         repeat (constructor; [exact I |]). exact Hprints.
                     +++ intros evs7 Hrun. simpl.
                         apply (init_reached pin device_path sm
                                  (EvPrint _ :: EvPrint _ :: EvPrint _ :: evs5)
                                  OutOfFuel evs7); [| exact Hrun].
                         repeat (constructor; [exact I |]). exact Hprints.
                 --- intros b evs6 (res & -> & Hread). simpl. constructor.
                     repeat (constructor; [exact I |]).
                     apply Forall_app. split; [| repeat constructor].
                     eapply Forall_impl; [| exact Hprints].
                     intros [] H; simpl in *; auto.
                 --- intros evs6 (res & -> & Hread). destruct res; discriminate.
              ** intros b evs5 [Hprints _]. simpl. constructor.
                 repeat (constructor; [exact I |]).
                 eapply Forall_impl; [| exact Hprints].
                 intros [] H; simpl in *; auto.
              ** intros evs5 [_ H]. congruence.
           ++ intros b evs4 [H _]. discriminate.
           ++ intros evs4 [H _]. discriminate.
        -- intros b evs3 [H _]. discriminate.
        -- intros evs3 [H _]. discriminate.
      * intros b evs2 [H _]. discriminate.
      * intros evs2 [H _]. discriminate.
    + intros b evs1 (res & -> & Hres). simpl. constructor. repeat constructor.
    + intros evs1 (res & -> & Hres). destruct res; discriminate.
  - intros b evs0 (sm & H & _). discriminate.
  - intros evs0 (sm & H & _). discriminate.
Qed.

(** ** Properties of message retrieval *)

Lemma fetch_step_ok machine start current r evs :
  fetch_step_run machine start current (Ok r) evs ->
  exists start' location, evs = [EvGetNextSMS machine 0 start' location (Ok r)].
Proof. intros H. inversion H; subst; eauto. Qed.

Lemma fetch_run_returned machine start current n responses evs :
  fetch_run machine start current n responses None evs ->
  List.length responses = n /\ fetched evs = responses /\ List.length evs = n.
Proof.
  intros H. remember None as failure eqn:Hf.
  induction H as [| start current n r responses failure evs1 evs Hstep Hrun IH |];
    [auto | | discriminate].
  destruct (IH Hf) as (Hlen & Hfetched & Hevs).
  destruct (fetch_step_ok _ _ _ _ _ Hstep) as (start' & location & ->).
  simpl. rewrite Hlen, Hfetched, Hevs. auto.
Qed.

Lemma fetch_run_is_fetch machine start current n responses failure evs :
  fetch_run machine start current n responses failure evs ->
  filter is_fetch evs = evs.
Proof.
  induction 1 as [| start current n r responses failure evs1 evs Hstep Hrun IH
                  | start current n e evs1 Hstep]; [reflexivity | |].
  - rewrite filter_app, IH. f_equal. inversion Hstep; reflexivity.
  - inversion Hstep; reflexivity.
Qed.

Lemma collect_run_no_fetch groups results failure evs :
  collect_run groups results failure evs -> filter is_fetch evs = [].
Proof. induction 1; simpl; auto. Qed.

Lemma collect_run_results groups results evs :
  collect_run groups results None evs ->
  Forall2 (fun sms result =>
             exists smsPart others decodedSms,
               sms = smsPart :: others /\
               gammu_DecodeSMS gammu sms = Ok decodedSms /\
               result = result_of smsPart sms decodedSms)
          groups results.
Proof.
  intros H. remember None as failure eqn:Hf.
  induction H; try discriminate; constructor; eauto 7.
Qed.

(** What a run that returns looks like. *)
Lemma retrieveAllSms_returned machine w results :
  outcome_of (retrieveAllSms machine) w = Returned results ->
  exists status fetches groups decodes,
    events_of (retrieveAllSms machine) w =
      (EvGetSMSStatus machine (Ok status) :: fetches ++
       EvLinkSMS (fetched fetches) (Ok groups) :: decodes)%list /\
    fetch_run machine true None (Z.to_nat (expected_total status))
      (fetched fetches) None fetches /\
    gammu_LinkSMS gammu (fetched fetches) = Ok groups /\
    collect_run groups results None decodes.
Proof.
  intros Hout. pose proof (traced_run _ _ (retrieveAllSms_run machine) w) as Hrun.
  rewrite Hout in Hrun. inversion Hrun as [| | | | status responses fetches groups results' decodes Hfetch Hlink Hcollect]; subst.
  destruct (fetch_run_returned _ _ _ _ _ _ Hfetch) as (_ & <- & _).
  exists status, fetches, groups, decodes. auto.
Qed.

Lemma fetched_app evs1 evs2 :
  fetched (evs1 ++ evs2) = (fetched evs1 ++ fetched evs2)%list.
Proof. unfold fetched. apply flat_map_app. Qed.

Lemma collect_run_fetched groups results failure evs :
  collect_run groups results failure evs -> fetched evs = [].
Proof. induction 1; simpl; auto. Qed.

Lemma retrieveAllSms_groups machine w results :
  outcome_of (retrieveAllSms machine) w = Returned results ->
  exists groups,
    In (EvLinkSMS (fetched (events_of (retrieveAllSms machine) w)) (Ok groups))
       (events_of (retrieveAllSms machine) w) /\
    Forall2 (fun sms result =>
               exists smsPart others decodedSms,
                 sms = smsPart :: others /\
                 gammu_DecodeSMS gammu sms = Ok decodedSms /\
                 result = result_of smsPart sms decodedSms)
            groups results.
Proof.
  intros Hout.
  destruct (retrieveAllSms_returned _ _ _ Hout)
    as (status & fetches & groups & decodes & Hevs & Hfetch & Hlink & Hcollect).
  exists groups. rewrite Hevs. split.
  - assert (Hf : fetched (EvGetSMSStatus machine (Ok status) :: fetches ++
                   EvLinkSMS (fetched fetches) (Ok groups) :: decodes)
                 = fetched fetches).
    { change (fetched (fetches ++ EvLinkSMS (fetched fetches) (Ok groups) :: decodes)
              = fetched fetches).
      rewrite fetched_app. simpl.
      change (fetched fetches ++ fetched decodes = fetched fetches)%list.
      rewrite (collect_run_fetched _ _ _ _ Hcollect). apply app_nil_r. }
    rewrite Hf. right. apply in_or_app. right. left. reflexivity.
  - apply collect_run_results with (evs := decodes). exact Hcollect.
Qed.

Lemma retrieval_events_fetches machine status fetches post n responses failure :
  fetch_run machine true None n responses failure fetches ->
  filter is_fetch post = [] -> fetched post = [] ->
  filter is_fetch (EvGetSMSStatus machine status :: fetches ++ post) = fetches /\
  fetched (EvGetSMSStatus machine status :: fetches ++ post) = fetched fetches.
Proof.
  intros Hrun Hfilter Hfetched. split.
  - simpl. rewrite filter_app, Hfilter, app_nil_r.
    eapply fetch_run_is_fetch; eassumption.
  - change (fetched (fetches ++ post) = fetched fetches).
    rewrite fetched_app, Hfetched. apply app_nil_r.
Qed.

Lemma length_concat_singletons {A} (l : list (list A)) :
  Forall (fun x => List.length x = 1%nat) l ->
  List.length (List.concat l) = List.length l.
Proof.
  induction 1 as [| x l Hx _ IH]; simpl; [reflexivity |].
  rewrite length_app, Hx, IH. reflexivity.
Qed.

Lemma length_concat_map_map {A B} (f : A -> B) (l : list (list A)) :
  List.length (List.concat (map (map f) l)) = List.length (List.concat l).
Proof.
  induction l as [| x l IH]; simpl; [reflexivity |].
  rewrite !length_app, length_map, IH. reflexivity.
Qed.

Lemma results_locations groups results :
  Forall2 (fun sms result =>
             exists smsPart others decodedSms,
               sms = smsPart :: others /\
               gammu_DecodeSMS gammu sms = Ok decodedSms /\
               result = result_of smsPart sms decodedSms)
          groups results ->
  map sms_Locations results = map (map Location) groups.
Proof.
  induction 1 as [| sms result groups results H _ IH]; simpl; [reflexivity |].
  destruct H as (smsPart & others & decodedSms & _ & _ & ->).
  rewrite IH. reflexivity.
Qed.

(** C1, amended.  A retrieval that returns asked the driver's status
    first and took the sum of its SIM, device and template counts as the
    expected total; the fetch loop stopped exactly when the number of
    fetches, that is of driver responses, reached that total, every
    fetch having succeeded.  When moreover every response holds exactly
    one fragment and linking keeps the number of fragments, the
    fragments of the returned logical messages add up to the expected
    total, or to zero when the driver reports a total below zero. *)
Theorem C1_fetches_reach_expected_total machine w results :
  outcome_of (retrieveAllSms machine) w = Returned results ->
  exists status groups,
    hd_error (events_of (retrieveAllSms machine) w)
      = Some (EvGetSMSStatus machine (Ok status)) /\
    In (EvLinkSMS (fetched (events_of (retrieveAllSms machine) w)) (Ok groups))
       (events_of (retrieveAllSms machine) w) /\
    List.length (filter is_fetch (events_of (retrieveAllSms machine) w))
      = Z.to_nat (SIMUsed status + PhoneUsed status + TemplatesUsed status) /\
    List.length (fetched (events_of (retrieveAllSms machine) w))
      = Z.to_nat (SIMUsed status + PhoneUsed status + TemplatesUsed status) /\
    (Forall (fun response => List.length response = 1%nat)
            (fetched (events_of (retrieveAllSms machine) w)) ->
     List.length (List.concat groups)
       = List.length (List.concat (fetched (events_of (retrieveAllSms machine) w))) ->
     fragment_total results
       = Z.max 0 (SIMUsed status + PhoneUsed status + TemplatesUsed status)).
Proof.
  intros Hout.
  destruct (retrieveAllSms_returned _ _ _ Hout)
    as (status & fetches & groups & decodes & Hevs & Hfetch & Hlink & Hcollect).
  destruct (retrieval_events_fetches machine (Ok status) fetches
              (EvLinkSMS (fetched fetches) (Ok groups) :: decodes) _ _ _ Hfetch)
    as [Hfilter Hfetched].
  { simpl. eapply collect_run_no_fetch; eassumption. }
  { change (fetched decodes = []). eapply collect_run_fetched; eassumption. }
  destruct (fetch_run_returned _ _ _ _ _ _ Hfetch) as (Hlen & _ & Hcount).
  fold (expected_total status).
  exists status, groups. rewrite Hevs, Hfilter, Hfetched.
  split; [reflexivity |].
  split; [right; apply in_or_app; right; left; reflexivity |].
  split; [exact Hcount |].
  split; [exact Hlen |].
  intros Hsingle Hkept. unfold fragment_total.
  rewrite (results_locations groups results)
    by (eapply collect_run_results; eassumption).
  rewrite length_concat_map_map, Hkept, (length_concat_singletons _ Hsingle), Hlen.
  unfold expected_total in *. lia.
Qed.

Lemma fetch_run_follows machine start current n responses failure evs :
  fetch_run machine start current n responses failure evs ->
  start = false -> forall previous, current = Some previous ->
  follows machine (Ok previous) evs.
Proof.
  induction 1 as [| start current n r responses failure evs1 evs Hstep Hrun IH
                  | start current n e evs1 Hstep];
    intros Hstart previous Hcurrent; subst; simpl; auto.
  - inversion Hstep; subst. simpl. exists first, others, (Ok r). eauto.
  - inversion Hstep; subst; simpl; auto.
    exists first, others, (Err e). auto.
Qed.

Lemma fetch_run_protocol machine current n responses failure evs :
  fetch_run machine true current n responses failure evs ->
  fetch_protocol machine evs.
Proof.
  intros H. inversion H as [| start c n' r rs f evs1 evs' Hstep Hrun
                            | start c n' e evs1 Hstep]; subst; simpl; auto.
  - inversion Hstep; subst. simpl. exists (Ok r). split; [reflexivity |].
    eapply fetch_run_follows; eauto.
  - inversion Hstep; subst. simpl. exists (Err e). auto.
Qed.

Lemma fetch_run_fetches machine start current n responses failure evs :
  fetch_run machine start current n responses failure evs ->
  Forall (fun ev => is_fetch ev = true) evs.
Proof.
  induction 1 as [| start current n r responses failure evs1 evs Hstep Hrun IH
                  | start current n e evs1 Hstep].
  - constructor.
  - apply Forall_app. split; [| exact IH].
    inversion Hstep; subst; repeat constructor.
  - inversion Hstep; subst; repeat constructor.
Qed.

Lemma collect_run_decodes groups results failure evs :
  collect_run groups results failure evs ->
  Forall (fun ev => is_fetch ev = false) evs.
Proof. induction 1; repeat constructor; auto. Qed.

(** An event that is a fetch sits among the fetches, not behind
    them. *)
Lemma split_in_fetches (fetches post before after : list event) x :
  Forall (fun ev => is_fetch ev = true) fetches ->
  Forall (fun ev => is_fetch ev = false) post ->
  is_fetch x = true ->
  (fetches ++ post)%list = (before ++ x :: after)%list ->
  exists after', fetches = (before ++ x :: after')%list /\
                 after = (after' ++ post)%list.
Proof.
  intros Hf Hp Hx. revert before.
  induction Hf as [| f fs Hfetch _ IH]; intros before Heq; simpl in Heq.
  - exfalso. subst post. apply Forall_app in Hp. destruct Hp as [_ Hp].
    inversion Hp; congruence.
  - destruct before as [| b before]; simpl in Heq; injection Heq as -> Heq.
    + exists fs. auto.
    + destruct (IH before Heq) as (after' & -> & ->). exists after'. auto.
Qed.

(** The loop with turns to go begins with the fetch from the start. *)
Lemma fetch_run_starts machine current n responses failure evs :
  fetch_run machine true current (S n) responses failure evs ->
  exists r rest, evs = EvGetNextSMS machine 0 true None r :: rest.
Proof.
  intros H. inversion H as [| start c n' r rs f evs1 evs' Hstep Hrun
                            | start c n' e evs1 Hstep]; subst;
    inversion Hstep; subst; simpl; eauto.
Qed.

(** After a fetch that returned fragments, the loop with turns to go
    fetches again, from the location of the first of them. *)
Lemma fetch_run_continues machine start current n responses failure evs :
  fetch_run machine start current n responses failure evs ->
  forall before s l first others after,
    evs = (before ++ EvGetNextSMS machine 0 s l (Ok (first :: others)) :: after)%list ->
    (List.length before + 1 < n)%nat ->
    exists r rest,
      after = EvGetNextSMS machine 0 false (Some (Location first)) r :: rest.
Proof.
  induction 1 as [| start current n r responses failure evs1 evs Hstep Hrun IH
                  | start current n e evs1 Hstep];
    intros before s l first others after Heq Hlen.
  - destruct before; discriminate.
  - destruct (fetch_step_ok _ _ _ _ _ Hstep) as (start' & location & ->).
    destruct before as [| b before]; simpl in Heq.
    + inversion Heq; subst. simpl in Hlen.
      inversion Hrun as [| ? ? n' r' ? ? evs1' evs' Hstep' Hrun' | ? ? n' e' evs1' Hstep'];
        subst; [lia | |]; inversion Hstep'; subst; simpl; eauto.
    + injection Heq as _ Heq. eapply IH; [exact Heq | simpl in Hlen; lia].
  - inversion Hstep; subst;
      destruct before as [| b [| b' before]]; discriminate.
Qed.

(** The events of a retrieval whose status query succeeded: the status,
    the fetches of the loop, and what follows them. *)
Lemma retrieval_run_fetches machine r evs status rest :
  retrieval_run machine r evs ->
  evs = EvGetSMSStatus machine (Ok status) :: rest ->
  exists responses failure fetches post,
    rest = (fetches ++ post)%list /\
    fetch_run machine true None (Z.to_nat (expected_total status))
      responses failure fetches /\
    Forall (fun ev => is_fetch ev = false) post.
Proof.
  intros Hrun Heq.
  inversion Hrun as
    [ e Hr Hevs
    | st responses e fetches Hfetch Hr Hevs
    | st responses e fetches Hfetch Hlink Hr Hevs
    | st responses fetches groups results e decodes Hfetch Hlink Hcollect Hr Hevs
    | st responses fetches groups results decodes Hfetch Hlink Hcollect Hr Hevs ];
    rewrite <- Hevs in Heq; try discriminate Heq;
    injection Heq as Hst <-; subst st; do 3 eexists.
  - exists [retrieval_report e]. split; [reflexivity |]. split; [exact Hfetch |].
    repeat constructor.
  - exists [EvLinkSMS responses (Err e); retrieval_report e].
    split; [reflexivity |]. split; [exact Hfetch |]. repeat constructor.
  - exists (EvLinkSMS responses (Ok groups) :: decodes ++ [retrieval_report e])%list.
    split; [reflexivity |]. split; [exact Hfetch |].
    constructor; [reflexivity |]. apply Forall_app.
    split; [eapply collect_run_decodes; eassumption | repeat constructor].
  - exists (EvLinkSMS responses (Ok groups) :: decodes).
    split; [reflexivity |]. split; [exact Hfetch |].
    constructor; [reflexivity |]. eapply collect_run_decodes; eassumption.
Qed.

(** C5.  In every run of [retrieveAllSms], the fetches it issues, taken
    in order, are: first a fetch from the start ([Start=True],
    [Folder=0], no location), then fetches each of which passes, with
    [Folder=0], the location of the first fragment of the response
    returned by the fetch before it.  And the fetches are issued: when
    the status reports an expected total above zero, the call after
    the status query is the fetch from the start; and after a fetch
    that returned fragments, as long as the fetches made are fewer
    than the expected total, the next call is the fetch that passes
    the location of the first of these fragments. *)
Theorem C5_fetch_continuation machine w :
  fetch_protocol machine
    (filter is_fetch (events_of (retrieveAllSms machine) w)) /\
  (forall status,
     hd_error (events_of (retrieveAllSms machine) w)
       = Some (EvGetSMSStatus machine (Ok status)) ->
     0 < SIMUsed status + PhoneUsed status + TemplatesUsed status ->
     exists r rest,
       events_of (retrieveAllSms machine) w
         = EvGetSMSStatus machine (Ok status) ::
           EvGetNextSMS machine 0 true None r :: rest) /\
  (forall status before s l first others after,
     events_of (retrieveAllSms machine) w
       = (EvGetSMSStatus machine (Ok status) ::
          before ++ EvGetNextSMS machine 0 s l (Ok (first :: others)) :: after)%list ->
     Z.of_nat (List.length before) + 1
       < SIMUsed status + PhoneUsed status + TemplatesUsed status ->
     exists r rest,
       after = EvGetNextSMS machine 0 false (Some (Location first)) r :: rest).
Proof.
  pose proof (traced_run _ _ (retrieveAllSms_run machine) w) as Hrun.
  split; [| split].
  2:{ intros status Hhd Hpos.
      destruct (events_of (retrieveAllSms machine) w) as [| ev rest] eqn:Hevs;
        [discriminate |].
      injection Hhd as ->.
      destruct (retrieval_run_fetches _ _ _ _ _ Hrun eq_refl)
        as (responses & failure & fetches & post & -> & Hfetch & _).
      destruct (Z.to_nat (expected_total status)) as [| n] eqn:Hn;
        [unfold expected_total in Hn; lia |].
      destruct (fetch_run_starts _ _ _ _ _ _ Hfetch) as (r & rest & ->).
      exists r, (rest ++ post)%list. reflexivity. }
  2:{ intros status before s l first others after Hevs Hlen.
      rewrite Hevs in Hrun.
      destruct (retrieval_run_fetches _ _ _ _ _ Hrun eq_refl)
        as (responses & failure & fetches & post & Heq & Hfetch & Hpost).
      destruct (split_in_fetches fetches post before after
                  (EvGetNextSMS machine 0 s l (Ok (first :: others)))
                  (fetch_run_fetches _ _ _ _ _ _ _ Hfetch) Hpost eq_refl
                  (eq_sym Heq)) as (after' & -> & ->).
      destruct (fetch_run_continues _ _ _ _ _ _ _ Hfetch _ _ _ _ _ _ eq_refl)
        as (r & rest & ->); [unfold expected_total; lia |].
      exists r, (rest ++ post)%list. reflexivity. }
  inversion Hrun as
    [ e
    | status responses e fetches Hfetch
    | status responses e fetches Hfetch Hlink
    | status responses fetches groups results e decodes Hfetch Hlink Hcollect
    | status responses fetches groups results decodes Hfetch Hlink Hcollect ];
    try exact I.
  - destruct (retrieval_events_fetches machine (Ok status) fetches
                [retrieval_report e] _ _ _ Hfetch eq_refl eq_refl) as [-> _].
    eapply fetch_run_protocol; eassumption.
  - destruct (retrieval_events_fetches machine (Ok status) fetches
                [EvLinkSMS responses (Err e); retrieval_report e]
                _ _ _ Hfetch eq_refl eq_refl) as [-> _].
    eapply fetch_run_protocol; eassumption.
  - destruct (retrieval_events_fetches machine (Ok status) fetches
                (EvLinkSMS responses (Ok groups) :: decodes ++ [retrieval_report e])
                _ _ _ Hfetch) as [-> _].
    + simpl. rewrite filter_app, (collect_run_no_fetch _ _ _ _ Hcollect). reflexivity.
    + change (fetched (decodes ++ [retrieval_report e]) = []).
      rewrite fetched_app, (collect_run_fetched _ _ _ _ Hcollect). reflexivity.
    + eapply fetch_run_protocol; eassumption.
  - destruct (retrieval_events_fetches machine (Ok status) fetches
                (EvLinkSMS responses (Ok groups) :: decodes)
                _ _ _ Hfetch) as [-> _].
    + simpl. eapply collect_run_no_fetch; eassumption.
    + change (fetched decodes = []). eapply collect_run_fetched; eassumption.
    + eapply fetch_run_protocol; eassumption.
Qed.

Lemma fetch_run_error machine start current n responses failure evs ev e :
  fetch_run machine start current n responses failure evs ->
  In ev evs -> retrieval_error ev = Some e ->
  failure = Some e /\ exists before, evs = (before ++ [ev])%list.
Proof.
  induction 1 as [| start current n r responses failure evs1 evs Hstep Hrun IH
                  | start current n e' evs1 Hstep]; intros Hin Herr.
  - destruct Hin.
  - destruct (fetch_step_ok _ _ _ _ _ Hstep) as (start' & location & ->).
    destruct Hin as [<- | Hin]; [discriminate |].
    destruct (IH Hin Herr) as (-> & before & ->).
    split; [reflexivity |]. eexists (_ :: before). reflexivity.
  - inversion Hstep; subst; simpl in Hin; try contradiction;
      destruct Hin as [<- | []]; injection Herr as ->;
      (split; [reflexivity | exists []; reflexivity]).
Qed.

Lemma collect_run_error groups results failure evs ev e :
  collect_run groups results failure evs ->
  In ev evs -> retrieval_error ev = Some e ->
  failure = Some e /\ exists before, evs = (before ++ [ev])%list.
Proof.
  induction 1 as [| smsPart others decodedSms groups results failure evs Hd Hrun IH
                  | smsPart others groups e' Hd | groups]; intros Hin Herr.
  - destruct Hin.
  - destruct Hin as [<- | Hin]; [discriminate |].
    destruct (IH Hin Herr) as (-> & before & ->).
    split; [reflexivity |]. eexists (_ :: before). reflexivity.
  - destruct Hin as [<- | []]. injection Herr as ->.
    split; [reflexivity | exists []; reflexivity].
  - destruct Hin.
Qed.

(** C8.  In every run of [retrieveAllSms], when a step of the retrieval
    (the status query, a fetch, the linking or a decoding) raises an
    error, the call raises that very error to its caller, so it returns
    no result list, and the failed step is the last thing it asked of
    the driver: only the report of the error follows. *)
Theorem C8_retrieval_errors_propagate machine w ev e :
  In ev (events_of (retrieveAllSms machine) w) ->
  retrieval_error ev = Some e ->
  outcome_of (retrieveAllSms machine) w = Raised (Exc e) /\
  exists before,
    events_of (retrieveAllSms machine) w
      = (before ++ [ev; EvPrint ("Error retrieving SMS: " ++ exc_str e)])%list.
Proof.
  intros Hin Herr.
  pose proof (traced_run _ _ (retrieveAllSms_run machine) w) as Hrun.
  inversion Hrun as
    [ e' Hr Hevs
    | status responses e' fetches Hfetch Hr Hevs
    | status responses e' fetches Hfetch Hlink Hr Hevs
    | status responses fetches groups results e' decodes Hfetch Hlink Hcollect Hr Hevs
    | status responses fetches groups results decodes Hfetch Hlink Hcollect Hr Hevs ];
    rewrite <- Hevs in Hin.
  - destruct Hin as [<- | [<- | []]]; [| discriminate].
    injection Herr as ->. split; [reflexivity | exists []; reflexivity].
  - destruct Hin as [<- | Hin]; [discriminate |].
    apply in_app_or in Hin. destruct Hin as [Hin | [<- | []]]; [| discriminate].
    destruct (fetch_run_error _ _ _ _ _ _ _ _ _ Hfetch Hin Herr) as (Hf & before & ->).
    injection Hf as ->. split; [reflexivity |].
    exists (EvGetSMSStatus machine (Ok status) :: before).
    simpl. rewrite <- app_assoc. reflexivity.
  - destruct Hin as [<- | Hin]; [discriminate |].
    apply in_app_or in Hin. destruct Hin as [Hin | [<- | [<- | []]]];
      [| | discriminate].
    + destruct (fetch_run_error _ _ _ _ _ _ _ _ _ Hfetch Hin Herr) as (Hf & _).
      discriminate.
    + injection Herr as ->. split; [reflexivity |].
      exists (EvGetSMSStatus machine (Ok status) :: fetches). reflexivity.
  - destruct Hin as [<- | Hin]; [discriminate |].
    apply in_app_or in Hin. destruct Hin as [Hin | [<- | Hin]]; [| discriminate |].
    + destruct (fetch_run_error _ _ _ _ _ _ _ _ _ Hfetch Hin Herr) as (Hf & _).
      discriminate.
    + apply in_app_or in Hin. destruct Hin as [Hin | [<- | []]]; [| discriminate].
      destruct (collect_run_error _ _ _ _ _ _ Hcollect Hin Herr) as (Hf & before & ->).
      injection Hf as ->. split; [reflexivity |].
      exists (EvGetSMSStatus machine (Ok status) :: fetches ++
              EvLinkSMS responses (Ok groups) :: before)%list.
      simpl. rewrite <- !app_assoc. reflexivity.
  - destruct Hin as [<- | Hin]; [discriminate |].
    apply in_app_or in Hin. destruct Hin as [Hin | [<- | Hin]]; [| discriminate |].
    + destruct (fetch_run_error _ _ _ _ _ _ _ _ _ Hfetch Hin Herr) as (Hf & _).
      discriminate.
    + destruct (collect_run_error _ _ _ _ _ _ Hcollect Hin Herr) as (Hf & _).
      discriminate.
Qed.

(** ** The text, the header fields and the locations of a message *)

Lemma append_empty_r (s : string) : s ++ "" = s.
Proof. induction s; simpl; congruence. Qed.

Lemma append_assoc' (a b c : string) : (a ++ b) ++ c = a ++ (b ++ c).
Proof. induction a; simpl; congruence. Qed.

Lemma concat_empty_cons (x : string) (l : list string) :
  String.concat "" (x :: l) = x ++ String.concat "" l.
Proof. destruct l; simpl; [symmetry; apply append_empty_r | reflexivity]. Qed.

(** The loop over the entries computes the concatenation of the
    buffers that are not [None]. *)
Lemma entries_text_concat entries :
  entries_text entries = String.concat "" (non_null_buffers entries).
Proof.
  unfold entries_text.
  assert (H : forall text,
             fold_left (fun text entry =>
                          match Buffer entry with
                          | Some buffer => text ++ buffer
                          | None => text
                          end) entries text
             = text ++ String.concat "" (non_null_buffers entries)).
  { induction entries as [| entry entries IH]; intros text.
    - simpl. symmetry. apply append_empty_r.
    - simpl fold_left. rewrite IH. unfold non_null_buffers. simpl flat_map.
      destruct (Buffer entry) as [buffer |]; [| reflexivity].
      simpl app. rewrite concat_empty_cons, append_assoc'. reflexivity. }
  apply (H "").
Qed.

(** C4, amended.  For every logical message that [retrieveAllSms]
    returns, built from a linked group of fragments: when decoding the
    group yields nothing ([DecodeSMS] returns [None]), the [Text] of
    the message is the raw text of the first fragment of the group;
    otherwise, also when the decoded message has no entries, it is the
    concatenation of the buffers of the decoded entries that are not
    [None], which is the empty string when there is none. *)
Theorem C4_text_decoded_or_first_fragment machine w results :
  outcome_of (retrieveAllSms machine) w = Returned results ->
  exists groups,
    In (EvLinkSMS (fetched (events_of (retrieveAllSms machine) w)) (Ok groups))
       (events_of (retrieveAllSms machine) w) /\
    Forall2 (fun sms result =>
               exists first decodedSms,
                 hd_error sms = Some first /\
                 gammu_DecodeSMS gammu sms = Ok decodedSms /\
                 sms_Text result =
                   match decodedSms with
                   | None => Text first
                   | Some decoded =>
                       String.concat "" (non_null_buffers (Entries decoded))
                   end)
            groups results.
Proof.
  intros Hout. destruct (retrieveAllSms_groups _ _ _ Hout) as (groups & Hin & Hall).
  exists groups. split; [exact Hin |].
  eapply Forall2_impl; [| exact Hall].
  intros sms result (smsPart & others & decodedSms & -> & Hd & ->).
  exists smsPart, decodedSms. split; [reflexivity |]. split; [exact Hd |].
  destruct decodedSms as [decoded |]; simpl; [apply entries_text_concat | reflexivity].
Qed.

(** C10.  For every logical message that [retrieveAllSms] returns,
    built from a linked group of fragments, the [Date] is the [str] of
    the [DateTime] of the first fragment of the group, and the [Number]
    and the [State] are those of the first fragment, whatever the later
    fragments of the group carry. *)
Theorem C10_header_fields_of_first_fragment machine w results :
  outcome_of (retrieveAllSms machine) w = Returned results ->
  exists groups,
    In (EvLinkSMS (fetched (events_of (retrieveAllSms machine) w)) (Ok groups))
       (events_of (retrieveAllSms machine) w) /\
    Forall2 (fun sms result =>
               exists first later,
                 sms = first :: later /\
                 sms_Date result = str_datetime (DateTime first) /\
                 sms_Number result = Number first /\
                 sms_State result = State first)
            groups results.
Proof.
  intros Hout. destruct (retrieveAllSms_groups _ _ _ Hout) as (groups & Hin & Hall).
  exists groups. split; [exact Hin |].
  eapply Forall2_impl; [| exact Hall].
  intros sms result (smsPart & others & decodedSms & -> & Hd & ->).
  exists smsPart, others. auto.
Qed.

(** ** Properties of message deletion *)

Lemma delete_run_all machine locations attempts :
  delete_run machine locations None attempts ->
  attempts = map (fun location => EvDeleteSMS machine 0 location (Ok tt)) locations.
Proof.
  intros H. remember None as failure eqn:Hf.
  induction H; try discriminate; simpl; [reflexivity | f_equal; auto].
Qed.

Lemma delete_run_failure machine locations e attempts :
  delete_run machine locations (Some e) attempts ->
  exists location, In (EvDeleteSMS machine 0 location (Err e)) attempts.
Proof.
  intros H. remember (Some e) as failure eqn:Hf.
  induction H; try discriminate.
  - destruct (IHdelete_run Hf) as [l Hl]. exists l. right. exact Hl.
  - injection Hf as ->. exists location. left. reflexivity.
Qed.

Lemma delete_run_stops machine locations failure attempts :
  delete_run machine locations failure attempts ->
  forall before location e after,
    (attempts ++ delete_report failure)%list
      = (before ++ EvDeleteSMS machine 0 location (Err e) :: after)%list ->
    after = [EvPrint ("Error deleting SMS: " ++ exc_str e)].
Proof.
  induction 1 as [| l rest failure evs Hrun IH | l rest e0];
    intros before location e after Heq; simpl in Heq.
  - destruct before; discriminate.
  - destruct before as [| ev before]; simpl in Heq; [discriminate |].
    injection Heq as _ Heq. eapply IH; eassumption.
  - destruct before as [| ev before]; simpl in Heq.
    + injection Heq as _ -> <-. reflexivity.
    + injection Heq as _ Heq.
      destruct before as [| ev' before]; simpl in Heq; [discriminate |].
      injection Heq as _ Heq. destruct before; discriminate.
Qed.

Lemma delete_run_prefix machine locations failure attempts :
  delete_run machine locations failure attempts ->
  deleted_locations (attempts ++ delete_report failure)
    = firstn (List.length (filter is_delete (attempts ++ delete_report failure)))
             locations.
Proof.
  induction 1 as [| l rest failure evs Hrun IH | l rest e0]; simpl.
  - reflexivity.
  - unfold deleted_locations in *. simpl. rewrite IH. reflexivity.
  - reflexivity.
Qed.

Lemma deleted_locations_all machine locations :
  deleted_locations
    (map (fun location => EvDeleteSMS machine 0 location (Ok tt)) locations)
  = locations.
Proof.
  induction locations as [| location rest IH]; [reflexivity |].
  unfold deleted_locations in *. simpl. rewrite IH. reflexivity.
Qed.

(** C3, amended.  [deleteSms] always returns normally.  It deletes the
    locations in list order and stops at the first deletion that
    fails: a failed driver call is followed by the report of its error
    and by no further deletion call.  So the calls issued are those for
    a prefix of the location list, and for the whole list when no call
    fails. *)
Theorem C3_deletion_stops_at_first_failure machine sms w :
  outcome_of (deleteSms machine sms) w = Returned tt /\
  (forall before location e after,
     events_of (deleteSms machine sms) w
       = (before ++ EvDeleteSMS machine 0 location (Err e) :: after)%list ->
     after = [EvPrint ("Error deleting SMS: " ++ exc_str e)]) /\
  deleted_locations (events_of (deleteSms machine sms) w)
    = firstn (List.length (filter is_delete (events_of (deleteSms machine sms) w)))
             (sms_Locations sms) /\
  ((forall location e,
      ~ In (EvDeleteSMS machine 0 location (Err e))
           (events_of (deleteSms machine sms) w)) ->
   deleted_locations (events_of (deleteSms machine sms) w) = sms_Locations sms).
Proof.
  destruct (traced_run _ _ (deleteSms_run machine sms) w)
    as (Hout & failure & attempts & Hrun & ->).
  split; [exact Hout |]. split; [| split].
  - eapply delete_run_stops; eassumption.
  - eapply delete_run_prefix; eassumption.
  - intros Hnone. destruct failure as [e |].
    + destruct (delete_run_failure _ _ _ _ Hrun) as [location Hl].
      exfalso. apply (Hnone location e). apply in_or_app. left. exact Hl.
    + rewrite (delete_run_all _ _ _ Hrun). simpl. rewrite app_nil_r.
      apply deleted_locations_all.
Qed.

(** C2, amended.  For every logical message that [retrieveAllSms]
    returns, built from a linked group of fragments, [Locations] is the
    list of the locations of all the fragments of the group, in the
    order of the group, so of the same length; and a [deleteSms] of
    that message in which no driver deletion call fails issues exactly
    one deletion call per listed location, in list order. *)
Theorem C2_locations_of_every_fragment machine w results :
  outcome_of (retrieveAllSms machine) w = Returned results ->
  exists groups,
    In (EvLinkSMS (fetched (events_of (retrieveAllSms machine) w)) (Ok groups))
       (events_of (retrieveAllSms machine) w) /\
    Forall2 (fun sms result =>
               sms_Locations result = map Location sms /\
               List.length (sms_Locations result) = List.length sms /\
               forall deleter w',
                 (forall location e,
                    ~ In (EvDeleteSMS deleter 0 location (Err e))
                         (events_of (deleteSms deleter result) w')) ->
                 events_of (deleteSms deleter result) w'
                   = map (fun location => EvDeleteSMS deleter 0 location (Ok tt))
                         (sms_Locations result))
            groups results.
Proof.
  intros Hout. destruct (retrieveAllSms_groups _ _ _ Hout) as (groups & Hin & Hall).
  exists groups. split; [exact Hin |].
  eapply Forall2_impl; [| exact Hall].
  intros sms result (smsPart & others & decodedSms & Hsms & Hd & ->).
  split; [reflexivity |]. split; [apply length_map |].
  intros deleter w' Hnone.
  destruct (traced_run _ _ (deleteSms_run deleter
              (result_of smsPart sms decodedSms)) w')
    as (_ & failure & attempts & Hrun & Hevs).
  rewrite Hevs in *. destruct failure as [e |].
  - destruct (delete_run_failure _ _ _ _ Hrun) as [location Hl].
    exfalso. apply (Hnone location e). apply in_or_app. left. exact Hl.
  - simpl. rewrite app_nil_r. eapply delete_run_all; eassumption.
Qed.

(** [retrieveAllSms] gives its loop enough fuel. *)
Lemma retrieveAllSms_total machine w :
  outcome_of (retrieveAllSms machine) w <> OutOfFuel.
Proof.
  pose proof (traced_run _ _ (retrieveAllSms_run machine) w) as H.
  inversion H; congruence.
Qed.

(** ** Properties of the connection initializer *)

(** [sorted] sorts: its result is in ascending order and holds every
    element as often as the list given. *)
Definition string_le (a b : string) : Prop := String.leb a b = true.

Lemma insert_sorted_permutation x l : Permutation (insert_sorted x l) (x :: l).
Proof.
  induction l as [| y l IH]; simpl; [apply Permutation_refl |].
  destruct (String.leb x y); [apply Permutation_refl |].
  apply perm_trans with (y :: x :: l); [apply perm_skip; exact IH | apply perm_swap].
Qed.

Lemma sorted_permutation l : Permutation (sorted l) l.
Proof.
  induction l as [| x l IH]; simpl; [constructor |].
  apply perm_trans with (x :: sorted l);
    [apply insert_sorted_permutation | apply perm_skip; exact IH].
Qed.

Lemma insert_sorted_keeps_order x l :
  Sorted string_le l -> Sorted string_le (insert_sorted x l).
Proof.
  induction l as [| y l IH]; intros Hl; simpl.
  - repeat constructor.
  - destruct (String.leb x y) eqn:Hxy.
    + constructor; [exact Hl | constructor; exact Hxy].
    + inversion Hl as [| ? ? Hl' Hhd]; subst.
      constructor; [apply IH; exact Hl' |].
      assert (Hyx : string_le y x).
      { destruct (String.leb_total x y) as [H | H]; [congruence | exact H]. }
      destruct l as [| z l]; simpl.
      * constructor. exact Hyx.
      * destruct (String.leb x z); constructor; [exact Hyx |].
        inversion Hhd; assumption.
Qed.

Lemma sorted_in_order l : Sorted string_le (sorted l).
Proof.
  induction l as [| x l IH]; simpl; [constructor |].
  apply insert_sorted_keeps_order. exact IH.
Qed.

Lemma listing_prints names : Forall is_print (listing names).
Proof.
  destruct names as [names | e]; simpl; [| constructor].
  induction (sorted (filter (fun d => prefix "tty" d) names)); simpl;
    constructor; auto. exact I.
Qed.

(** Where an event of the outer [try] sits in a run of
    [init_state_machine]. *)
Lemma init_run_connect pin device_path r evs ev :
  init_run pin device_path r evs ->
  In ev evs -> ~ preparation ev -> (forall sm, ev <> EvStateMachine sm) ->
  exists sm before r' evs',
    connect_run sm pin device_path r' evs' /\
    r = handle_of sm r' /\
    evs = (before ++ evs')%list /\ In ev evs' /\ In (EvStateMachine sm) before.
Proof.
  intros Hrun Hin Hprep Hsm.
  inversion Hrun as [sm b evs0 Hpre | sm prints r' evs' Hprints Hconn]; subst.
  - destruct Hin as [<- | Hin]; [exfalso; eapply Hsm; reflexivity |].
    exfalso. apply Hprep. rewrite Forall_forall in Hpre. auto.
  - exists sm,
      (EvStateMachine sm :: EvWriteFile config_file (config_content device_path) (Ok tt)
       :: prints ++ [EvReadConfig sm config_file (Ok tt)])%list, r', evs'.
    split; [exact Hconn |]. split; [reflexivity |]. split.
    { simpl. rewrite <- app_assoc. reflexivity. }
    split; [| left; reflexivity].
    destruct Hin as [<- | [<- | Hin]];
      [exfalso; eapply Hsm; reflexivity | exfalso; apply Hprep; exact I |].
    apply in_app_or in Hin. destruct Hin as [Hin | [<- | Hin]]; [| | exact Hin].
    + exfalso. apply Hprep. rewrite Forall_forall in Hprints.
      specialize (Hprints _ Hin). destruct ev; simpl in *; auto.
    + exfalso. apply Hprep. exact I.
Qed.

Lemma security_run_no_init sm pin r evs sm' res :
  security_run sm pin r evs -> ~ In (EvInit sm' res) evs.
Proof.
  intros H Hin. inversion H; subst; simpl in Hin;
    repeat (destruct Hin as [Hin | Hin]; [discriminate |]); exact Hin.
Qed.

(** The failure of the driver's [Init] decides the run of the outer
    [try]. *)
Lemma connect_run_init_failed sm pin device_path r evs sm' e :
  connect_run sm pin device_path r evs ->
  In (EvInit sm' (Err e)) evs ->
  sm' = sm /\
  ((exc_class e = ERR_NOSIM /\ r = Returned tt /\
    evs = [EvInit sm (Err e);
           EvPrint "Warning: SIM card not accessible, but device is connected"]) \/
   (exc_class e <> ERR_NOSIM /\ r = Raised (Exc e) /\
    exists names,
      evs = EvInit sm (Err e) ::
            EvPrint ("Error initializing device: " ++ exc_str e) ::
            EvPrint "Available devices:" :: listing names)).
Proof.
  intros Hrun Hin.
  inversion Hrun as [e' Hcls | e' names Hcls | r' evs' Hsec]; subst.
  - destruct Hin as [Heq | [Heq | []]]; [| discriminate].
    injection Heq as <- <-. auto.
  - destruct Hin as [Heq | [Heq | [Heq | Hin]]]; [| discriminate | discriminate |].
    + injection Heq as <- <-. split; [reflexivity |]. right. eauto.
    + exfalso. pose proof (listing_prints names) as Hp.
      rewrite Forall_forall in Hp. exact (Hp _ Hin).
  - destruct Hin as [Heq | [Heq | Hin]]; [discriminate | discriminate |].
    exfalso. eapply security_run_no_init; eassumption.
Qed.

(** C7.  When the driver's initialization fails with the no-SIM
    condition, [init_state_machine] raises nothing: it prints a warning,
    which is the last thing it does, and returns the state machine
    that it created. *)
Theorem C7_no_sim_returns_handle pin device_path w sm e :
  exc_class e = ERR_NOSIM ->
  In (EvInit sm (Err e)) (events_of (init_state_machine pin device_path) w) ->
  outcome_of (init_state_machine pin device_path) w = Returned sm /\
  exists before,
    In (EvStateMachine sm) before /\
    events_of (init_state_machine pin device_path) w
      = (before ++
         [EvInit sm (Err e);
          EvPrint "Warning: SIM card not accessible, but device is connected"])%list.
Proof.
  intros Hcls Hin.
  pose proof (traced_run _ _ (init_state_machine_run pin device_path) w) as Hrun.
  destruct (init_run_connect _ _ _ _ _ Hrun Hin)
    as (sm0 & before & r' & evs' & Hconn & Hr & Hevs & Hin' & Hsm);
    [simpl; tauto | discriminate |].
  destruct (connect_run_init_failed _ _ _ _ _ _ _ Hconn Hin')
    as [-> [(_ & -> & ->) | (Hne & _)]]; [| contradiction].
  rewrite Hr, Hevs. split; [reflexivity |]. exists before. auto.
Qed.

(** A run in which [Init] failed for another reason than the no-SIM
    condition ends with the report of the error, the heading and the
    listing of [/dev/] in the environment [e1]. *)
Definition failed_init_listed (evs : list event) (e1 : env) : Prop :=
  forall sm x,
    In (EvInit sm (Err x)) evs -> exc_class x <> ERR_NOSIM ->
    exists before,
      evs = (before ++
             EvInit sm (Err x) ::
             EvPrint ("Error initializing device: " ++ exc_str x) ::
             EvPrint "Available devices:" ::
             listing (os_listdir os "/dev/" e1))%list.

(** A step that does not initialize the driver, before the rest. *)
Lemma runs_from_uninitialized {A B} e0 (m : M A) (k : A -> M B) :
  traced m (fun _ evs => forall sm r, ~ In (EvInit sm r) evs) ->
  (forall a e1, runs_from e1 (k a) (fun _ evs e2 => failed_init_listed evs e2)) ->
  runs_from e0 (bind m k) (fun _ evs e2 => failed_init_listed evs e2).
Proof.
  intros Hm Hk.
  eapply runs_from_bind; [apply runs_from_traced; exact Hm | | |].
  - intros a evs1 e1 Hq. eapply runs_from_conseq; [apply Hk |]. simpl.
    intros r evs2 e2 H sm x Hin Hcls.
    apply in_app_or in Hin. destruct Hin as [Hin | Hin];
      [exfalso; eapply Hq; eassumption |].
    destruct (H sm x Hin Hcls) as (before & ->).
    exists (evs1 ++ before)%list. rewrite app_assoc. reflexivity.
  - intros b evs1 e1 Hq sm x Hin. exfalso. eapply Hq; eassumption.
  - intros evs1 e1 Hq sm x Hin. exfalso. eapply Hq; eassumption.
Qed.

Lemma print_uninitialized line :
  traced (print line) (fun _ evs => forall sm r, ~ In (EvInit sm r) evs).
Proof. apply traced_print. intros sm r [H | []]. discriminate. Qed.

Lemma init_state_machine_from pin device_path e0 :
  runs_from e0 (init_state_machine pin device_path)
    (fun _ evs e1 => failed_init_listed evs e1).
Proof.
  unfold init_state_machine.
  apply runs_from_uninitialized.
  { eapply traced_conseq; [apply new_StateMachine_run |]. simpl.
    intros r evs (sm & _ & ->) sm' r' [H | []]. discriminate. }
  intros sm e1. apply runs_from_uninitialized.
  { apply traced_call. intros res sm' r' [H | []]. discriminate. }
  intros _ e2. apply runs_from_uninitialized; [apply print_uninitialized |].
  intros _ e3. apply runs_from_uninitialized; [apply print_uninitialized |].
  intros _ e4. apply runs_from_uninitialized; [apply print_uninitialized |].
  intros _ e5. apply runs_from_uninitialized.
  { eapply traced_conseq; [apply log_device_diagnostics_emits |]. simpl.
    intros r evs [Hprints _] sm' r' Hin. rewrite Forall_forall in Hprints.
    exact (Hprints _ Hin). }
  intros _ e6. apply runs_from_uninitialized.
  { apply traced_call. intros res sm' r' [H | []]. discriminate. }
  intros _ e7.
  eapply runs_from_bind;
    [apply (runs_from_and _ _ _ _ (connect_from sm pin device_path e7)
              (connect_traced sm pin device_path)) | | |].
  - intros [] evs1 e8 [_ Hrun]. apply runs_from_ret. rewrite app_nil_r.
    intros sm' x Hin Hcls.
    destruct (connect_run_init_failed _ _ _ _ _ _ _ Hrun Hin)
      as [_ [(Hc & _) | (_ & Hr & _)]]; [contradiction | discriminate].
  - intros b evs1 e8 [Hlisting Hrun] sm' x Hin Hcls.
    destruct (connect_run_init_failed _ _ _ _ _ _ _ Hrun Hin)
      as [-> [(Hc & _) | (_ & Hr & _)]]; [contradiction |].
    exists []. simpl. apply Hlisting. exact Hr.
  - intros evs1 e8 [_ Hrun] sm' x Hin Hcls.
    destruct (connect_run_init_failed _ _ _ _ _ _ _ Hrun Hin)
      as [_ [(Hc & _) | (_ & Hr & _)]]; [contradiction | discriminate].
Qed.

(** C9.  When the driver's initialization fails with any error other
    than the no-SIM condition, [init_state_machine] returns no handle:
    it raises that very error to its caller, after it has printed the
    error and the heading of the device listing, followed by the
    listing itself: one line for every entry that [os.listdir] finds
    in [/dev/] and whose name begins with [tty], each as often as
    [os.listdir] returns it, in ascending order; or no line when
    [os.listdir] fails.  The directory is read in the environment that
    the failed [Init] left, which is the one the call ends in. *)
Theorem C9_other_init_failure_reraised pin device_path w sm e :
  exc_class e <> ERR_NOSIM ->
  In (EvInit sm (Err e)) (events_of (init_state_machine pin device_path) w) ->
  outcome_of (init_state_machine pin device_path) w = Raised (Exc e) /\
  exists before shown,
    events_of (init_state_machine pin device_path) w
      = (before ++
         EvInit sm (Err e) ::
         EvPrint ("Error initializing device: " ++ exc_str e) ::
         EvPrint "Available devices:" ::
         map (fun device => EvPrint ("  /dev/" ++ device)) shown)%list /\
    match os_listdir os "/dev/"
            (environment_after (init_state_machine pin device_path) w) with
    | Ok names =>
        Permutation shown (filter (fun d => prefix "tty" d) names) /\
        Sorted string_le shown
    | Err _ => shown = []
    end.
Proof.
  intros Hcls Hin.
  pose proof (traced_run _ _ (init_state_machine_run pin device_path) w) as Hrun.
  destruct (init_run_connect _ _ _ _ _ Hrun Hin)
    as (sm0 & before & r' & evs' & Hconn & Hr & Hevs & Hin' & Hsm);
    [simpl; tauto | discriminate |].
  destruct (connect_run_init_failed _ _ _ _ _ _ _ Hconn Hin')
    as [-> [(Heq & _) | (_ & -> & _)]]; [contradiction |].
  rewrite Hr. split; [reflexivity |].
  destruct (runs_from_run _ _ _ (init_state_machine_from pin device_path (w_env w))
              _ e Hin Hcls) as (before' & Hlisted).
  exists before'. rewrite Hlisted.
  destruct (os_listdir os "/dev/"
              (environment_after (init_state_machine pin device_path) w))
    as [names | x]; simpl.
  - exists (sorted (filter (fun d => prefix "tty" d) names)).
    split; [reflexivity |]. split; [apply sorted_permutation | apply sorted_in_order].
  - exists []. split; reflexivity.
Qed.

Lemma security_run_pin_required sm pin r evs sm' :
  security_run sm pin r evs ->
  In (EvGetSecurityStatus sm' (Ok (Some "PIN"))) evs ->
  pin_missing pin = true ->
  sm' = sm /\ r = Raised (SystemExit 1) /\
  evs = [EvGetSecurityStatus sm (Ok (Some "PIN"));
         EvPrint "SIM security status: PIN";
         EvPrint "PIN is required but not provided."].
Proof.
  intros Hrun Hin Hpin.
  inversion Hrun as [e | status Hs | status Hs Hp | status p Hs Hp Hm | status p e Hs Hp Hm];
    subst; simpl in Hin.
  - destruct Hin as [Heq | [Heq | []]]; discriminate.
  - destruct Hin as [Heq | [Heq | []]]; [| discriminate].
    injection Heq as Hsm Hst. subst. vm_compute in Hs. discriminate.
  - destruct Hin as [Heq | [Heq | [Heq | []]]]; [| discriminate | discriminate].
    injection Heq as Hsm Hst. subst. auto.
  - congruence.
  - congruence.
Qed.

(** C6.  When the SIM reports that a PIN is required and the pin
    supplied is [None] or empty, [init_state_machine] returns no handle:
    it ends in [SystemExit] with a status that is not zero, and after
    the status report of the SIM it does nothing but print two
    lines. *)
Theorem C6_missing_pin_exits pin device_path w sm :
  pin_missing pin = true ->
  In (EvGetSecurityStatus sm (Ok (Some "PIN")))
     (events_of (init_state_machine pin device_path) w) ->
  exists status,
    outcome_of (init_state_machine pin device_path) w = Raised (SystemExit status) /\
    status <> 0 /\
    exists before,
      events_of (init_state_machine pin device_path) w
        = (before ++
           [EvGetSecurityStatus sm (Ok (Some "PIN"));
            EvPrint "SIM security status: PIN";
            EvPrint "PIN is required but not provided."])%list.
Proof.
  intros Hpin Hin.
  pose proof (traced_run _ _ (init_state_machine_run pin device_path) w) as Hrun.
  destruct (init_run_connect _ _ _ _ _ Hrun Hin)
    as (sm0 & before & r' & evs' & Hconn & Hr & Hevs & Hin' & Hsm);
    [simpl; tauto | discriminate |].
  inversion Hconn as [e Hcls | e names Hcls | r'' evs'' Hsec]; subst r' evs'.
  - destruct Hin' as [Heq | [Heq | []]]; discriminate.
  - destruct Hin' as [Heq | [Heq | [Heq | Hin']]]; try discriminate.
    exfalso. pose proof (listing_prints names) as Hp.
    rewrite Forall_forall in Hp. exact (Hp _ Hin').
  - destruct Hin' as [Heq | [Heq | Hin']]; try discriminate.
    destruct (security_run_pin_required _ _ _ _ _ Hsec Hin' Hpin) as (Heq & -> & ->).
    subst sm0.
    exists 1. rewrite Hr, Hevs. split; [reflexivity |]. split; [discriminate |].
    exists (before ++
            [EvInit sm (Ok tt);
             EvPrint ("Successfully initialized gammu with device: " ++ device_path)])%list.
    rewrite <- app_assoc. reflexivity.
Qed.

(** * Further properties

    The rest of the module: what the diagnostics let escape, the steps
    of the initializer one by one, and the edges of retrieval and
    deletion. *)

(** ** What the diagnostics let escape *)

(** [escapes R m]: [m] leaves the environment as it is, is no loop, and
    raises nothing but exceptions in [R], which may depend on the
    environment. *)
Definition escapes {A} (R : env -> Exception -> Prop) (m : M A) : Prop :=
  forall w,
    w_env (snd (m w)) = w_env w /\
    match fst (m w) with
    | Returned _ => True
    | Raised (Exc e) => R (w_env w) e
    | Raised (SystemExit _) => False
    | OutOfFuel => False
    end.

(** An error of a lookup in the password or group database that is
    not a [KeyError]. *)
Definition lookup_error (e : env) (x : Exception) : Prop :=
  exc_class x <> KeyError /\
  exists id, pwd_getpwuid os id e = Err x \/ grp_getgrgid os id e = Err x.

(** The name shown for an owner or a group: the name found, or the
    number when the database has no entry. *)
Definition name_or_id (found : result string) (id : Z) : string :=
  match found with
  | Ok name => name
  | Err _ => str_Z id
  end.

(** The description of a device that [os.stat] found. *)
Definition description_of (info : stat_result) (owner group : string) : string :=
  String.concat " | "
    (app ["Permissions: " ++ stat_filemode os (st_mode info);
          "Owner: " ++ owner ++ ":" ++ group]
         (if stat_S_ISCHR os (st_mode info) then
            ["Major:Minor = " ++ str_Z (os_major os (st_rdev info)) ++ ":"
               ++ str_Z (os_minor os (st_rdev info))]
          else [])).

Lemma escapes_ret {A} R (a : A) : escapes R (ret a).
Proof. intros w. simpl. auto. Qed.

Lemma escapes_print R line : escapes R (print line).
Proof. intros w. simpl. auto. Qed.

Lemma escapes_ask {A} R (f : env -> A) : escapes R (ask f).
Proof. intros w. simpl. auto. Qed.

Lemma escapes_query {A} (R : env -> Exception -> Prop) (f : env -> result A) :
  (forall e x, f e = Err x -> R e x) -> escapes R (query f).
Proof.
  intros H w. unfold query. destruct (f (w_env w)) eqn:E; simpl; auto.
Qed.

Lemma escapes_bind {A B} R (m : M A) (k : A -> M B) :
  escapes R m -> (forall a, escapes R (k a)) -> escapes R (bind m k).
Proof.
  intros Hm Hk w. unfold bind. destruct (Hm w) as [Henv Hout].
  destruct (m w) as [[a | b |] w1]; simpl in *; auto.
  destruct (Hk a w1) as [Henv' Hout']. rewrite Henv in *. auto.
Qed.

Lemma escapes_try {A} (R1 R : env -> Exception -> Prop) (body : M A) cs :
  escapes R1 body ->
  (forall e x, R1 e x ->
     match first_match cs (Exc x) with
     | Some h => escapes R h
     | None => R e x
     end) ->
  escapes R (try_ body cs).
Proof.
  intros Hb Hcs w. unfold try_. destruct (Hb w) as [Henv Hout].
  destruct (body w) as [[a | [x | status] |] w1]; simpl in *; auto; try contradiction.
  specialize (Hcs _ _ Hout). destruct (first_match cs (Exc x)) as [h |].
  - destruct (Hcs w1) as [Henv' Hout']. rewrite Henv in *. auto.
  - simpl. auto.
Qed.

Lemma escapes_for_print {A} R (l : list A) (line : A -> string) :
  escapes R (for_ l (fun x => print (line x))).
Proof.
  induction l; simpl; [apply escapes_ret |].
  apply escapes_bind; [apply escapes_print | auto].
Qed.

Lemma describe_device_permissions_escapes device_path :
  escapes lookup_error (_describe_device_permissions device_path).
Proof.
  unfold _describe_device_permissions. apply escapes_bind.
  - apply escapes_try with (R1 := fun _ _ => True).
    + apply escapes_bind; [apply escapes_query; auto | intros; apply escapes_ret].
    + intros e x _. simpl.
      destruct (ExcClass_eqb (exc_class x) FileNotFoundError); apply escapes_ret.
  - intros [info | message]; [| apply escapes_ret].
    apply escapes_bind.
    { apply escapes_try with
        (R1 := fun e x => pwd_getpwuid os (st_uid info) e = Err x).
      - apply escapes_query. auto.
      - intros e x Hx. simpl.
        destruct (ExcClass_eqb (exc_class x) KeyError) eqn:Hc; [apply escapes_ret |].
        split; [intros Hk; apply ExcClass_eqb_eq in Hk; congruence | eauto]. }
    intros owner. apply escapes_bind; [| intros; apply escapes_ret].
    apply escapes_try with
      (R1 := fun e x => grp_getgrgid os (st_gid info) e = Err x).
    + apply escapes_query. auto.
    + intros e x Hx. simpl.
      destruct (ExcClass_eqb (exc_class x) KeyError) eqn:Hc; [apply escapes_ret |].
      split; [intros Hk; apply ExcClass_eqb_eq in Hk; congruence | eauto].
Qed.

Lemma log_device_diagnostics_escapes device_path :
  escapes lookup_error (log_device_diagnostics device_path).
Proof.
  unfold log_device_diagnostics.
  apply escapes_bind; [apply escapes_print | intros _].
  apply escapes_bind; [apply escapes_print | intros _].
  apply escapes_bind; [apply escapes_ask | intros islink].
  apply escapes_bind.
  { destruct islink; [| apply escapes_ret].
    apply escapes_bind; [apply escapes_ask | intros; apply escapes_print]. }
  intros _.
  apply escapes_bind; [apply describe_device_permissions_escapes | intros description].
  apply escapes_bind; [apply escapes_print | intros _].
  apply escapes_bind.
  { apply escapes_try with (R1 := fun _ _ => True).
    - apply escapes_bind; [apply escapes_query; auto | intros; apply escapes_print].
    - intros e x _. simpl.
      destruct (ExcClass_eqb (exc_class x) FileNotFoundError); [apply escapes_print |].
      destruct (ExcClass_eqb (exc_class x) PermissionError); apply escapes_print. }
  intros _. apply escapes_try with (R1 := fun _ _ => True).
  - apply escapes_bind; [apply escapes_query; auto | intros found].
    apply escapes_bind; [apply escapes_print | intros _].
    apply escapes_for_print.
  - intros e x _. simpl. apply escapes_print.
Qed.

Lemma describe_stat_failed device_path w e :
  os_stat os device_path (w_env w) = Err e ->
  _describe_device_permissions device_path w
  = (Returned (if ExcClass_eqb (exc_class e) FileNotFoundError
               then "⚠️ Device " ++ device_path ++ " not found"
               else "⚠️ Could not stat " ++ device_path ++ ": " ++ exc_str e),
     w).
Proof.
  intros H. unfold _describe_device_permissions, bind, try_, query. simpl.
  rewrite H. simpl.
  destruct (ExcClass_eqb (exc_class e) FileNotFoundError); reflexivity.
Qed.

(** What one lookup of [_describe_device_permissions] yields: the name,
    the number for a [KeyError], or the error. *)
Lemma lookup_or_id (f : env -> result string) (id : Z) w :
  try_ (query f) [except_class KeyError (fun _ => ret (str_Z id))] w
  = (match f (w_env w) with
     | Ok name => Returned name
     | Err x => if ExcClass_eqb (exc_class x) KeyError
                then Returned (str_Z id) else Raised (Exc x)
     end, w).
Proof.
  unfold try_, query. destruct (f (w_env w)) as [name | x]; simpl; [reflexivity |].
  destruct (ExcClass_eqb (exc_class x) KeyError); reflexivity.
Qed.

Lemma bind_returned {A B} (m : M A) (k : A -> M B) w a w1 :
  m w = (Returned a, w1) -> bind m k w = k a w1.
Proof. intros H. unfold bind. rewrite H. reflexivity. Qed.

Lemma bind_raised {A B} (m : M A) (k : A -> M B) w b w1 :
  m w = (Raised b, w1) -> bind m k w = (Raised b, w1).
Proof. intros H. unfold bind. rewrite H. reflexivity. Qed.

Lemma stat_found device_path w info :
  os_stat os device_path (w_env w) = Ok info ->
  try_ (info <- query (os_stat os device_path) ;; ret (inl info))
    [except_class FileNotFoundError
       (fun _ => ret (inr ("⚠️ Device " ++ device_path ++ " not found")));
     except_Exception
       (fun e => ret (inr ("⚠️ Could not stat " ++ device_path ++ ": "
                             ++ exc_str e)))] w
  = (Returned (@inl stat_result string info), w).
Proof. intros H. unfold try_, bind, query. rewrite H. reflexivity. Qed.

Lemma describe_stat_found device_path w info :
  os_stat os device_path (w_env w) = Ok info ->
  _describe_device_permissions device_path w
  = (match pwd_getpwuid os (st_uid info) (w_env w) with
     | Err x =>
         if ExcClass_eqb (exc_class x) KeyError then
           match grp_getgrgid os (st_gid info) (w_env w) with
           | Err y =>
               if ExcClass_eqb (exc_class y) KeyError then
                 Returned (description_of info (str_Z (st_uid info))
                             (str_Z (st_gid info)))
               else Raised (Exc y)
           | Ok group =>
               Returned (description_of info (str_Z (st_uid info)) group)
           end
         else Raised (Exc x)
     | Ok owner =>
         match grp_getgrgid os (st_gid info) (w_env w) with
         | Err y =>
             if ExcClass_eqb (exc_class y) KeyError then
               Returned (description_of info owner (str_Z (st_gid info)))
             else Raised (Exc y)
         | Ok group => Returned (description_of info owner group)
         end
     end, w).
Proof.
  intros H. unfold _describe_device_permissions.
  rewrite (bind_returned _ _ _ _ _ (stat_found _ _ _ H)).
  pose proof (lookup_or_id (pwd_getpwuid os (st_uid info)) (st_uid info) w) as Hp.
  pose proof (lookup_or_id (grp_getgrgid os (st_gid info)) (st_gid info) w) as Hg.
  destruct (pwd_getpwuid os (st_uid info) (w_env w)) as [owner | x].
  - rewrite (bind_returned _ _ _ _ _ Hp).
    destruct (grp_getgrgid os (st_gid info) (w_env w)) as [group | y].
    + rewrite (bind_returned _ _ _ _ _ Hg).
      unfold description_of. destruct (stat_S_ISCHR os (st_mode info)); reflexivity.
    + destruct (ExcClass_eqb (exc_class y) KeyError).
      * rewrite (bind_returned _ _ _ _ _ Hg).
        unfold description_of. destruct (stat_S_ISCHR os (st_mode info)); reflexivity.
      * rewrite (bind_raised _ _ _ _ _ Hg). reflexivity.
  - destruct (ExcClass_eqb (exc_class x) KeyError).
    + rewrite (bind_returned _ _ _ _ _ Hp).
      destruct (grp_getgrgid os (st_gid info) (w_env w)) as [group | y].
      * rewrite (bind_returned _ _ _ _ _ Hg).
        unfold description_of. destruct (stat_S_ISCHR os (st_mode info)); reflexivity.
      * destruct (ExcClass_eqb (exc_class y) KeyError).
        -- rewrite (bind_returned _ _ _ _ _ Hg).
           unfold description_of. destruct (stat_S_ISCHR os (st_mode info)); reflexivity.
        -- rewrite (bind_raised _ _ _ _ _ Hg). reflexivity.
    + rewrite (bind_raised _ _ _ _ _ Hp). reflexivity.
Qed.
Lemma events_of_unchanged {A} (m : M A) w r :
  m w = (r, w) -> events_of m w = [].
Proof. intros H. unfold events_of. rewrite H. simpl. apply skipn_all. Qed.

(** X1.  When [os.stat] fails on the device path,
    [_describe_device_permissions] raises nothing and prints nothing:
    it returns a message, "not found" for a [FileNotFoundError] and
    "Could not stat" with the text of the error for any other
    exception. *)
Theorem describe_unreadable_device_is_a_message device_path w e :
  os_stat os device_path (w_env w) = Err e ->
  outcome_of (_describe_device_permissions device_path) w
    = Returned (if ExcClass_eqb (exc_class e) FileNotFoundError
                then "⚠️ Device " ++ device_path ++ " not found"
                else "⚠️ Could not stat " ++ device_path ++ ": " ++ exc_str e) /\
  events_of (_describe_device_permissions device_path) w = [].
Proof.
  intros H. pose proof (describe_stat_failed device_path w e H) as Hrun.
  split; [unfold outcome_of; rewrite Hrun; reflexivity |].
  eapply events_of_unchanged; eassumption.
Qed.

(** X2.  When [os.stat] finds the device and each of the two lookups,
    of the owner and of the group, either succeeds or fails with a
    [KeyError], [_describe_device_permissions] returns the permissions
    and the owner and group joined by " | ", a name that is not found
    being replaced by the number, and the major and minor numbers
    being added only for a character device. *)
Theorem describe_shows_names_or_numbers device_path w info :
  os_stat os device_path (w_env w) = Ok info ->
  (forall x, pwd_getpwuid os (st_uid info) (w_env w) = Err x ->
             exc_class x = KeyError) ->
  (forall y, grp_getgrgid os (st_gid info) (w_env w) = Err y ->
             exc_class y = KeyError) ->
  outcome_of (_describe_device_permissions device_path) w
    = Returned
        (description_of info
           (name_or_id (pwd_getpwuid os (st_uid info) (w_env w)) (st_uid info))
           (name_or_id (grp_getgrgid os (st_gid info) (w_env w)) (st_gid info))).
Proof.
  intros Hstat Hpwd Hgrp. unfold outcome_of.
  rewrite (describe_stat_found device_path w info Hstat).
  destruct (pwd_getpwuid os (st_uid info) (w_env w)) as [owner | x];
    destruct (grp_getgrgid os (st_gid info) (w_env w)) as [group | y]; simpl;
    try rewrite (Hpwd x eq_refl); try rewrite (Hgrp y eq_refl); reflexivity.
Qed.

Lemma print_eval line w : print line w = (Returned tt, log (EvPrint line) w).
Proof. reflexivity. Qed.

(** The diagnostics up to the description of the device. *)
Lemma diagnostics_head device_path w (k : string -> M unit) :
  (print "🔎 Collecting modem diagnostics..." ;;
   print ("Configured device: " ++ device_path) ;;
   islink <- ask (os_path_islink os device_path) ;;
   (if islink : bool then
      target <- ask (os_path_realpath os device_path) ;;
      print ("Symlink target: " ++ target)
    else ret tt) ;;
   description <- _describe_device_permissions device_path ;;
   k description) w
  = (description <- _describe_device_permissions device_path ;; k description)
      {| w_env := w_env w;
         w_trace :=
           (w_trace w ++
            EvPrint "🔎 Collecting modem diagnostics..." ::
            EvPrint ("Configured device: " ++ device_path) ::
            (if os_path_islink os device_path (w_env w)
             then [EvPrint ("Symlink target: "
                              ++ os_path_realpath os device_path (w_env w))]
             else []))%list;
         w_objects := w_objects w |}.
Proof.
  unfold bind at 1. rewrite print_eval.
  unfold bind at 1. rewrite print_eval.
  unfold bind at 1. unfold ask at 1. unfold log at 1 2. simpl w_env.
  destruct (os_path_islink os device_path (w_env w)).
  - unfold bind at 1. unfold bind at 1. unfold ask at 1. rewrite print_eval.
    unfold log. simpl. rewrite <- !app_assoc. reflexivity.
  - unfold bind at 1. unfold ret at 1. unfold log. simpl.
    rewrite <- !app_assoc. reflexivity.
Qed.

(** X3.  An error of the owner lookup that is not a [KeyError] is not
    caught anywhere in the diagnostics: [log_device_diagnostics] raises
    it, having printed only its heading lines, so before the
    description is printed and before the device is opened. *)
Theorem diagnostics_stop_at_a_lookup_error device_path w info x :
  os_stat os device_path (w_env w) = Ok info ->
  pwd_getpwuid os (st_uid info) (w_env w) = Err x ->
  exc_class x <> KeyError ->
  outcome_of (log_device_diagnostics device_path) w = Raised (Exc x) /\
  events_of (log_device_diagnostics device_path) w
    = EvPrint "🔎 Collecting modem diagnostics..." ::
      EvPrint ("Configured device: " ++ device_path) ::
      (if os_path_islink os device_path (w_env w)
       then [EvPrint ("Symlink target: " ++ os_path_realpath os device_path (w_env w))]
       else []).
Proof.
  intros Hstat Hpwd Hcls.
  assert (Hk : ExcClass_eqb (exc_class x) KeyError = false).
  { destruct (ExcClass_eqb (exc_class x) KeyError) eqn:E; [| reflexivity].
    apply ExcClass_eqb_eq in E. contradiction. }
  unfold outcome_of, events_of, log_device_diagnostics.
  rewrite diagnostics_head.
  erewrite bind_raised.
  2:{ match goal with
      | |- _describe_device_permissions _ ?w' = _ =>
          rewrite (describe_stat_found device_path w' info Hstat)
      end.
      simpl w_env. rewrite Hpwd, Hk. reflexivity. }
  simpl. split; [reflexivity | apply skipn_length_app].
Qed.

(** The line printed after the attempt to open the device. *)
Definition open_report (opened : result unit) : string :=
  match opened with
  | Ok _ => "✅ Able to open device file (read-only test)"
  | Err e =>
      if ExcClass_eqb (exc_class e) FileNotFoundError then
        "❌ Device file does not exist"
      else if ExcClass_eqb (exc_class e) PermissionError then
        "❌ Permission denied when opening device file"
      else "⚠️ Unexpected error opening device: " ++ exc_str e
  end.

(** The lines printed for the tty devices that [glob.glob] finds. *)
Definition tty_report (found : result (list string)) : list event :=
  match found with
  | Ok found =>
      EvPrint "Discovered TTY devices:" ::
      map (fun dev => EvPrint ("  " ++ dev))
          (filter (fun dev => existsb (fun tag => contains tag dev)
                                ["USB"; "ACM"; "AMA"])
                  (sorted found))
  | Err e => [EvPrint ("⚠️ Unable to list /dev/tty* devices: " ++ exc_str e)]
  end.

Lemma for_print_eval {A} (l : list A) (line : A -> string) w :
  for_ l (fun x => print (line x)) w
  = (Returned tt,
     {| w_env := w_env w;
        w_trace := (w_trace w ++ map (fun x => EvPrint (line x)) l)%list;
        w_objects := w_objects w |}).
Proof.
  revert w. induction l as [| x l IH]; intros w; simpl.
  - unfold ret. rewrite app_nil_r. destruct w; reflexivity.
  - unfold bind. rewrite print_eval, IH. unfold log. simpl.
    rewrite <- app_assoc. reflexivity.
Qed.

(** The outcome of [_describe_device_permissions] depends on the
    environment only, and the function leaves the world as it is. *)
Lemma describe_reads device_path w w' :
  w_env w' = w_env w ->
  _describe_device_permissions device_path w'
  = (outcome_of (_describe_device_permissions device_path) w, w').
Proof.
  intros He. unfold outcome_of.
  destruct (os_stat os device_path (w_env w)) as [info | e] eqn:Hs.
  - rewrite (describe_stat_found device_path w info Hs).
    rewrite <- He in Hs. rewrite (describe_stat_found device_path w' info Hs).
    rewrite He. reflexivity.
  - rewrite (describe_stat_failed device_path w e Hs).
    rewrite <- He in Hs. rewrite (describe_stat_failed device_path w' e Hs).
    reflexivity.
Qed.

(** What [_describe_device_permissions] raises is the error of a lookup
    for the owner or the group of the device. *)
Lemma describe_raised device_path w b :
  outcome_of (_describe_device_permissions device_path) w = Raised b ->
  exists info x,
    os_stat os device_path (w_env w) = Ok info /\
    b = Exc x /\ exc_class x <> KeyError /\
    (pwd_getpwuid os (st_uid info) (w_env w) = Err x \/
     grp_getgrgid os (st_gid info) (w_env w) = Err x).
Proof.
  unfold outcome_of.
  destruct (os_stat os device_path (w_env w)) as [info | e] eqn:Hs.
  - rewrite (describe_stat_found device_path w info Hs). simpl.
    assert (Hk : forall x, ExcClass_eqb (exc_class x) KeyError = false ->
                           exc_class x <> KeyError).
    { intros x Hx Hc. apply ExcClass_eqb_eq in Hc. congruence. }
    destruct (pwd_getpwuid os (st_uid info) (w_env w)) as [owner | x] eqn:Hp;
      [| destruct (ExcClass_eqb (exc_class x) KeyError) eqn:Hx];
      try (destruct (grp_getgrgid os (st_gid info) (w_env w)) as [group | y] eqn:Hg;
           [| destruct (ExcClass_eqb (exc_class y) KeyError) eqn:Hy]);
      intros H; try discriminate H; injection H as <-;
      first [exists info, y; solve [auto 6] | exists info, x; solve [auto 6]].
  - rewrite (describe_stat_failed device_path w e Hs). discriminate.
Qed.

(** The diagnostics after the description of the device. *)
Lemma diagnostics_tail device_path description w :
  (print description ;;
   try_ (query (open_rb os device_path) ;;
         print "✅ Able to open device file (read-only test)")
     [except_class FileNotFoundError
        (fun _ => print "❌ Device file does not exist");
      except_class PermissionError
        (fun _ => print "❌ Permission denied when opening device file");
      except_Exception
        (fun e => print ("⚠️ Unexpected error opening device: " ++ exc_str e))] ;;
   try_ (found <- query (glob_glob os "/dev/tty*") ;;
         let siblings := sorted found in
         let nearby :=
           filter (fun dev => existsb (fun tag => contains tag dev) ["USB"; "ACM"; "AMA"])
                  siblings in
         print "Discovered TTY devices:" ;;
         for_ nearby (fun dev => print ("  " ++ dev)))
     [except_Exception
        (fun e => print ("⚠️ Unable to list /dev/tty* devices: " ++ exc_str e))]) w
  = (Returned tt,
     {| w_env := w_env w;
        w_trace :=
          (w_trace w ++
           EvPrint description ::
           EvPrint (open_report (open_rb os device_path (w_env w))) ::
           tty_report (glob_glob os "/dev/tty*" (w_env w)))%list;
        w_objects := w_objects w |}).
Proof.
  unfold bind at 1. rewrite print_eval.
  unfold bind at 1.
  assert (Hopen :
    try_ (query (open_rb os device_path) ;;
          print "✅ Able to open device file (read-only test)")
      [except_class FileNotFoundError
         (fun _ => print "❌ Device file does not exist");
       except_class PermissionError
         (fun _ => print "❌ Permission denied when opening device file");
       except_Exception
         (fun e => print ("⚠️ Unexpected error opening device: " ++ exc_str e))]
      (log (EvPrint description) w)
    = (Returned tt,
       log (EvPrint (open_report (open_rb os device_path (w_env w))))
           (log (EvPrint description) w))).
  { unfold try_, bind, query. simpl w_env.
    destruct (open_rb os device_path (w_env w)) as [[] | e]; simpl; [reflexivity |].
    destruct (ExcClass_eqb (exc_class e) FileNotFoundError); [reflexivity |].
    destruct (ExcClass_eqb (exc_class e) PermissionError); reflexivity. }
  rewrite Hopen.
  unfold try_, bind, query, log. simpl w_env.
  destruct (glob_glob os "/dev/tty*" (w_env w)) as [found | e]; simpl.
  - rewrite for_print_eval. simpl. rewrite <- !app_assoc. reflexivity.
  - rewrite print_eval. unfold log. simpl. rewrite <- !app_assoc. reflexivity.
Qed.

(** The run of [log_device_diagnostics] when the description of the
    device is returned. *)
Lemma diagnostics_described device_path w description :
  outcome_of (_describe_device_permissions device_path) w = Returned description ->
  log_device_diagnostics device_path w
  = (Returned tt,
     {| w_env := w_env w;
        w_trace :=
          (w_trace w ++
           EvPrint "🔎 Collecting modem diagnostics..." ::
           EvPrint ("Configured device: " ++ device_path) ::
           (if os_path_islink os device_path (w_env w)
            then [EvPrint ("Symlink target: "
                             ++ os_path_realpath os device_path (w_env w))]
            else []) ++
           EvPrint description ::
           EvPrint (open_report (open_rb os device_path (w_env w))) ::
           tty_report (glob_glob os "/dev/tty*" (w_env w)))%list;
        w_objects := w_objects w |}).
Proof.
  intros Hd. unfold log_device_diagnostics. rewrite diagnostics_head.
  erewrite bind_returned.
  2:{ rewrite (describe_reads device_path w) by reflexivity. rewrite Hd. reflexivity. }
  rewrite diagnostics_tail. simpl.
  rewrite <- !app_assoc. reflexivity.
Qed.

(** X4.  With an output that takes every line, whatever
    [log_device_diagnostics] raises is the error, not a [KeyError], of
    the lookup of the owner or of the group of the device that
    [os.stat] found.  Nothing else is raised; it is reported instead:
    when the description of the device is returned, which is the case
    when [os.stat] fails, the diagnostics return, and their events are
    the heading lines, the description, one line that tells whether
    the device could be opened or why not, and the tty devices found
    or the line that tells why they could not be listed. *)
Theorem diagnostics_raise_only_lookup_errors device_path w :
  (forall b,
     outcome_of (log_device_diagnostics device_path) w = Raised b ->
     exists info x,
       os_stat os device_path (w_env w) = Ok info /\
       b = Exc x /\ exc_class x <> KeyError /\
       (pwd_getpwuid os (st_uid info) (w_env w) = Err x \/
        grp_getgrgid os (st_gid info) (w_env w) = Err x)) /\
  (forall description,
     outcome_of (_describe_device_permissions device_path) w = Returned description ->
     outcome_of (log_device_diagnostics device_path) w = Returned tt /\
     events_of (log_device_diagnostics device_path) w
       = (EvPrint "🔎 Collecting modem diagnostics..." ::
          EvPrint ("Configured device: " ++ device_path) ::
          (if os_path_islink os device_path (w_env w)
           then [EvPrint ("Symlink target: "
                            ++ os_path_realpath os device_path (w_env w))]
           else []) ++
          EvPrint description ::
          EvPrint (match open_rb os device_path (w_env w) with
                   | Ok _ => "✅ Able to open device file (read-only test)"
                   | Err e =>
                       if ExcClass_eqb (exc_class e) FileNotFoundError then
                         "❌ Device file does not exist"
                       else if ExcClass_eqb (exc_class e) PermissionError then
                         "❌ Permission denied when opening device file"
                       else "⚠️ Unexpected error opening device: " ++ exc_str e
                   end) ::
          match glob_glob os "/dev/tty*" (w_env w) with
          | Ok found =>
              EvPrint "Discovered TTY devices:" ::
              map (fun dev => EvPrint ("  " ++ dev))
                  (filter (fun dev => existsb (fun tag => contains tag dev)
                                        ["USB"; "ACM"; "AMA"])
                          (sorted found))
          | Err e =>
              [EvPrint ("⚠️ Unable to list /dev/tty* devices: " ++ exc_str e)]
          end)%list) /\
  (forall e,
     os_stat os device_path (w_env w) = Err e ->
     exists description,
       outcome_of (_describe_device_permissions device_path) w = Returned description).
Proof.
  assert (Hreturned : forall description,
            outcome_of (_describe_device_permissions device_path) w
              = Returned description ->
            outcome_of (log_device_diagnostics device_path) w = Returned tt /\
            events_of (log_device_diagnostics device_path) w
              = (EvPrint "🔎 Collecting modem diagnostics..." ::
                 EvPrint ("Configured device: " ++ device_path) ::
                 (if os_path_islink os device_path (w_env w)
                  then [EvPrint ("Symlink target: "
                                   ++ os_path_realpath os device_path (w_env w))]
                  else []) ++
                 EvPrint description ::
                 EvPrint (open_report (open_rb os device_path (w_env w))) ::
                 tty_report (glob_glob os "/dev/tty*" (w_env w)))%list).
  { intros description Hd. unfold outcome_of, events_of.
    rewrite (diagnostics_described device_path w description Hd). simpl.
    split; [reflexivity | apply skipn_length_app]. }
  split; [| split].
  - intros b Hraised.
    destruct (outcome_of (_describe_device_permissions device_path) w)
      as [description | b' |] eqn:Hd.
    + destruct (Hreturned description eq_refl) as [Hr _]. congruence.
    + assert (Hlog : outcome_of (log_device_diagnostics device_path) w = Raised b').
      { unfold outcome_of, log_device_diagnostics. rewrite diagnostics_head.
        erewrite bind_raised; [reflexivity |].
        rewrite (describe_reads device_path w) by reflexivity. rewrite Hd.
        reflexivity. }
      assert (b = b') by congruence. subst b'.
      apply describe_raised. exact Hd.
    + exfalso. destruct (describe_device_permissions_escapes device_path w) as [_ H].
      unfold outcome_of in Hd. rewrite Hd in H. exact H.
  - exact Hreturned.
  - intros e Hs. unfold outcome_of.
    rewrite (describe_stat_failed device_path w e Hs). eexists. reflexivity.
Qed.

(** X5.  [log_device_diagnostics] does nothing to the outside but
    print: it starts with its two heading lines, and every event it
    adds is a printed line, so it makes no driver call and writes no
    file. *)
Theorem diagnostics_only_print device_path w :
  exists lines,
    events_of (log_device_diagnostics device_path) w
      = EvPrint "🔎 Collecting modem diagnostics..." ::
        EvPrint ("Configured device: " ++ device_path) :: lines /\
    Forall is_print lines.
Proof.
  assert (H : traced (log_device_diagnostics device_path)
                (fun r evs => exists lines,
                   evs = EvPrint "🔎 Collecting modem diagnostics..." ::
                         EvPrint ("Configured device: " ++ device_path) :: lines /\
                   Forall is_print lines)).
  { unfold log_device_diagnostics.
    eapply traced_bind; [apply print_run | | |].
    - intros [] evs1 [_ ->].
      eapply traced_bind; [apply print_run | | |].
      + intros [] evs2 [_ ->].
        eapply traced_conseq with (Q1 := fun r evs => Forall is_print evs /\ r <> OutOfFuel).
        * apply emits_bind; [apply emits_ask | intros islink].
          apply emits_bind.
          { destruct islink; [| apply emits_ret].
            apply emits_bind; [apply emits_ask | intros; apply emits_print; exact I]. }
          intros _.
          apply emits_bind; [apply describe_device_permissions_emits | intros description].
          apply emits_bind; [apply emits_print; exact I | intros _].
          apply emits_bind.
          { apply emits_try.
            - apply emits_bind; [apply emits_query | intros; apply emits_print; exact I].
            - repeat constructor.
              + apply emits_except_class. intros; apply emits_print; exact I.
              + apply emits_except_class. intros; apply emits_print; exact I.
              + apply emits_except_Exception. intros; apply emits_print; exact I. }
          intros _. apply emits_try.
          -- apply emits_bind; [apply emits_query | intros found].
             apply emits_bind; [apply emits_print; exact I | intros _].
             apply emits_for_print. intros; exact I.
          -- repeat constructor.
             apply emits_except_Exception. intros; apply emits_print; exact I.
        * simpl. intros r evs [Hp Hr]. exists evs. auto.
      + intros b evs2 [H _]. discriminate.
      + intros evs2 [H _]. discriminate.
    - intros b evs1 [H _]. discriminate.
    - intros evs1 [H _]. discriminate. }
  exact (traced_run _ _ H w).
Qed.

(** ** The initializer, step by step *)

(** The runs of [init_state_machine] with the place where each ends:
    at the writing of the configuration file, in the diagnostics, at
    [ReadConfig], or in the outer [try]. *)
Inductive init_steps (pin : option string) (device_path : string)
    : outcome StateMachine -> list event -> Prop :=
| steps_write_failed sm e :
    init_steps pin device_path (Raised (Exc e))
      [EvStateMachine sm;
       EvWriteFile config_file (config_content device_path) (Err e)]
| steps_diagnostics_failed sm e prints :
    Forall is_print prints ->
    init_steps pin device_path (Raised (Exc e))
      (EvStateMachine sm ::
       EvWriteFile config_file (config_content device_path) (Ok tt) :: prints)
| steps_read_failed sm e prints :
    Forall is_print prints ->
    init_steps pin device_path (Raised (Exc e))
      (EvStateMachine sm ::
       EvWriteFile config_file (config_content device_path) (Ok tt) ::
       prints ++ [EvReadConfig sm config_file (Err e)])
| steps_connect sm prints r evs :
    Forall is_print prints ->
    connect_run sm pin device_path r evs ->
    init_steps pin device_path (handle_of sm r)
      (EvStateMachine sm ::
       EvWriteFile config_file (config_content device_path) (Ok tt) ::
       prints ++ EvReadConfig sm config_file (Ok tt) :: evs).

(** The state machine on which a driver call is made. *)
Definition event_machine (ev : event) : option StateMachine :=
  match ev with
  | EvStateMachine sm | EvReadConfig sm _ _ | EvInit sm _
  | EvGetSecurityStatus sm _ | EvEnterSecurityCode sm _ _ _
  | EvGetSMSStatus sm _ | EvGetNextSMS sm _ _ _ _ | EvDeleteSMS sm _ _ _ => Some sm
  | EvPrint _ | EvWriteFile _ _ _ | EvLinkSMS _ _ | EvDecodeSMS _ _ => None
  end.

Lemma log_device_diagnostics_mild device_path :
  traced (log_device_diagnostics device_path)
    (fun r evs => Forall is_print evs /\
       ((exists u, r = Returned u) \/ exists e, r = Raised (Exc e))).
Proof.
  intros w. destruct (log_device_diagnostics_emits device_path w) as (evs & Ht & Hp & _).
  exists evs. split; [exact Ht |]. split; [exact Hp |].
  destruct (log_device_diagnostics_escapes device_path w) as [_ H].
  destruct (fst (log_device_diagnostics device_path w)) as [u | [e | status] |];
    try contradiction; eauto.
Qed.

Lemma init_state_machine_steps pin device_path :
  traced (init_state_machine pin device_path) (init_steps pin device_path).
Proof.
  unfold init_state_machine.
  eapply traced_bind; [apply new_StateMachine_run | | |].
  - intros sm evs0 (sm' & Hsm & ->). injection Hsm as <-.
    eapply traced_bind; [apply call_run | | |].
    + intros [] evs1 (res & -> & Hres). destruct res as [[] |]; [| discriminate].
      eapply traced_bind; [apply print_run | | |].
      * intros [] evs2 [_ ->].
        eapply traced_bind; [apply print_run | | |].
        -- intros [] evs3 [_ ->].
           eapply traced_bind; [apply print_run | | |].
           ++ intros [] evs4 [_ ->].
              eapply traced_bind; [apply log_device_diagnostics_mild | | |].
              ** intros [] evs5 [Hprints _].
                 eapply traced_bind; [apply call_run | | |].
                 --- intros [] evs6 (res & -> & Hread).
                     destruct res as [[] |]; [| discriminate].
                     eapply traced_bind; [apply connect_traced | | |].
                     +++ intros [] evs7 Hrun. apply traced_ret. simpl.
                         rewrite app_nil_r.
                         apply (steps_connect pin device_path sm
                                  (EvPrint _ :: EvPrint _ :: EvPrint _ :: evs5)
                                  (Returned tt) evs7); [| exact Hrun].
                         repeat (constructor; [exact I |]). exact Hprints.
                     +++ intros b evs7 Hrun. simpl.
                         apply (steps_connect pin device_path sm
                                  (EvPrint _ :: EvPrint _ :: EvPrint _ :: evs5)
                                  (Raised b) evs7); [| exact Hrun].
                         repeat (constructor; [exact I |]). exact Hprints.
                     +++ intros evs7 Hrun. simpl.
                         apply (steps_connect pin device_path sm
                                  (EvPrint _ :: EvPrint _ :: EvPrint _ :: evs5)
                                  OutOfFuel evs7); [| exact Hrun].
                         repeat (constructor; [exact I |]). exact Hprints.
                 --- intros b evs6 (res & -> & Hread).
                     destruct res as [| e]; [discriminate |]. injection Hread as ->.
                     simpl.
                     apply (steps_read_failed pin device_path sm e
                              (EvPrint _ :: EvPrint _ :: EvPrint _ :: evs5)).
                     repeat (constructor; [exact I |]). exact Hprints.
                 --- intros evs6 (res & -> & Hread). destruct res; discriminate.
              ** intros b evs5 [Hprints [(u & Hu) | (e & He)]]; [discriminate |].
                 injection He as ->. simpl.
                 apply (steps_diagnostics_failed pin device_path sm e
                          (EvPrint _ :: EvPrint _ :: EvPrint _ :: evs5)).
                 repeat (constructor; [exact I |]). exact Hprints.
              ** intros evs5 [_ [(u & Hu) | (e & He)]]; discriminate.
           ++ intros b evs4 [H _]. discriminate.
           ++ intros evs4 [H _]. discriminate.
        -- intros b evs3 [H _]. discriminate.
        -- intros evs3 [H _]. discriminate.
      * intros b evs2 [H _]. discriminate.
      * intros evs2 [H _]. discriminate.
    + intros b evs1 (res & -> & Hres). destruct res as [| e]; [discriminate |].
      injection Hres as ->. simpl. constructor.
    + intros evs1 (res & -> & Hres). destruct res; discriminate.
  - intros b evs0 (sm & H & _). discriminate.
  - intros evs0 (sm & H & _). discriminate.
Qed.

Lemma in_prints_not (prints : list event) ev :
  Forall is_print prints -> In ev prints -> exists line, ev = EvPrint line.
Proof.
  intros H Hin. rewrite Forall_forall in H. specialize (H _ Hin).
  destruct ev; simpl in H; try contradiction. eauto.
Qed.

Lemma connect_run_events sm pin device_path r evs :
  connect_run sm pin device_path r evs ->
  exists res rest, evs = EvInit sm res :: rest.
Proof. intros H. inversion H; subst; eauto. Qed.

(** X6.  Every call of [init_state_machine] begins by creating a state
    machine and writing the file [/tmp/gammu.config], whose content is
    the section header and the three settings: the device path given,
    the connection type [at] and the timeout 40, each on a line of its
    own. *)
Theorem init_writes_the_connection_profile pin device_path w :
  exists sm r rest,
    events_of (init_state_machine pin device_path) w
      = EvStateMachine sm ::
        EvWriteFile "/tmp/gammu.config"
          ("[gammu]" ++ nl ++ "device = " ++ device_path ++ nl ++
           "connection = at" ++ nl ++ "commtimeout = 40" ++ nl) r ::
        rest.
Proof.
  pose proof (traced_run _ _ (init_state_machine_steps pin device_path) w) as H.
  inversion H; subst; do 3 eexists; reflexivity.
Qed.

(** X7.  When the configuration file cannot be written,
    [init_state_machine] raises that error: nothing is printed and the
    driver is not touched. *)
Theorem init_write_failure_is_raised pin device_path w path content e :
  In (EvWriteFile path content (Err e))
     (events_of (init_state_machine pin device_path) w) ->
  outcome_of (init_state_machine pin device_path) w = Raised (Exc e) /\
  exists sm,
    events_of (init_state_machine pin device_path) w
      = [EvStateMachine sm; EvWriteFile path content (Err e)].
Proof.
  intros Hin.
  pose proof (traced_run _ _ (init_state_machine_steps pin device_path) w) as H.
  inversion H as [sm e' Hr Hevs | sm e' prints Hp Hr Hevs
                 | sm e' prints Hp Hr Hevs | sm prints r evs Hp Hconn Hr Hevs];
    rewrite <- Hevs in Hin.
  - destruct Hin as [Heq | [Heq | []]]; [discriminate |].
    injection Heq as <- <- <-. eauto.
  - destruct Hin as [Heq | [Heq | Hin]]; try discriminate.
    destruct (in_prints_not _ _ Hp Hin) as [line Hl]. discriminate.
  - destruct Hin as [Heq | [Heq | Hin]]; try discriminate.
    apply in_app_or in Hin. destruct Hin as [Hin | [Heq | []]]; [| discriminate].
    destruct (in_prints_not _ _ Hp Hin) as [line Hl]. discriminate.
  - destruct Hin as [Heq | [Heq | Hin]]; try discriminate.
    apply in_app_or in Hin. destruct Hin as [Hin | [Heq | Hin]]; [| discriminate |].
    + destruct (in_prints_not _ _ Hp Hin) as [line Hl]. discriminate.
    + exfalso. inversion Hconn as [x Hc | x names Hc | r' evs' Hsec]; subst.
      * destruct Hin as [Heq | [Heq | []]]; discriminate.
      * destruct Hin as [Heq | [Heq | [Heq | Hin]]]; try discriminate.
        destruct (in_prints_not _ _ (listing_prints names) Hin) as [line Hl].
        discriminate.
      * destruct Hin as [Heq | [Heq | Hin]]; try discriminate.
        inversion Hsec; subst; simpl in Hin;
          repeat (destruct Hin as [Heq | Hin]; [discriminate |]); exact Hin.
Qed.

(** Where the events of the outer [try] sit in a run. *)
Lemma init_steps_connect pin device_path r evs ev :
  init_steps pin device_path r evs ->
  In ev evs -> ~ preparation ev -> (forall sm, ev <> EvStateMachine sm) ->
  exists sm prints r' evs',
    Forall is_print prints /\
    connect_run sm pin device_path r' evs' /\
    r = handle_of sm r' /\
    evs = (EvStateMachine sm ::
           EvWriteFile config_file (config_content device_path) (Ok tt) ::
           prints ++ EvReadConfig sm config_file (Ok tt) :: evs')%list /\
    In ev evs'.
Proof.
  intros Hrun Hin Hprep Hsm.
  inversion Hrun as [sm e | sm e prints Hp | sm e prints Hp | sm prints r' evs' Hp Hconn];
    subst.
  - exfalso. destruct Hin as [<- | [<- | []]]; [eapply Hsm; reflexivity | apply Hprep; exact I].
  - exfalso. destruct Hin as [<- | [<- | Hin]];
      [eapply Hsm; reflexivity | apply Hprep; exact I |].
    destruct (in_prints_not _ _ Hp Hin) as [line ->]. apply Hprep. exact I.
  - exfalso. destruct Hin as [<- | [<- | Hin]];
      [eapply Hsm; reflexivity | apply Hprep; exact I |].
    apply in_app_or in Hin. destruct Hin as [Hin | [<- | []]]; [| apply Hprep; exact I].
    destruct (in_prints_not _ _ Hp Hin) as [line ->]. apply Hprep. exact I.
  - exists sm, prints, r', evs'. repeat (split; [assumption || reflexivity |]).
    destruct Hin as [<- | [<- | Hin]];
      [exfalso; eapply Hsm; reflexivity | exfalso; apply Hprep; exact I |].
    apply in_app_or in Hin. destruct Hin as [Hin | [<- | Hin]];
      [| exfalso; apply Hprep; exact I | exact Hin].
    exfalso. destruct (in_prints_not _ _ Hp Hin) as [line ->]. apply Hprep. exact I.
Qed.


(** X8.  When [ReadConfig] fails, [init_state_machine] raises that
    error, and the failed call is the last thing it does: the driver
    is never initialized. *)
Theorem init_read_config_failure_is_raised pin device_path w sm filename e :
  In (EvReadConfig sm filename (Err e))
     (events_of (init_state_machine pin device_path) w) ->
  outcome_of (init_state_machine pin device_path) w = Raised (Exc e) /\
  exists before,
    events_of (init_state_machine pin device_path) w
      = (before ++ [EvReadConfig sm filename (Err e)])%list /\
    forall sm' r, ~ In (EvInit sm' r) before.
Proof.
  intros Hin.
  pose proof (traced_run _ _ (init_state_machine_steps pin device_path) w) as H.
  inversion H as [sm0 e' Hr Hevs | sm0 e' prints Hp Hr Hevs
                 | sm0 e' prints Hp Hr Hevs | sm0 prints r evs Hp Hconn Hr Hevs];
    rewrite <- Hevs in Hin.
  - destruct Hin as [Heq | [Heq | []]]; discriminate.
  - destruct Hin as [Heq | [Heq | Hin]]; try discriminate.
    destruct (in_prints_not _ _ Hp Hin) as [line Hl]. discriminate.
  - destruct Hin as [Heq | [Heq | Hin]]; try discriminate.
    apply in_app_or in Hin. destruct Hin as [Hin | [Heq | []]].
    + destruct (in_prints_not _ _ Hp Hin) as [line Hl]. discriminate.
    + injection Heq as <- <- <-. split; [reflexivity |].
      exists (EvStateMachine sm0 ::
              EvWriteFile config_file (config_content device_path) (Ok tt) :: prints).
      split; [reflexivity |].
      intros sm' r [Heq | [Heq | Hin]]; try discriminate.
      destruct (in_prints_not _ _ Hp Hin) as [line Hl]. discriminate.
  - exfalso. destruct Hin as [Heq | [Heq | Hin]]; try discriminate.
    apply in_app_or in Hin. destruct Hin as [Hin | [Heq | Hin]]; [| discriminate |].
    + destruct (in_prints_not _ _ Hp Hin) as [line Hl]. discriminate.
    + inversion Hconn as [x Hc | x names Hc | r' evs' Hsec]; subst.
      * destruct Hin as [Heq | [Heq | []]]; discriminate.
      * destruct Hin as [Heq | [Heq | [Heq | Hin]]]; try discriminate.
        destruct (in_prints_not _ _ (listing_prints names) Hin) as [line Hl].
        discriminate.
      * destruct Hin as [Heq | [Heq | Hin]]; try discriminate.
        inversion Hsec; subst; simpl in Hin;
          repeat (destruct Hin as [Heq | Hin]; [discriminate |]); exact Hin.
Qed.

(** X9.  The driver is initialized only on the state machine created
    by the call, and only after the configuration file has been
    written and [ReadConfig] has read it, both without error; between
    the two nothing happens but printing. *)
Theorem init_only_after_the_profile_is_read pin device_path w sm r :
  In (EvInit sm r) (events_of (init_state_machine pin device_path) w) ->
  exists prints rest,
    Forall is_print prints /\
    events_of (init_state_machine pin device_path) w
      = (EvStateMachine sm ::
         EvWriteFile config_file (config_content device_path) (Ok tt) ::
         prints ++
         EvReadConfig sm config_file (Ok tt) :: EvInit sm r :: rest)%list /\
    forall sm' r', ~ In (EvInit sm' r') rest.
Proof.
  intros Hin.
  pose proof (traced_run _ _ (init_state_machine_steps pin device_path) w) as H.
  destruct (init_steps_connect _ _ _ _ _ H Hin)
    as (sm0 & prints & r' & evs' & Hp & Hconn & Hr & Hevs & Hin');
    [simpl; tauto | discriminate |].
  exists prints. rewrite Hevs.
  inversion Hconn as [x Hc | x names Hc | r'' evs'' Hsec]; subst r' evs'.
  - destruct Hin' as [Heq | [Heq | []]]; [| discriminate].
    injection Heq as -> <-. eexists. split; [exact Hp |]. split; [reflexivity |].
    intros sm' r' [Heq | []]. discriminate.
  - destruct Hin' as [Heq | [Heq | [Heq | Hin']]]; try discriminate.
    + injection Heq as -> <-. eexists. split; [exact Hp |]. split; [reflexivity |].
      intros sm' r' [Heq | [Heq | Hl]]; try discriminate.
      destruct (in_prints_not _ _ (listing_prints names) Hl) as [line Hline].
      discriminate.
    + destruct (in_prints_not _ _ (listing_prints names) Hin') as [line Hl].
      discriminate.
  - destruct Hin' as [Heq | [Heq | Hin']]; try discriminate.
    + injection Heq as -> <-. eexists. split; [exact Hp |]. split; [reflexivity |].
      intros sm' r' [Heq | Hl]; [discriminate |].
      eapply security_run_no_init; eassumption.
    + exfalso. eapply security_run_no_init; eassumption.
Qed.




(** X13.  [init_state_machine] ends in [SystemExit] for one reason
    only: the status is 1, the SIM has reported that a PIN is
    required, and the pin supplied is [None] or empty. *)
Theorem init_exits_only_for_a_missing_pin pin device_path w status :
  outcome_of (init_state_machine pin device_path) w = Raised (SystemExit status) ->
  status = 1 /\ pin_missing pin = true /\
  exists sm before,
    events_of (init_state_machine pin device_path) w
      = (before ++
         [EvGetSecurityStatus sm (Ok (Some "PIN"));
          EvPrint "SIM security status: PIN";
          EvPrint "PIN is required but not provided."])%list.
Proof.
  intros Hout.
  pose proof (traced_run _ _ (init_state_machine_steps pin device_path) w) as H.
  rewrite Hout in H.
  inversion H as [sm e Hr Hevs | sm e prints Hp Hr Hevs
                 | sm e prints Hp Hr Hevs | sm prints r evs Hp Hconn Hr Hevs].
  inversion Hconn as [x Hc | x names Hc | r' evs' Hsec]; subst r evs;
    try discriminate Hr.
  inversion Hsec as [e | s Hs | s Hs Hm | s p' Hs Hp' Hm | s p' e Hs Hp' Hm];
    subst r' evs'; try discriminate Hr.
  injection Hr as <-. split; [reflexivity |]. split; [exact Hm |].
  assert (s = Some "PIN") as ->.
  { destruct s as [t |]; simpl in Hs; [| discriminate].
    apply String.eqb_eq in Hs. congruence. }
  exists sm,
    (EvStateMachine sm ::
     EvWriteFile config_file (config_content device_path) (Ok tt) ::
     prints ++
     [EvReadConfig sm config_file (Ok tt); EvInit sm (Ok tt);
      EvPrint ("Successfully initialized gammu with device: " ++ device_path)])%list.
  simpl. rewrite <- app_assoc. reflexivity.
Qed.

Lemma security_run_machine sm pin r evs :
  security_run sm pin r evs ->
  Forall (fun ev => forall sm', event_machine ev = Some sm' -> sm' = sm) evs.
Proof.
  intros H. inversion H; subst; repeat constructor; simpl; congruence.
Qed.

Lemma prints_machine (sm : StateMachine) (prints : list event) :
  Forall is_print prints ->
  Forall (fun ev => forall sm', event_machine ev = Some sm' -> sm' = sm) prints.
Proof.
  intros H. eapply Forall_impl; [| exact H].
  intros [] Hp; simpl in *; try contradiction. discriminate.
Qed.

(** X14.  [init_state_machine] works on one state machine only: the
    one it creates first.  Every driver call of the run is made on
    it, and it is the one the call returns. *)
Theorem init_uses_the_state_machine_it_creates pin device_path w :
  exists sm,
    hd_error (events_of (init_state_machine pin device_path) w)
      = Some (EvStateMachine sm) /\
    Forall (fun ev => forall sm', event_machine ev = Some sm' -> sm' = sm)
           (events_of (init_state_machine pin device_path) w) /\
    forall sm', outcome_of (init_state_machine pin device_path) w = Returned sm' ->
                sm' = sm.
Proof.
  pose proof (traced_run _ _ (init_state_machine_steps pin device_path) w) as H.
  inversion H as [sm e Hr Hevs | sm e prints Hp Hr Hevs
                 | sm e prints Hp Hr Hevs | sm prints r evs Hp Hconn Hr Hevs];
    exists sm; (split; [reflexivity |]); (split; [| try (intros sm' Hs; discriminate Hs)]).
  - repeat constructor; simpl; congruence.
  - constructor; [simpl; congruence |]. constructor; [simpl; congruence |].
    apply prints_machine. exact Hp.
  - constructor; [simpl; congruence |]. constructor; [simpl; congruence |].
    apply Forall_app. split; [apply prints_machine; exact Hp |].
    repeat constructor; simpl; congruence.
  - constructor; [simpl; congruence |]. constructor; [simpl; congruence |].
    apply Forall_app. split; [apply prints_machine; exact Hp |].
    constructor; [simpl; congruence |].
    inversion Hconn as [x Hc | x names Hc | r' evs' Hsec]; subst.
    + repeat constructor; simpl; congruence.
    + constructor; [simpl; congruence |]. constructor; [simpl; congruence |].
      constructor; [simpl; congruence |].
      apply prints_machine. apply listing_prints.
    + constructor; [simpl; congruence |]. constructor; [simpl; congruence |].
      eapply security_run_machine; eassumption.
  - intros sm' Hs. destruct r; simpl in Hs; congruence.
Qed.

(** ** The edges of retrieval and deletion *)

(** The events that a retrieval on [machine] may add. *)
Definition retrieval_event (machine : StateMachine) (ev : event) : Prop :=
  match ev with
  | EvGetSMSStatus sm _ | EvGetNextSMS sm _ _ _ _ => sm = machine
  | EvLinkSMS _ _ | EvDecodeSMS _ _ | EvPrint _ => True
  | _ => False
  end.

(** The events that a deletion on [machine] may add. *)
Definition deletion_event (machine : StateMachine) (ev : event) : Prop :=
  match ev with
  | EvDeleteSMS sm folder _ _ => sm = machine /\ folder = 0
  | EvPrint _ => True
  | _ => False
  end.

Definition index_error : Exception := mkExc IndexError "list index out of range".

Lemma fetch_run_all_fetches machine start current n responses failure evs :
  fetch_run machine start current n responses failure evs ->
  Forall (fun ev => is_fetch ev = true /\ retrieval_event machine ev) evs.
Proof.
  induction 1 as [| start current n r responses failure evs1 evs Hstep Hrun IH
                  | start current n e evs1 Hstep].
  - constructor.
  - apply Forall_app. split; [| exact IH].
    inversion Hstep; subst; repeat constructor.
  - inversion Hstep; subst; repeat constructor.
Qed.

Lemma collect_run_all_decodes machine groups results failure evs :
  collect_run groups results failure evs ->
  Forall (fun ev => is_fetch ev = false /\ retrieval_event machine ev /\
                    forall line, ev <> EvPrint line) evs.
Proof.
  induction 1; repeat constructor; auto; discriminate.
Qed.

Lemma fetch_run_empty_response machine start current n responses failure evs :
  fetch_run machine start current n responses failure evs ->
  forall before s l after,
    evs = (before ++ EvGetNextSMS machine 0 s l (Ok []) :: after)%list ->
    (List.length before + 1 < n)%nat ->
    failure = Some index_error /\ after = [].
Proof.
  induction 1 as [| start current n r responses failure evs1 evs Hstep Hrun IH
                  | start current n e evs1 Hstep];
    intros before s l after Heq Hlen.
  - destruct before; discriminate.
  - destruct (fetch_step_ok _ _ _ _ _ Hstep) as (start' & location & ->).
    destruct before as [| b before]; simpl in Heq.
    + inversion Heq; subst. simpl in Hlen.
      inversion Hrun as [| ? ? n' r' ? ? evs1' evs' Hstep' Hrun' | ? ? n' e' evs1' Hstep'];
        subst; [lia | inversion Hstep' |].
      inversion Hstep'; subst. auto.
    + injection Heq as _ Heq. eapply IH; [exact Heq | simpl in Hlen; lia].
  - inversion Hstep; subst;
      destruct before as [| b [| b' before]]; discriminate.
Qed.

(** X15.  When the expected total of the status query is zero or
    less, [retrieveAllSms] fetches nothing: right after the status it
    links the empty list, and when linking gives no group it returns
    the empty list without any further call. *)
Theorem retrieve_with_nothing_stored machine w status :
  hd_error (events_of (retrieveAllSms machine) w)
    = Some (EvGetSMSStatus machine (Ok status)) ->
  SIMUsed status + PhoneUsed status + TemplatesUsed status <= 0 ->
  exists rest,
    events_of (retrieveAllSms machine) w
      = EvGetSMSStatus machine (Ok status) ::
        EvLinkSMS [] (gammu_LinkSMS gammu []) :: rest /\
    (gammu_LinkSMS gammu [] = Ok [] ->
     rest = [] /\ outcome_of (retrieveAllSms machine) w = Returned []).
Proof.
  intros Hhd Hzero.
  pose proof (traced_run _ _ (retrieveAllSms_run machine) w) as Hrun.
  assert (Hn : forall st, st = status -> Z.to_nat (expected_total st) = 0%nat).
  { intros st ->. unfold expected_total. lia. }
  inversion Hrun as
    [ e Hr Hevs
    | st responses e fetches Hfetch Hr Hevs
    | st responses e fetches Hfetch Hlink Hr Hevs
    | st responses fetches groups results e decodes Hfetch Hlink Hcollect Hr Hevs
    | st responses fetches groups results decodes Hfetch Hlink Hcollect Hr Hevs ];
    rewrite <- Hevs in Hhd; simpl in Hhd; try discriminate Hhd;
    assert (st = status) by congruence; subst st;
    rewrite (Hn status eq_refl) in Hfetch; inversion Hfetch; subst; simpl.
  - rewrite Hlink. eexists. split; [reflexivity |]. discriminate.
  - rewrite Hlink. eexists. split; [reflexivity |].
    intros Hg. injection Hg as ->. inversion Hcollect.
  - rewrite Hlink. eexists. split; [reflexivity |].
    intros Hg. injection Hg as ->. inversion Hcollect; subst. auto.
Qed.

(** X16.  When a fetch returns an empty list and the number of fetches
    made is still below the expected total, [retrieveAllSms] makes no
    further driver call: reading element 0 of that list raises an
    [IndexError], which is reported and raised to the caller. *)
Theorem retrieve_empty_response_is_an_index_error
    machine w status before s l after :
  events_of (retrieveAllSms machine) w
    = (EvGetSMSStatus machine (Ok status) ::
       before ++ EvGetNextSMS machine 0 s l (Ok []) :: after)%list ->
  Z.of_nat (List.length before) + 1
    < SIMUsed status + PhoneUsed status + TemplatesUsed status ->
  outcome_of (retrieveAllSms machine) w = Raised (Exc index_error) /\
  after = [EvPrint "Error retrieving SMS: list index out of range"].
Proof.
  intros Hevents Hlen.
  pose proof (traced_run _ _ (retrieveAllSms_run machine) w) as Hrun.
  assert (Hn : (List.length before + 1 < Z.to_nat (expected_total status))%nat).
  { unfold expected_total. lia. }
  assert (Hsplit : forall st n responses failure fetches post,
            fetch_run machine true None n responses failure fetches ->
            Forall (fun ev => is_fetch ev = false) post ->
            EvGetSMSStatus machine (Ok st) :: fetches ++ post
              = events_of (retrieveAllSms machine) w ->
            st = status /\
            exists after', fetches
                           = (before ++ EvGetNextSMS machine 0 s l (Ok []) :: after')%list /\
                           after = (after' ++ post)%list).
  { intros st n responses failure fetches post Hfetch Hpost Heq.
    rewrite Hevents in Heq. injection Heq as -> Heq. split; [reflexivity |].
    eapply split_in_fetches; [| exact Hpost | reflexivity | exact Heq].
    eapply Forall_impl; [| eapply fetch_run_all_fetches; exact Hfetch].
    simpl. tauto. }
  assert (Hdecodes : forall groups results failure decodes,
            collect_run groups results failure decodes ->
            Forall (fun ev => is_fetch ev = false) decodes).
  { intros groups results failure decodes Hc.
    eapply Forall_impl; [| eapply (collect_run_all_decodes machine); exact Hc].
    simpl. tauto. }
  inversion Hrun as
    [ e Hr Hevs
    | st responses e fetches Hfetch Hr Hevs
    | st responses e fetches Hfetch Hlink Hr Hevs
    | st responses fetches groups results e decodes Hfetch Hlink Hcollect Hr Hevs
    | st responses fetches groups results decodes Hfetch Hlink Hcollect Hr Hevs ].
  - rewrite Hevents in Hevs. discriminate.
  - destruct (Hsplit st _ _ _ _ [retrieval_report e] Hfetch) as (-> & after' & -> & ->);
      [repeat constructor | exact Hevs |].
    destruct (fetch_run_empty_response _ _ _ _ _ _ _ Hfetch _ _ _ _ eq_refl Hn)
      as [Hf ->].
    injection Hf as ->. auto.
  - destruct (Hsplit st _ _ _ _ [EvLinkSMS responses (Err e); retrieval_report e] Hfetch)
      as (-> & after' & -> & ->); [repeat constructor | exact Hevs |].
    destruct (fetch_run_empty_response _ _ _ _ _ _ _ Hfetch _ _ _ _ eq_refl Hn)
      as [Hf _].
    discriminate.
  - destruct (Hsplit st _ _ _ _
                (EvLinkSMS responses (Ok groups) :: decodes ++ [retrieval_report e])
                Hfetch) as (-> & after' & -> & ->); [| exact Hevs |].
    { constructor; [reflexivity |]. apply Forall_app.
      split; [eapply Hdecodes; eassumption | repeat constructor]. }
    destruct (fetch_run_empty_response _ _ _ _ _ _ _ Hfetch _ _ _ _ eq_refl Hn)
      as [Hf _].
    discriminate.
  - destruct (Hsplit st _ _ _ _ (EvLinkSMS responses (Ok groups) :: decodes) Hfetch)
      as (-> & after' & -> & ->); [| exact Hevs |].
    { constructor; [reflexivity |]. eapply Hdecodes; eassumption. }
    destruct (fetch_run_empty_response _ _ _ _ _ _ _ Hfetch _ _ _ _ eq_refl Hn)
      as [Hf _].
    discriminate.
Qed.

(** X17.  [retrieveAllSms] only reads: the events of a run are the
    status query and fetches on the given state machine, the linking,
    the decodings and printed lines.  It deletes nothing, initializes
    nothing and writes no file. *)
Theorem retrieve_only_reads machine w :
  Forall (retrieval_event machine) (events_of (retrieveAllSms machine) w).
Proof.
  pose proof (traced_run _ _ (retrieveAllSms_run machine) w) as Hrun.
  assert (Hf : forall start current n responses failure fetches,
            fetch_run machine start current n responses failure fetches ->
            Forall (retrieval_event machine) fetches).
  { intros. eapply Forall_impl; [| eapply fetch_run_all_fetches; eassumption].
    simpl. tauto. }
  assert (Hd : forall groups results failure decodes,
            collect_run groups results failure decodes ->
            Forall (retrieval_event machine) decodes).
  { intros. eapply Forall_impl; [| eapply (collect_run_all_decodes machine); eassumption].
    simpl. tauto. }
  inversion Hrun; subst.
  - repeat constructor.
  - constructor; [reflexivity |]. apply Forall_app. split; [eauto | repeat constructor].
  - constructor; [reflexivity |]. apply Forall_app. split; [eauto | repeat constructor].
  - constructor; [reflexivity |]. apply Forall_app. split; [eauto |].
    constructor; [exact I |]. apply Forall_app. split; [eauto | repeat constructor].
  - constructor; [reflexivity |]. apply Forall_app. split; [eauto |].
    constructor; [exact I |]. eauto.
Qed.

Lemma no_print_in_fetches machine start current n responses failure fetches line :
  fetch_run machine start current n responses failure fetches ->
  ~ In (EvPrint line) fetches.
Proof.
  intros H Hin. pose proof (fetch_run_all_fetches _ _ _ _ _ _ _ H) as Hall.
  rewrite Forall_forall in Hall. destruct (Hall _ Hin) as [Hf _]. discriminate.
Qed.

Lemma no_print_in_decodes groups results failure decodes line :
  collect_run groups results failure decodes ->
  ~ In (EvPrint line) decodes.
Proof.
  intros H Hin. pose proof (collect_run_all_decodes 0%nat _ _ _ _ H) as Hall.
  rewrite Forall_forall in Hall. destruct (Hall _ Hin) as (_ & _ & Hp).
  eapply Hp. reflexivity.
Qed.

(** X18.  [retrieveAllSms] prints exactly when it fails.  A run that
    returns prints nothing.  A run that does not return raises an
    [Exception], never [SystemExit], and its last event, and only
    printed line, is the report of that exception. *)
Theorem retrieve_reports_exactly_its_failure machine w :
  (forall results,
     outcome_of (retrieveAllSms machine) w = Returned results ->
     forall line, ~ In (EvPrint line) (events_of (retrieveAllSms machine) w)) /\
  (forall b,
     outcome_of (retrieveAllSms machine) w = Raised b ->
     exists e before,
       b = Exc e /\
       events_of (retrieveAllSms machine) w
         = (before ++ [EvPrint ("Error retrieving SMS: " ++ exc_str e)])%list /\
       forall line, ~ In (EvPrint line) before).
Proof.
  pose proof (traced_run _ _ (retrieveAllSms_run machine) w) as Hrun.
  split.
  - intros results Hout line Hin. rewrite Hout in Hrun.
    inversion Hrun as
      [ | | | | status responses fetches groups results' decodes Hfetch Hlink Hcollect Hr Hevs ].
    rewrite <- Hevs in Hin.
    destruct Hin as [Heq | Hin]; [discriminate |].
    apply in_app_or in Hin. destruct Hin as [Hin | [Heq | Hin]]; [| discriminate |].
    + eapply no_print_in_fetches; eassumption.
    + eapply no_print_in_decodes; eassumption.
  - intros b Hout. rewrite Hout in Hrun.
    inversion Hrun as
      [ e Hr Hevs
      | status responses e fetches Hfetch Hr Hevs
      | status responses e fetches Hfetch Hlink Hr Hevs
      | status responses fetches groups results e decodes Hfetch Hlink Hcollect Hr Hevs
      | ]; exists e.
    + exists [EvGetSMSStatus machine (Err e)]. repeat split.
      intros line [Heq | []]. discriminate.
    + exists (EvGetSMSStatus machine (Ok status) :: fetches). repeat split.
      intros line [Heq | Hin]; [discriminate |].
      eapply no_print_in_fetches; eassumption.
    + exists (EvGetSMSStatus machine (Ok status) :: fetches ++
              [EvLinkSMS responses (Err e)])%list.
      split; [reflexivity |]. split.
      { simpl. rewrite <- app_assoc. reflexivity. }
      intros line [Heq | Hin]; [discriminate |].
      apply in_app_or in Hin. destruct Hin as [Hin | [Heq | []]]; [| discriminate].
      eapply no_print_in_fetches; eassumption.
    + exists (EvGetSMSStatus machine (Ok status) :: fetches ++
              EvLinkSMS responses (Ok groups) :: decodes)%list.
      split; [reflexivity |]. split.
      { simpl. rewrite <- !app_assoc. reflexivity. }
      intros line [Heq | Hin]; [discriminate |].
      apply in_app_or in Hin. destruct Hin as [Hin | [Heq | Hin]]; [| discriminate |].
      * eapply no_print_in_fetches; eassumption.
      * eapply no_print_in_decodes; eassumption.
Qed.

Lemma delete_run_events machine locations failure attempts :
  delete_run machine locations failure attempts ->
  Forall (fun ev => deletion_event machine ev /\ forall line, ev <> EvPrint line)
         attempts /\
  match failure with
  | None => True
  | Some e => exists location, In (EvDeleteSMS machine 0 location (Err e)) attempts
  end.
Proof.
  induction 1 as [| l rest failure evs Hrun [IH1 IH2] | l rest e]; simpl.
  - split; [constructor | exact I].
  - split.
    + constructor; [split; [simpl; auto | discriminate] | exact IH1].
    + destruct failure; [| exact I]. destruct IH2 as [l' Hl]. eauto.
  - split.
    + constructor; [split; [simpl; auto | discriminate] | constructor].
    + eauto.
Qed.

(** X19.  [deleteSms] does nothing but delete and report: every driver
    call of a run is a [DeleteSMS] in folder 0 on the given state
    machine, and a line is printed only after a deletion that failed,
    with the text of its error. *)
Theorem delete_only_deletes_and_reports machine sms w :
  Forall (deletion_event machine) (events_of (deleteSms machine sms) w) /\
  forall line,
    In (EvPrint line) (events_of (deleteSms machine sms) w) ->
    exists location e,
      In (EvDeleteSMS machine 0 location (Err e))
         (events_of (deleteSms machine sms) w) /\
      line = "Error deleting SMS: " ++ exc_str e.
Proof.
  destruct (traced_run _ _ (deleteSms_run machine sms) w)
    as (_ & failure & attempts & Hrun & ->).
  destruct (delete_run_events _ _ _ _ Hrun) as [Hall Hfail].
  split.
  - apply Forall_app. split.
    + eapply Forall_impl; [| exact Hall]. simpl. tauto.
    + destruct failure; repeat constructor.
  - intros line Hin. apply in_app_or in Hin. destruct Hin as [Hin | Hin].
    + exfalso. rewrite Forall_forall in Hall. destruct (Hall _ Hin) as [_ Hp].
      eapply Hp. reflexivity.
    + destruct failure as [e |]; [| destruct Hin].
      destruct Hin as [Heq | []]. injection Heq as <-.
      destruct Hfail as [location Hl]. exists location, e.
      split; [apply in_or_app; left; exact Hl | reflexivity].
Qed.

(** ** The echo of the configuration *)

Lemma rstrip_app s t : rstrip t <> "" -> rstrip (s ++ t) = s ++ rstrip t.
Proof.
  intros Ht. induction s as [| c s IH]; simpl; [reflexivity |].
  rewrite IH. destruct (s ++ rstrip t) eqn:E; [| reflexivity].
  exfalso. destruct s; simpl in E; [auto | discriminate].
Qed.

(** [strip] takes only the final newline off the configuration,
    whatever the device path, also when the path begins or ends with
    blanks. *)
Lemma strip_config_content device_path :
  strip (config_content device_path)
  = "[gammu]" ++ nl ++ "device = " ++ device_path ++ nl ++
    "connection = at" ++ nl ++ "commtimeout = 40".
Proof.
  unfold strip, config_content.
  change (lstrip ("[gammu]" ++ nl ++ "device = " ++ device_path ++ nl ++
                  "connection = at" ++ nl ++ "commtimeout = 40" ++ nl))
    with ("[gammu]" ++ nl ++ "device = " ++ device_path ++ nl ++
          "connection = at" ++ nl ++ "commtimeout = 40" ++ nl).
  change ("[gammu]" ++ nl ++ "device = " ++ device_path ++ nl ++
          "connection = at" ++ nl ++ "commtimeout = 40" ++ nl)
    with (("[gammu]" ++ nl ++ "device = ") ++ device_path ++
          (nl ++ "connection = at" ++ nl ++ "commtimeout = 40" ++ nl)).
  rewrite rstrip_app.
  - rewrite rstrip_app; [reflexivity | vm_compute; discriminate].
  - rewrite rstrip_app; [| vm_compute; discriminate].
    destruct device_path; vm_compute; discriminate.
Qed.

(** A step, then steps that only append to the trace, only append to
    the trace. *)
Lemma traced_then {A B} (m : M A) (k : A -> M B) Q1 :
  traced m Q1 -> (forall a, traced (k a) (fun _ _ => True)) ->
  traced (bind m k) (fun _ _ => True).
Proof.
  intros Hm Hk. eapply traced_bind; [exact Hm | | auto | auto].
  intros a evs1 _. eapply traced_conseq; [apply Hk | auto].
Qed.

(** The run of [init_state_machine] up to the echo of the
    configuration. *)
Lemma init_state_machine_echo pin device_path :
  traced (init_state_machine pin device_path)
    (fun r evs =>
       (exists sm e,
          evs = [EvStateMachine sm;
                 EvWriteFile config_file (config_content device_path) (Err e)]) \/
       (exists sm rest,
          evs = EvStateMachine sm ::
                EvWriteFile config_file (config_content device_path) (Ok tt) ::
                EvPrint "📄 Generated gammu config:" ::
                EvPrint (strip (config_content device_path)) ::
                EvPrint ("Config file saved to: " ++ config_file) :: rest)).
Proof.
  unfold init_state_machine.
  eapply traced_bind; [apply new_StateMachine_run | | |].
  - intros sm evs0 (sm' & Hsm & ->). injection Hsm as <-.
    eapply traced_bind; [apply call_run | | |].
    + intros [] evs1 (res & -> & Hres). destruct res as [[] |]; [| discriminate].
      eapply traced_bind; [apply print_run | | |].
      * intros [] evs2 [_ ->].
        eapply traced_bind; [apply print_run | | |].
        -- intros [] evs3 [_ ->].
           eapply traced_bind; [apply print_run | | |].
           ++ intros [] evs4 [_ ->].
              eapply traced_conseq.
              ** eapply traced_then; [apply log_device_diagnostics_emits | intros _].
                 eapply traced_then; [apply call_run | intros _].
                 eapply traced_then; [apply connect_traced | intros _].
                 apply traced_ret. exact I.
              ** simpl. intros r evs _. right. eauto.
           ++ intros b evs4 [H _]. discriminate.
           ++ intros evs4 [H _]. discriminate.
        -- intros b evs3 [H _]. discriminate.
        -- intros evs3 [H _]. discriminate.
      * intros b evs2 [H _]. discriminate.
      * intros evs2 [H _]. discriminate.
    + intros b evs1 (res & -> & Hres). destruct res as [| e]; [discriminate |].
      left. exists sm, e. reflexivity.
    + intros evs1 (res & -> & Hres). destruct res; discriminate.
  - intros b evs0 (sm & H & _). discriminate.
  - intros evs0 (sm & H & _). discriminate.
Qed.

(** X21.  After [init_state_machine] has written the configuration
    file, the next three events are printed lines: a heading, the
    configuration and the path of the file.  The configuration echoed
    is the content written without its final newline, whatever the
    device path, also when the path begins or ends with blanks. *)
Theorem echoed_configuration_is_the_file_content pin device_path w path content :
  In (EvWriteFile path content (Ok tt))
     (events_of (init_state_machine pin device_path) w) ->
  exists sm rest,
    events_of (init_state_machine pin device_path) w
      = EvStateMachine sm ::
        EvWriteFile "/tmp/gammu.config"
          ("[gammu]" ++ nl ++ "device = " ++ device_path ++ nl ++
           "connection = at" ++ nl ++ "commtimeout = 40" ++ nl) (Ok tt) ::
        EvPrint "📄 Generated gammu config:" ::
        EvPrint ("[gammu]" ++ nl ++ "device = " ++ device_path ++ nl ++
                 "connection = at" ++ nl ++ "commtimeout = 40") ::
        EvPrint "Config file saved to: /tmp/gammu.config" :: rest.
Proof.
  intros Hin.
  destruct (traced_run _ _ (init_state_machine_echo pin device_path) w)
    as [(sm & e & Hevs) | (sm & rest & Hevs)].
  - rewrite Hevs in Hin. destruct Hin as [H | [H | []]]; discriminate.
  - exists sm, rest. rewrite Hevs, strip_config_content. reflexivity.
Qed.
End Gateway.

Arguments Location {datetime udh} f.
Arguments DateTime {datetime udh} f.
Arguments Number {datetime udh} f.
Arguments State {datetime udh} f.
Arguments Text {datetime udh} f.
Arguments UDH {datetime udh} f.
Arguments mkFragment {datetime udh}.
Arguments mkGammu {datetime udh env}.
Arguments mkWorld {datetime udh env}.
Arguments w_env {datetime udh env} w.
Arguments w_trace {datetime udh env} w.
Arguments w_objects {datetime udh env} w.
Arguments EvPrint {datetime udh}.
Arguments EvWriteFile {datetime udh}.
Arguments EvStateMachine {datetime udh}.
Arguments EvReadConfig {datetime udh}.
Arguments EvInit {datetime udh}.
Arguments EvGetSecurityStatus {datetime udh}.
Arguments EvEnterSecurityCode {datetime udh}.
Arguments EvGetSMSStatus {datetime udh}.
Arguments EvGetNextSMS {datetime udh}.
Arguments EvLinkSMS {datetime udh}.
Arguments EvDecodeSMS {datetime udh}.
Arguments EvDeleteSMS {datetime udh}.
Arguments outcome_of {datetime udh env A} m w.
Arguments events_of {datetime udh env A} m w.
Arguments environment_after {datetime udh env A} m w.
Arguments fetched {datetime udh} evs.
Arguments is_fetch {datetime udh} ev.
Arguments is_delete {datetime udh} ev.
Arguments deleted_locations {datetime udh} evs.
Arguments listing {datetime udh} names.
Arguments init_state_machine {datetime udh env} gammu os pin device_path w.
Arguments retrieveAllSms {datetime} str_datetime {udh env} gammu machine w.
Arguments deleteSms {datetime udh env} gammu machine sms w.

(** ** A simulated modem *)

Module Sim.

(** The concatenation header of a fragment: reference and sequence
    number; [None] for a message of one part. *)
Definition sim_udh : Type := option (Z * Z).

Definition fragment : Type := Fragment string sim_udh.

(** The store is a list of entries; every entry is handed out by one
    fetch and usually holds one fragment.  The status counts the
    fragments. *)
Record sim_env := mkSimEnv {
  stored : list (list fragment);
  security : option string;
  init_error : option Exception;
  undeletable : list Z;
  dev_nodes : list string
}.

Definition entry_location (entry : list fragment) : option Z :=
  match entry with
  | f :: _ => Some (Location f)
  | [] => None
  end.

Definition empty_error : Exception := mkExc GSMError "ERR_EMPTY".

(** The entry after the one whose first fragment sits at [loc]. *)
Fixpoint entry_after (loc : Z) (entries : list (list fragment))
    : result (list fragment) :=
  match entries with
  | [] => Err empty_error
  | entry :: rest =>
      match entry_location entry with
      | Some l =>
          if Z.eqb l loc then
            match rest with
            | next :: _ => Ok next
            | [] => Err empty_error
            end
          else entry_after loc rest
      | None => entry_after loc rest
      end
  end.

Definition sim_GetNextSMS (sm : StateMachine) (folder : Z) (start : bool)
    (location : option Z) (e : sim_env) : result (list fragment) * sim_env :=
  (match start, location with
   | true, _ =>
       match stored e with
       | entry :: _ => Ok entry
       | [] => Err empty_error
       end
   | false, Some loc => entry_after loc (stored e)
   | false, None => Err (mkExc OtherError "TypeError")
   end, e).

Definition sim_GetSMSStatus (sm : StateMachine) (e : sim_env)
    : result SMSStatus * sim_env :=
  (Ok {| SIMUsed := Z.of_nat (List.length (List.concat (stored e))); SIMUnRead := 0;
         SIMSize := 50; PhoneUsed := 0; PhoneUnRead := 0; PhoneSize := 0;
         TemplatesUsed := 0 |}, e).

Definition sim_DeleteSMS (sm : StateMachine) (folder location : Z) (e : sim_env)
    : result unit * sim_env :=
  if existsb (Z.eqb location) (undeletable e) then
    (Err (mkExc GSMError "ERR_INVALIDLOCATION"), e)
  else
    (Ok tt,
     {| stored :=
          filter (fun entry => negb (Nat.eqb (List.length entry) 0))
            (map (filter (fun f => negb (Z.eqb (Location f) location)))
                 (stored e));
        security := security e;
        init_error := init_error e;
        undeletable := undeletable e;
        dev_nodes := dev_nodes e |}).

Definition same_reference (f : fragment) (group : list fragment) : bool :=
  match UDH f, group with
  | Some (ref, _), g :: _ =>
      match UDH g with
      | Some (ref', _) => Z.eqb ref ref'
      | None => false
      end
  | _, _ => false
  end.

(** Put a fragment into the group of its reference, or into a new
    group. *)
Fixpoint link_one (f : fragment) (groups : list (list fragment))
    : list (list fragment) :=
  match groups with
  | [] => [[f]]
  | group :: rest =>
      if same_reference f group then (group ++ [f])%list :: rest
      else group :: link_one f rest
  end.

Definition sim_LinkSMS (messages : list (list fragment))
    : result (list (list fragment)) :=
  Ok (fold_left (fun groups f => link_one f groups) (List.concat messages) []).

(** A concatenated message decodes to one text entry; a plain message
    does not decode. *)
Definition sim_DecodeSMS (messages : list fragment)
    : result (option MultiPartSMSInfo) :=
  match messages with
  | [] => Err (mkExc OtherError "ValueError")
  | f :: _ =>
      match UDH f with
      | None => Ok None
      | Some _ =>
          Ok (Some {| Entries :=
                        [ {| ID := "ConcatenatedTextLong";
                             Buffer := Some (String.concat ""
                                               (map Text messages)) |} ] |})
      end
  end.

Definition sim_Init (sm : StateMachine) (e : sim_env) : result unit * sim_env :=
  match init_error e with
  | Some err => (Err err, e)
  | None => (Ok tt, e)
  end.

Definition sim_EnterSecurityCode (sm : StateMachine) (type code : string)
    (e : sim_env) : result unit * sim_env :=
  (Ok tt,
   {| stored := stored e; security := None; init_error := init_error e;
      undeletable := undeletable e; dev_nodes := dev_nodes e |}).

Definition sim_gammu : Gammu string sim_udh sim_env :=
  {| gammu_ReadConfig := fun _ _ e => (Ok tt, e);
     gammu_Init := sim_Init;
     gammu_GetSecurityStatus := fun _ e => (Ok (security e), e);
     gammu_EnterSecurityCode := sim_EnterSecurityCode;
     gammu_GetSMSStatus := sim_GetSMSStatus;
     gammu_GetNextSMS := sim_GetNextSMS;
     gammu_DeleteSMS := sim_DeleteSMS;
     gammu_LinkSMS := sim_LinkSMS;
     gammu_DecodeSMS := sim_DecodeSMS |}.

Definition sim_os : OS sim_env :=
  {| os_stat := fun _ _ => Ok {| st_mode := 8624; st_uid := 0; st_gid := 20;
                                 st_rdev := 48128 |};
     os_path_islink := fun _ _ => false;
     os_path_realpath := fun path _ => path;
     stat_filemode := fun _ => "crw-rw----";
     stat_S_ISCHR := fun _ => true;
     os_major := fun rdev => rdev / 256;
     os_minor := fun rdev => rdev mod 256;
     pwd_getpwuid := fun _ _ => Ok "root";
     grp_getgrgid := fun _ _ => Ok "dialout";
     open_rb := fun _ _ => Ok tt;
     open_w_write := fun _ _ e => (Ok tt, e);
     glob_glob := fun _ e =>
       Ok (map (fun d => "/dev/" ++ d)
               (filter (fun d => prefix "tty" d) (dev_nodes e)));
     os_listdir := fun _ e => Ok (dev_nodes e) |}.

Definition part (location : Z) (date number text : string) (header : sim_udh)
    : fragment :=
  {| Location := location; Folder := 1; DateTime := date; Number := number;
     State := "UnRead"; Text := text; UDH := header |}.

Definition world (e : sim_env) : World string sim_udh sim_env :=
  {| w_env := e; w_trace := []; w_objects := 1 |}.

(** Three stored fragments: a message of two parts and a message of
    one. *)
Definition three_fragments : sim_env :=
  {| stored := [ [part 1 "2024-05-01 10:00:00" "+420123" "Hello, " (Some (7, 1))];
                 [part 2 "2024-05-01 10:00:05" "+420123" "world" (Some (7, 2))];
                 [part 3 "2024-05-02 08:30:00" "+420999" "Ping" None] ];
     security := None;
     init_error := None;
     undeletable := [];
     dev_nodes := ["null"; "ttyUSB0"; "tty1"] |}.

End Sim.

(** ** The theorems at work on the simulated modem *)

Module Scenario.

Import Sim.

Definition retrieve := retrieveAllSms (fun date : string => date) sim_gammu 0%nat.

Definition initialize (pin : option string) :=
  init_state_machine sim_gammu sim_os pin default_device_path.

Definition hello : fragment :=
  part 1 "2024-05-01 10:00:00" "+420123" "Hello, " (Some (7, 1)).

Definition hello_end : fragment :=
  part 2 "2024-05-01 10:00:05" "+420123" "world" (Some (7, 2)).

Definition ping : fragment := part 3 "2024-05-02 08:30:00" "+420999" "Ping" None.

Definition hello_world : Sms :=
  {| sms_Date := "2024-05-01 10:00:00"; sms_Number := "+420123";
     sms_State := "UnRead"; sms_Locations := [1; 2]; sms_Text := "Hello, world" |}.

Definition ping_message : Sms :=
  {| sms_Date := "2024-05-02 08:30:00"; sms_Number := "+420999";
     sms_State := "UnRead"; sms_Locations := [3]; sms_Text := "Ping" |}.

(** The two parts of the first message, handed out by one fetch. *)
Definition bundled : sim_env :=
  {| stored := [ [hello; hello_end] ];
     security := None; init_error := None; undeletable := [];
     dev_nodes := ["ttyUSB0"] |}.

(** The three fragments, the first of which cannot be deleted. *)
Definition stubborn : sim_env :=
  {| stored := stored three_fragments;
     security := None; init_error := None; undeletable := [1];
     dev_nodes := ["ttyUSB0"] |}.

Definition locked : sim_env :=
  {| stored := []; security := Some "PIN"; init_error := None;
     undeletable := []; dev_nodes := ["ttyUSB0"] |}.

Definition no_sim : sim_env :=
  {| stored := []; security := None;
     init_error := Some (mkExc ERR_NOSIM "Can not access SIM card.");
     undeletable := []; dev_nodes := ["ttyUSB0"] |}.

Definition unplugged : sim_env :=
  {| stored := []; security := None;
     init_error := Some (mkExc GSMError "Error opening device, it doesn't exist.");
     undeletable := []; dev_nodes := ["null"; "ttyS1"; "tty0"] |}.

End Scenario.

Import Sim Scenario.

(** The retrieval from the three fragments returns two logical
    messages, one with two locations and one with one. *)
Example retrieve_three_fragments :
  outcome_of retrieve (world three_fragments) = Returned [hello_world; ping_message].
Proof. reflexivity. Qed.

(** C1 fails as stated: the status reports two fragments and the first
    fetch returns both, so the fragments fetched have reached the
    expected total; the loop does not stop there, it fetches again, and
    the retrieval ends in the error of that fetch. *)
Lemma C1_fetches_counted_not_fragments :
  events_of retrieve (world bundled)
    = [EvGetSMSStatus 0%nat
         (Ok {| SIMUsed := 2; SIMUnRead := 0; SIMSize := 50; PhoneUsed := 0;
                PhoneUnRead := 0; PhoneSize := 0; TemplatesUsed := 0 |});
       EvGetNextSMS 0%nat 0 true None (Ok [hello; hello_end]);
       EvGetNextSMS 0%nat 0 false (Some 1) (Err empty_error);
       EvPrint "Error retrieving SMS: ERR_EMPTY"] /\
  Z.of_nat (List.length [hello; hello_end]) = 2 + 0 + 0 /\
  outcome_of retrieve (world bundled) = Raised (Exc empty_error).
Proof. repeat split. Qed.

Lemma C1_three_fragments :
  exists status groups,
    hd_error (events_of retrieve (world three_fragments))
      = Some (EvGetSMSStatus 0%nat (Ok status)) /\
    In (EvLinkSMS (fetched (events_of retrieve (world three_fragments))) (Ok groups))
       (events_of retrieve (world three_fragments)) /\
    List.length (filter is_fetch (events_of retrieve (world three_fragments)))
      = Z.to_nat (SIMUsed status + PhoneUsed status + TemplatesUsed status) /\
    List.length (fetched (events_of retrieve (world three_fragments)))
      = Z.to_nat (SIMUsed status + PhoneUsed status + TemplatesUsed status) /\
    Forall (fun response => List.length response = 1%nat)
           (fetched (events_of retrieve (world three_fragments))) /\
    List.length (List.concat groups)
      = List.length (List.concat (fetched (events_of retrieve (world three_fragments)))) /\
    fragment_total [hello_world; ping_message]
      = Z.max 0 (SIMUsed status + PhoneUsed status + TemplatesUsed status).
Proof.
  destruct (C1_fetches_reach_expected_total _ (fun date => date) _ _ sim_gammu 0%nat
              (world three_fragments) [hello_world; ping_message] eq_refl)
    as (status & groups & Hstatus & Hlink & Hfetches & Hresponses & Htotal).
  assert (Hsingle : Forall (fun response : list fragment => List.length response = 1%nat)
                      (fetched (events_of retrieve (world three_fragments)))).
  { vm_compute. repeat constructor. }
  assert (Hkept : List.length (List.concat groups)
                  = List.length
                      (List.concat (fetched (events_of retrieve (world three_fragments))))).
  { vm_compute in Hlink.
    repeat (destruct Hlink as [Hlink | Hlink]; [try discriminate Hlink |]);
      [injection Hlink as <-; reflexivity | destruct Hlink]. }
  exists status, groups. auto 10.
Defined.

Lemma C2_three_fragments :
  exists groups,
    In (EvLinkSMS (fetched (events_of retrieve (world three_fragments))) (Ok groups))
       (events_of retrieve (world three_fragments)) /\
    Forall2 (fun sms result =>
               sms_Locations result = map Location sms /\
               List.length (sms_Locations result) = List.length sms /\
               forall deleter w',
                 (forall location e,
                    ~ In (EvDeleteSMS deleter 0 location (Err e))
                         (events_of (deleteSms sim_gammu deleter result) w')) ->
                 events_of (deleteSms sim_gammu deleter result) w'
                   = map (fun location => EvDeleteSMS deleter 0 location (Ok tt))
                         (sms_Locations result))
            groups [hello_world; ping_message].
Proof.
  exact (C2_locations_of_every_fragment _ (fun date => date) _ _ sim_gammu 0%nat
           (world three_fragments) [hello_world; ping_message] eq_refl).
Defined.

(** C2 fails as stated: the first message returned lists two
    locations; the first of them cannot be deleted, and [deleteSms]
    issues one deletion call for that message, not two. *)
Lemma C2_failed_deletion_issues_fewer_calls :
  outcome_of retrieve (world stubborn) = Returned [hello_world; ping_message] /\
  List.length (sms_Locations hello_world) = 2%nat /\
  events_of (deleteSms sim_gammu 0%nat hello_world) (snd (retrieve (world stubborn)))
    = [EvDeleteSMS 0%nat 0 1 (Err (mkExc GSMError "ERR_INVALIDLOCATION"));
       EvPrint "Error deleting SMS: ERR_INVALIDLOCATION"] /\
  List.length
    (filter is_delete
       (events_of (deleteSms sim_gammu 0%nat hello_world)
          (snd (retrieve (world stubborn))))) = 1%nat.
Proof. repeat split. Qed.

(** A message whose locations are given in the order 2, 1, 3. *)
Definition scattered : Sms :=
  {| sms_Date := "2024-05-01 10:00:00"; sms_Number := "+420123";
     sms_State := "UnRead"; sms_Locations := [2; 1; 3]; sms_Text := "" |}.

(** C3 fails as stated: the deletion of location 1 fails, and the
    deletion of the remaining location 3, which would succeed, is never
    attempted. *)
Lemma C3_no_deletion_after_a_failure :
  sms_Locations scattered = [2; 1; 3] /\
  events_of (deleteSms sim_gammu 0%nat scattered) (world stubborn)
    = [EvDeleteSMS 0%nat 0 2 (Ok tt);
       EvDeleteSMS 0%nat 0 1 (Err (mkExc GSMError "ERR_INVALIDLOCATION"));
       EvPrint "Error deleting SMS: ERR_INVALIDLOCATION"] /\
  deleted_locations (events_of (deleteSms sim_gammu 0%nat scattered) (world stubborn))
    = [2; 1] /\
  fst (sim_DeleteSMS 0%nat 0 3 stubborn) = Ok tt /\
  outcome_of (deleteSms sim_gammu 0%nat scattered) (world stubborn) = Returned tt.
Proof. repeat split. Qed.

(** A driver that decodes every message to a dict without entries. *)
Definition entryless_gammu : Gammu string sim_udh sim_env :=
  {| gammu_ReadConfig := gammu_ReadConfig _ _ _ sim_gammu;
     gammu_Init := sim_Init;
     gammu_GetSecurityStatus := gammu_GetSecurityStatus _ _ _ sim_gammu;
     gammu_EnterSecurityCode := sim_EnterSecurityCode;
     gammu_GetSMSStatus := sim_GetSMSStatus;
     gammu_GetNextSMS := sim_GetNextSMS;
     gammu_DeleteSMS := sim_DeleteSMS;
     gammu_LinkSMS := sim_LinkSMS;
     gammu_DecodeSMS := fun _ => Ok (Some {| Entries := [] |}) |}.

(** Only the message of one part is stored. *)
Definition lone_ping : sim_env :=
  {| stored := [ [ping] ]; security := None; init_error := None;
     undeletable := []; dev_nodes := ["ttyUSB0"] |}.

(** C4 fails as stated: decoding yields a dict with no entries, and the
    [Text] of the message is the empty string, not the raw text [Ping]
    of its first fragment. *)
Lemma C4_decoded_without_entries :
  gammu_DecodeSMS _ _ _ entryless_gammu [ping] = Ok (Some {| Entries := [] |}) /\
  Text ping = "Ping" /\
  outcome_of (retrieveAllSms (fun date => date) entryless_gammu 0%nat)
             (world lone_ping)
    = Returned [ {| sms_Date := "2024-05-02 08:30:00"; sms_Number := "+420999";
                    sms_State := "UnRead"; sms_Locations := [3];
                    sms_Text := "" |} ].
Proof. repeat split. Qed.

Lemma C4_three_fragments :
  exists groups,
    In (EvLinkSMS (fetched (events_of retrieve (world three_fragments))) (Ok groups))
       (events_of retrieve (world three_fragments)) /\
    Forall2 (fun sms result =>
               exists first decodedSms,
                 hd_error sms = Some first /\
                 gammu_DecodeSMS _ _ _ sim_gammu sms = Ok decodedSms /\
                 sms_Text result =
                   match decodedSms with
                   | None => Text first
                   | Some decoded =>
                       String.concat "" (non_null_buffers (Entries decoded))
                   end)
            groups [hello_world; ping_message].
Proof.
  exact (C4_text_decoded_or_first_fragment _ (fun date => date) _ _ sim_gammu 0%nat
           (world three_fragments) [hello_world; ping_message] eq_refl).
Defined.

(** The first fetch is from the start; the second passes location 1,
    the location of the fragment that the first returned. *)
Lemma C5_three_fragments :
  (exists r rest,
     events_of retrieve (world three_fragments)
       = EvGetSMSStatus 0%nat
           (Ok {| SIMUsed := 3; SIMUnRead := 0; SIMSize := 50; PhoneUsed := 0;
                  PhoneUnRead := 0; PhoneSize := 0; TemplatesUsed := 0 |}) ::
         EvGetNextSMS 0%nat 0 true None r :: rest) /\
  (exists r rest,
     skipn 2 (events_of retrieve (world three_fragments))
       = EvGetNextSMS 0%nat 0 false (Some 1) r :: rest).
Proof.
  destruct (C5_fetch_continuation _ (fun date => date) _ _ sim_gammu 0%nat
              (world three_fragments)) as (_ & Hfirst & Hnext).
  split.
  - apply Hfirst; [reflexivity | simpl; lia].
  - apply (Hnext {| SIMUsed := 3; SIMUnRead := 0; SIMSize := 50; PhoneUsed := 0;
                    PhoneUnRead := 0; PhoneSize := 0; TemplatesUsed := 0 |}
                 [] true None hello []); [reflexivity | simpl; lia].
Defined.

Lemma C10_three_fragments :
  exists groups,
    In (EvLinkSMS (fetched (events_of retrieve (world three_fragments))) (Ok groups))
       (events_of retrieve (world three_fragments)) /\
    Forall2 (fun sms result =>
               exists first later,
                 sms = first :: later /\
                 sms_Date result = DateTime first /\
                 sms_Number result = Number first /\
                 sms_State result = State first)
            groups [hello_world; ping_message].
Proof.
  exact (C10_header_fields_of_first_fragment _ (fun date => date) _ _ sim_gammu 0%nat
           (world three_fragments) [hello_world; ping_message] eq_refl).
Defined.

Lemma C8_failed_fetch :
  outcome_of retrieve (world bundled) = Raised (Exc empty_error) /\
  exists before,
    events_of retrieve (world bundled)
      = (before ++ [EvGetNextSMS 0%nat 0 false (Some 1) (Err empty_error);
                    EvPrint ("Error retrieving SMS: " ++ exc_str empty_error)])%list.
Proof.
  refine (C8_retrieval_errors_propagate _ (fun date => date) _ _ sim_gammu 0%nat
            (world bundled)
            (EvGetNextSMS 0%nat 0 false (Some 1) (Err empty_error)) empty_error
            _ eq_refl).
  vm_compute. repeat (first [left; reflexivity | right]).
Defined.

Lemma C6_locked_sim_no_pin :
  exists status,
    outcome_of (initialize None) (world locked) = Raised (SystemExit status) /\
    status <> 0 /\
    exists before,
      events_of (initialize None) (world locked)
        = (before ++
           [EvGetSecurityStatus 1%nat (Ok (Some "PIN"));
            EvPrint "SIM security status: PIN";
            EvPrint "PIN is required but not provided."])%list.
Proof.
  refine (C6_missing_pin_exits _ _ _ sim_gammu sim_os None default_device_path
            (world locked) 1%nat eq_refl _).
  vm_compute. repeat (first [left; reflexivity | right]).
Defined.

Lemma C7_sim_absent :
  outcome_of (initialize None) (world no_sim) = Returned 1%nat /\
  exists before,
    In (EvStateMachine 1%nat) before /\
    events_of (initialize None) (world no_sim)
      = (before ++
         [EvInit 1%nat (Err (mkExc ERR_NOSIM "Can not access SIM card."));
          EvPrint "Warning: SIM card not accessible, but device is connected"])%list.
Proof.
  refine (C7_no_sim_returns_handle _ _ _ sim_gammu sim_os None default_device_path
            (world no_sim) 1%nat (mkExc ERR_NOSIM "Can not access SIM card.")
            eq_refl _).
  vm_compute. repeat (first [left; reflexivity | right]).
Defined.

(** [/dev/] holds [null], [ttyS1] and [tty0]: the two tty nodes are
    listed. *)
Lemma C9_device_unplugged :
  outcome_of (initialize None) (world unplugged)
    = Raised (Exc (mkExc GSMError "Error opening device, it doesn't exist.")) /\
  exists before shown,
    events_of (initialize None) (world unplugged)
      = (before ++
         EvInit 1%nat (Err (mkExc GSMError "Error opening device, it doesn't exist.")) ::
         EvPrint ("Error initializing device: "
                    ++ "Error opening device, it doesn't exist.") ::
         EvPrint "Available devices:" ::
         map (fun device => EvPrint ("  /dev/" ++ device)) shown)%list /\
    Permutation shown ["ttyS1"; "tty0"] /\ Sorted string_le shown.
Proof.
  refine (C9_other_init_failure_reraised _ _ _ sim_gammu sim_os None
            default_device_path (world unplugged) 1%nat
            (mkExc GSMError "Error opening device, it doesn't exist.") _ _).
  - discriminate.
  - vm_compute. repeat (first [left; reflexivity | right]).
Defined.

(** ** The further properties at work *)

Arguments _describe_device_permissions {datetime udh env} os device_path w.
Arguments log_device_diagnostics {datetime udh env} os device_path w.
Arguments is_print {datetime udh} ev.

(** The simulated modem and system with single answers replaced. *)
Module Faults.

Import Sim Scenario.

(** The node of a serial device: a character device of user 0 and
    group 20, major 188, minor 0. *)
Definition device_node : stat_result :=
  {| st_mode := 8624; st_uid := 0; st_gid := 20; st_rdev := 48128 |}.

(** [sim_os] with the answers of [os.stat], of the lookup of the owner
    and of the writing of a file replaced. *)
Definition os_with (found : result stat_result) (owner : result string)
    (written : result unit) : OS sim_env :=
  {| os_stat := fun _ _ => found;
     os_path_islink := os_path_islink _ sim_os;
     os_path_realpath := os_path_realpath _ sim_os;
     stat_filemode := stat_filemode _ sim_os;
     stat_S_ISCHR := stat_S_ISCHR _ sim_os;
     os_major := os_major _ sim_os;
     os_minor := os_minor _ sim_os;
     pwd_getpwuid := fun _ _ => owner;
     grp_getgrgid := grp_getgrgid _ sim_os;
     open_rb := open_rb _ sim_os;
     open_w_write := fun _ _ e => (written, e);
     glob_glob := glob_glob _ sim_os;
     os_listdir := os_listdir _ sim_os |}.

(** [sim_gammu] with the answers of [ReadConfig] and of
    [GetSecurityStatus] replaced. *)
Definition gammu_with (read : result unit) (status : result (option string))
    : Gammu string sim_udh sim_env :=
  {| gammu_ReadConfig := fun _ _ e => (read, e);
     gammu_Init := sim_Init;
     gammu_GetSecurityStatus := fun _ e => (status, e);
     gammu_EnterSecurityCode := sim_EnterSecurityCode;
     gammu_GetSMSStatus := sim_GetSMSStatus;
     gammu_GetNextSMS := sim_GetNextSMS;
     gammu_DeleteSMS := sim_DeleteSMS;
     gammu_LinkSMS := sim_LinkSMS;
     gammu_DecodeSMS := sim_DecodeSMS |}.

Definition no_such_file : Exception :=
  mkExc FileNotFoundError "[Errno 2] No such file or directory: '/dev/ttyUSB0'".

Definition no_such_user : Exception :=
  mkExc KeyError "'getpwuid(): uid not found: 0'".

Definition out_of_memory : Exception := mkExc OtherError "".

Definition read_only : Exception :=
  mkExc PermissionError "[Errno 13] Permission denied: '/tmp/gammu.config'".

Definition no_config : Exception := mkExc GSMError "ERR_CANTOPENFILE".


(** No device node at the path. *)
Definition missing_os : OS sim_env := os_with (Err no_such_file) (Ok "root") (Ok tt).

(** The owner of the node has no entry in the password database. *)
Definition anonymous_os : OS sim_env :=
  os_with (Ok device_node) (Err no_such_user) (Ok tt).

(** The lookup of the owner fails with a [MemoryError]. *)
Definition exhausted_os : OS sim_env :=
  os_with (Ok device_node) (Err out_of_memory) (Ok tt).

(** No device node at the path, and a [/dev] that cannot be read. *)
Definition barren_os : OS sim_env :=
  {| os_stat := fun _ _ => Err no_such_file;
     os_path_islink := os_path_islink _ sim_os;
     os_path_realpath := os_path_realpath _ sim_os;
     stat_filemode := stat_filemode _ sim_os;
     stat_S_ISCHR := stat_S_ISCHR _ sim_os;
     os_major := os_major _ sim_os;
     os_minor := os_minor _ sim_os;
     pwd_getpwuid := pwd_getpwuid _ sim_os;
     grp_getgrgid := grp_getgrgid _ sim_os;
     open_rb := fun _ _ => Err no_such_file;
     open_w_write := open_w_write _ sim_os;
     glob_glob := fun _ _ =>
       Err (mkExc PermissionError "[Errno 13] Permission denied: '/dev'");
     os_listdir := os_listdir _ sim_os |}.

(** [/tmp] cannot be written. *)
Definition read_only_os : OS sim_env :=
  os_with (Ok device_node) (Ok "root") (Err read_only).

(** A driver that cannot read the configuration file. *)
Definition unreadable_gammu : Gammu string sim_udh sim_env :=
  gammu_with (Err no_config) (Ok None).



(** A modem with nothing stored. *)
Definition empty_store : sim_env :=
  {| stored := []; security := None; init_error := None;
     undeletable := []; dev_nodes := ["ttyUSB0"] |}.

(** A store whose first entry holds no fragment. *)
Definition hollow : sim_env :=
  {| stored := [ []; [hello]; [ping] ];
     security := None; init_error := None; undeletable := [];
     dev_nodes := ["ttyUSB0"] |}.

End Faults.

Import Faults.

Ltac in_events := vm_compute; repeat (first [left; reflexivity | right]).

Lemma describe_missing_device :
  outcome_of (_describe_device_permissions missing_os "/dev/ttyUSB0")
             (world three_fragments)
    = Returned "⚠️ Device /dev/ttyUSB0 not found" /\
  events_of (_describe_device_permissions missing_os "/dev/ttyUSB0")
            (world three_fragments) = [].
Proof.
  exact (describe_unreadable_device_is_a_message _ _ _ missing_os "/dev/ttyUSB0"
           (world three_fragments) no_such_file eq_refl).
Defined.

Lemma describe_unnamed_owner :
  outcome_of (_describe_device_permissions anonymous_os "/dev/ttyUSB0")
             (world three_fragments)
    = Returned "Permissions: crw-rw---- | Owner: 0:dialout | Major:Minor = 188:0".
Proof.
  refine (describe_shows_names_or_numbers _ _ _ anonymous_os "/dev/ttyUSB0"
            (world three_fragments) device_node eq_refl _ _).
  - intros x H. injection H as <-. reflexivity.
  - intros y H. discriminate H.
Defined.

Lemma diagnostics_without_memory :
  outcome_of (log_device_diagnostics exhausted_os "/dev/ttyUSB0")
             (world three_fragments) = Raised (Exc out_of_memory) /\
  events_of (log_device_diagnostics exhausted_os "/dev/ttyUSB0")
            (world three_fragments)
    = [EvPrint "🔎 Collecting modem diagnostics...";
       EvPrint "Configured device: /dev/ttyUSB0"].
Proof.
  refine (diagnostics_stop_at_a_lookup_error _ _ _ exhausted_os "/dev/ttyUSB0"
            (world three_fragments) device_node out_of_memory eq_refl eq_refl _).
  discriminate.
Defined.

(** Without memory for the lookup the diagnostics raise; without a
    device, and with a [/dev] that cannot be read, they report and
    return. *)
Lemma diagnostics_raise_or_report :
  (exists info x,
     os_stat _ exhausted_os "/dev/ttyUSB0" three_fragments = Ok info /\
     Exc out_of_memory = Exc x /\ exc_class x <> KeyError /\
     (pwd_getpwuid _ exhausted_os (st_uid info) three_fragments = Err x \/
      grp_getgrgid _ exhausted_os (st_gid info) three_fragments = Err x)) /\
  outcome_of (log_device_diagnostics barren_os "/dev/ttyUSB0")
             (world three_fragments) = Returned tt /\
  events_of (log_device_diagnostics barren_os "/dev/ttyUSB0")
            (world three_fragments)
    = [EvPrint "🔎 Collecting modem diagnostics...";
       EvPrint "Configured device: /dev/ttyUSB0";
       EvPrint "⚠️ Device /dev/ttyUSB0 not found";
       EvPrint "❌ Device file does not exist";
       EvPrint "⚠️ Unable to list /dev/tty* devices: [Errno 13] Permission denied: '/dev'"].
Proof.
  split.
  - exact (proj1 (diagnostics_raise_only_lookup_errors _ _ _ exhausted_os
                    "/dev/ttyUSB0" (world three_fragments))
                 (Exc out_of_memory) eq_refl).
  - exact (proj1 (proj2 (diagnostics_raise_only_lookup_errors _ _ _ barren_os
                           "/dev/ttyUSB0" (world three_fragments)))
                 "⚠️ Device /dev/ttyUSB0 not found" eq_refl).
Defined.

Lemma init_on_a_read_only_system :
  outcome_of (init_state_machine sim_gammu read_only_os None default_device_path)
             (world three_fragments) = Raised (Exc read_only) /\
  exists sm,
    events_of (init_state_machine sim_gammu read_only_os None default_device_path)
              (world three_fragments)
      = [EvStateMachine sm;
         EvWriteFile "/tmp/gammu.config" (config_content default_device_path)
           (Err read_only)].
Proof.
  refine (init_write_failure_is_raised _ _ _ sim_gammu read_only_os None
            default_device_path (world three_fragments) "/tmp/gammu.config"
            (config_content default_device_path) read_only _).
  in_events.
Defined.

Lemma init_without_a_readable_profile :
  outcome_of (init_state_machine unreadable_gammu sim_os None default_device_path)
             (world three_fragments) = Raised (Exc no_config) /\
  exists before,
    events_of (init_state_machine unreadable_gammu sim_os None default_device_path)
              (world three_fragments)
      = (before ++ [EvReadConfig 1%nat "/tmp/gammu.config" (Err no_config)])%list /\
    forall sm' r, ~ In (EvInit sm' r) before.
Proof.
  refine (init_read_config_failure_is_raised _ _ _ unreadable_gammu sim_os None
            default_device_path (world three_fragments) 1%nat "/tmp/gammu.config"
            no_config _).
  in_events.
Defined.

Lemma init_of_the_three_fragments :
  exists prints rest,
    Forall is_print prints /\
    events_of (initialize None) (world three_fragments)
      = (EvStateMachine 1%nat ::
         EvWriteFile config_file (config_content default_device_path) (Ok tt) ::
         prints ++
         EvReadConfig 1%nat config_file (Ok tt) :: EvInit 1%nat (Ok tt) :: rest)%list /\
    forall sm' r', ~ In (EvInit sm' r') rest.
Proof.
  refine (init_only_after_the_profile_is_read _ _ _ sim_gammu sim_os None
            default_device_path (world three_fragments) 1%nat (Ok tt) _).
  in_events.
Defined.




Lemma init_with_an_empty_pin :
  1 = 1 /\ pin_missing (Some "") = true /\
  exists sm before,
    events_of (initialize (Some "")) (world locked)
      = (before ++
         [EvGetSecurityStatus sm (Ok (Some "PIN"));
          EvPrint "SIM security status: PIN";
          EvPrint "PIN is required but not provided."])%list.
Proof.
  exact (init_exits_only_for_a_missing_pin _ _ _ sim_gammu sim_os (Some "")
           default_device_path (world locked) 1 eq_refl).
Defined.

Lemma init_echoes_the_profile :
  exists sm rest,
    events_of (initialize None) (world three_fragments)
      = EvStateMachine sm ::
        EvWriteFile "/tmp/gammu.config"
          ("[gammu]" ++ nl ++ "device = " ++ "/dev/ttyUSB0" ++ nl ++
           "connection = at" ++ nl ++ "commtimeout = 40" ++ nl) (Ok tt) ::
        EvPrint "📄 Generated gammu config:" ::
        EvPrint ("[gammu]" ++ nl ++ "device = " ++ "/dev/ttyUSB0" ++ nl ++
                 "connection = at" ++ nl ++ "commtimeout = 40") ::
        EvPrint "Config file saved to: /tmp/gammu.config" :: rest.
Proof.
  refine (echoed_configuration_is_the_file_content _ _ _ sim_gammu sim_os None
            default_device_path (world three_fragments) "/tmp/gammu.config"
            (config_content default_device_path) _).
  in_events.
Defined.

Lemma retrieve_from_an_empty_store :
  exists rest,
    events_of retrieve (world empty_store)
      = EvGetSMSStatus 0%nat
          (Ok {| SIMUsed := 0; SIMUnRead := 0; SIMSize := 50; PhoneUsed := 0;
                 PhoneUnRead := 0; PhoneSize := 0; TemplatesUsed := 0 |}) ::
        EvLinkSMS [] (sim_LinkSMS []) :: rest /\
    (sim_LinkSMS [] = Ok [] ->
     rest = [] /\ outcome_of retrieve (world empty_store) = Returned []).
Proof.
  refine (retrieve_with_nothing_stored _ (fun date => date) _ _ sim_gammu 0%nat
            (world empty_store)
            {| SIMUsed := 0; SIMUnRead := 0; SIMSize := 50; PhoneUsed := 0;
               PhoneUnRead := 0; PhoneSize := 0; TemplatesUsed := 0 |} eq_refl _).
  simpl. lia.
Defined.

Lemma retrieve_from_a_hollow_store :
  outcome_of retrieve (world hollow) = Raised (Exc index_error) /\
  [EvPrint "Error retrieving SMS: list index out of range"]
    = [@EvPrint string sim_udh "Error retrieving SMS: list index out of range"].
Proof.
  refine (retrieve_empty_response_is_an_index_error _ (fun date => date) _ _
            sim_gammu 0%nat (world hollow)
            {| SIMUsed := 2; SIMUnRead := 0; SIMSize := 50; PhoneUsed := 0;
               PhoneUnRead := 0; PhoneSize := 0; TemplatesUsed := 0 |}
            [] true None
            [EvPrint "Error retrieving SMS: list index out of range"] eq_refl _).
  simpl. lia.
Defined.
